(** * lifx-async: request engine, connection pool, frame effects, conductor

    A shallow embedding of the parts of lifx-async that its specification
    makes testable statements about:

    - [Connection]: [_ActualConnection.request_stream] and
      [_ActualConnection.request_ack_stream] (src/lifx/network/connection.py),
      the retry schedule and the sequence-number demultiplexing;
    - [Pool]: [ConnectionPool.get_connection], the LRU cache of connections;
    - [FrameEffects]: [FrameContext], [FrameEffect] and its frame loop
      (src/lifx/effects/frame_effect.py);
    - [EffectRainbow], [EffectFlame], [EffectAurora], [EffectColorloop],
      [EffectProgress], [EffectSunrise], [EffectSunset]: the constructors
      and frame generators of the catalog (src/lifx/effects/*.py), and
      [Catalog], the statements about them;
    - [ConductorModel]: [Conductor.start], [stop], [add_lights], [effect]
      (src/lifx/effects/conductor.py).

    Further properties of the same code follow the statements of the
    specification:

    - [RequestEngine]: what the two request streams yield, raise and
      sleep, attempt by attempt;
    - [PoolFacts]: the metrics of the pool, [close_all], a pool without
      capacity;
    - [Registry]: [EffectRegistry] (src/lifx/effects/registry.py);
    - [FrameFacts]: the ranges of the colours the generators produce,
      their periods, the remaining constructors, the frame loop;
    - [ConductorFacts]: capture and restore across [start] and [stop],
      and [Conductor.remove_lights].

    Conventions.  Python [int] is [Z].  Python [float] is idealised: as a
    rational [Q] in the network code, whose arithmetic is only + - * / and
    comparison (so the model stays executable), and as a real [R] in the
    effect generators, which use sin, exp, sqrt and fractional powers.
    A Python exception is a value of [exn]; fallible code returns [result].
    A [dict] or [OrderedDict] is an association list in insertion order
    with unique keys.  Clocks, sockets, random draws and devices are the
    environment: their answers are inputs of the functions. *)

From Stdlib Require Import ZArith QArith Qpower Qminmax List String Bool Lia Lra.
From Stdlib Require Import Reals Lqa.
Import ListNotations.

Set Implicit Arguments.

(* ===================================================================== *)
(** * Python runtime: exceptions, results, ranges, dictionaries *)

Module Py.

Inductive exn : Type :=
| LifxConnectionError
| LifxProtocolError
| LifxTimeoutError
| LifxUnsupportedCommandError
| TimeoutError
| ValueError
| KeyError
| IndexError
| ZeroDivisionError
| TypeError.

Inductive result (A : Type) : Type :=
| Ok (a : A)
| Raise (e : exn).

Arguments Ok {A} a.
Arguments Raise {A} e.

Definition bind {A B : Type} (m : result A) (k : A -> result B) : result B :=
  match m with
  | Ok a => k a
  | Raise e => Raise e
  end.

Notation "x <- m ;; k" := (bind m (fun x => k))
  (at level 61, m at next level, right associativity).

(** [range(n)]: the integers 0, 1, ..., n-1; empty when n <= 0. *)
Definition range (n : Z) : list Z :=
  map Z.of_nat (seq 0 (Z.to_nat n)).

(** A list comprehension / append loop whose body may raise: the first
    exception aborts the loop. *)
Fixpoint for_each {A B : Type} (body : A -> result B) (xs : list A)
  : result (list B) :=
  match xs with
  | [] => Ok []
  | x :: xs' =>
      y <- body x ;;
      ys <- for_each body xs' ;;
      Ok (y :: ys)
  end.

(** [enumerate(xs)] *)
Fixpoint enumerate_from {A : Type} (i : Z) (xs : list A) : list (Z * A) :=
  match xs with
  | [] => []
  | x :: xs' => (i, x) :: enumerate_from (i + 1) xs'
  end.

Definition enumerate {A : Type} (xs : list A) : list (Z * A) :=
  enumerate_from 0 xs.

(** ** dict / OrderedDict keyed by strings, in insertion order *)

Section Dict.
Variable V : Type.

Definition dict := list (string * V).

Fixpoint get (d : dict) (k : string) : option V :=
  match d with
  | [] => None
  | (k', v) :: d' => if String.eqb k k' then Some v else get d' k
  end.

Definition contains (d : dict) (k : string) : bool :=
  match get d k with Some _ => true | None => false end.

(** [d[k] = v]: overwrite in place when the key is present (the position
    is kept), append at the end otherwise. *)
Fixpoint set (d : dict) (k : string) (v : V) : dict :=
  match d with
  | [] => [(k, v)]
  | (k', v') :: d' =>
      if String.eqb k k' then (k', v) :: d' else (k', v') :: set d' k v
  end.

(** [del d[k]] (the callers test membership first): no entry for [k]
    is left. *)
Fixpoint del (d : dict) (k : string) : dict :=
  match d with
  | [] => []
  | (k', v') :: d' =>
      if String.eqb k k' then del d' k else (k', v') :: del d' k
  end.

(** [OrderedDict.move_to_end(k)] for a key that is present. *)
Definition move_to_end (d : dict) (k : string) : dict :=
  match get d k with
  | Some v => del d k ++ [(k, v)]
  | None => d
  end.

Definition keys (d : dict) : list string := map fst d.

End Dict.

End Py.

Import Py.

(* ===================================================================== *)
(** * src/lifx/network/connection.py: the per-device request engine *)

Module Connection.

Local Open Scope Q_scope.

Definition _RETRY_SLEEP_BASE : Q := 1 # 10.
Definition _STATE_UNHANDLED_PKT_TYPE : Z := 223.
Definition _DEFAULT_IDLE_TIMEOUT : Q := 1 # 10.

(** Modelled from the spec: the fields of [LifxHeader]
    (lifx.protocol.header) that the request engine reads, as section 3
    of the specification lists them. *)
Record LifxHeader : Type := {
  sequence : Z;
  pkt_type : Z;
  target_serial : string
}.

Definition payload := list Z.

(** ** The environment of one request

    The engine talks to a clock, a socket and the message builder.  Their
    answers are the input of the model, one record per interaction site:
    a [poll_tick] holds what one iteration of the [while True] loop is
    answered, an [attempt_env] what one iteration of the [for attempt]
    loop is answered.  No relation between the answers is assumed, so every
    behaviour of the network and of the clock is covered, late replies and
    the races marked "pragma: no cover" included. *)

Record poll_tick : Type := {
  (** [time.monotonic()] at the head of the loop body *)
  now_top : Q;
  (** outcome of [receive_packet(timeout=recv_timeout)];
      [Raise LifxTimeoutError] is an idle poll *)
  received : result (LifxHeader * payload);
  (** [time.monotonic()] in the [except LifxTimeoutError] branch *)
  now_idle : Q
}.

Record attempt_env : Type := {
  (** [self._builder.next_sequence()] *)
  next_sequence : Z;
  (** outcome of [send_packet] *)
  sent : result unit;
  (** [attempt_start = time.monotonic()] *)
  attempt_start : Q;
  (** the iterations of the receive loop *)
  ticks : list poll_tick;
  (** the sample of [random.uniform] behind the retry sleep, in [0, 1] *)
  jitter : Q
}.

(** ** Retry schedule (lines 340-354 and 497-505) *)

(** [total_weight = (2 ** (max_retries + 1)) - 1] *)
Definition total_weight (max_retries : Z) : Q :=
  (2 # 1) ^ (max_retries + 1) - 1.

(** [base_timeout = timeout / total_weight] *)
Definition base_timeout (timeout : Q) (max_retries : Z) : result Q :=
  if Qeq_bool (total_weight max_retries) 0 then Raise ZeroDivisionError
  else Ok (timeout / total_weight max_retries).

(** [current_timeout = base_timeout * (2**attempt)] *)
Definition current_timeout (base : Q) (attempt : Z) : Q :=
  base * (2 # 1) ^ attempt.


Definition Qsum (l : list Q) : Q := fold_right Qplus 0 l.

(** [_calculate_retry_sleep_with_jitter(attempt)], with the random sample
    [u] of [random.uniform(0, exponential_delay)] given as a fraction. *)
Definition _calculate_retry_sleep_with_jitter (u : Q) (attempt : Z) : Q :=
  let exponential_delay := _RETRY_SLEEP_BASE * (2 # 1) ^ attempt in
  u * exponential_delay.

(** ** The receive loop of [request_stream] (lines 373-431) *)

Inductive poll_end : Type :=
| AttemptTimeout                (* [raise TimeoutError], caught at line 433 *)
| StreamReturn                  (* [return]: the generator is finished *)
| Propagate (e : exn)           (* any other exception leaves the generator *)
| StillPolling.                 (* the recorded environment ends here *)

Record poll_result (Y : Type) : Type := {
  poll_yielded : list Y;
  poll_has_yielded : bool;
  poll_finish : poll_end
}.

Definition emit {Y : Type} (y : Y) (r : poll_result Y) : poll_result Y :=
  {| poll_yielded := y :: poll_yielded r;
     poll_has_yielded := poll_has_yielded r;
     poll_finish := poll_finish r |}.

Definition stop_poll {Y : Type} (has_yielded : bool) (e : poll_end)
  : poll_result Y :=
  {| poll_yielded := []; poll_has_yielded := has_yielded; poll_finish := e |}.

Fixpoint poll_responses (expected_pkt_type : option Z) (sequence_ : Z)
    (attempt_deadline : Q) (has_yielded : bool) (env : list poll_tick)
  : poll_result (LifxHeader * payload) :=
  match env with
  | [] => stop_poll has_yielded StillPolling
  | tick :: env' =>
      let remaining_time := attempt_deadline - now_top tick in
      if Qle_bool remaining_time 0 then
        if negb has_yielded then stop_poll has_yielded AttemptTimeout
        else stop_poll has_yielded StreamReturn
      else
        let recv_timeout := Qmin _DEFAULT_IDLE_TIMEOUT remaining_time in
        match received tick with
        | Raise LifxTimeoutError =>
            if has_yielded then
              poll_responses expected_pkt_type sequence_ attempt_deadline
                has_yielded env'
            else if Qle_bool attempt_deadline (now_idle tick) then
              stop_poll has_yielded AttemptTimeout
            else
              poll_responses expected_pkt_type sequence_ attempt_deadline
                has_yielded env'
        | Raise TimeoutError => stop_poll has_yielded AttemptTimeout
        | Raise e => stop_poll has_yielded (Propagate e)
        | Ok (header, body) =>
            if negb (sequence header =? sequence_)%Z then
              poll_responses expected_pkt_type sequence_ attempt_deadline
                has_yielded env'
            else if (pkt_type header =? _STATE_UNHANDLED_PKT_TYPE)%Z then
              stop_poll has_yielded (Propagate LifxUnsupportedCommandError)
            else
              match expected_pkt_type with
              | Some expected =>
                  if negb (pkt_type header =? expected)%Z then
                    stop_poll has_yielded (Propagate LifxProtocolError)
                  else
                    emit (header, body)
                      (poll_responses expected_pkt_type sequence_
                         attempt_deadline true env')
              | None =>
                  emit (header, body)
                    (poll_responses expected_pkt_type sequence_
                       attempt_deadline true env')
              end
        end
  end.

(** ** The receive loop of [request_ack_stream] (lines 524-562) *)

Fixpoint poll_ack (sequence_ : Z) (attempt_deadline : Q)
    (env : list poll_tick) : poll_result unit :=
  match env with
  | [] => stop_poll false StillPolling
  | tick :: env' =>
      let remaining_time := attempt_deadline - now_top tick in
      if Qle_bool remaining_time 0 then stop_poll false AttemptTimeout
      else
        let recv_timeout := Qmin _DEFAULT_IDLE_TIMEOUT remaining_time in
        match received tick with
        | Raise LifxTimeoutError =>
            if Qle_bool attempt_deadline (now_idle tick) then
              stop_poll false AttemptTimeout
            else poll_ack sequence_ attempt_deadline env'
        | Raise TimeoutError => stop_poll false AttemptTimeout
        | Raise e => stop_poll false (Propagate e)
        | Ok (header, _) =>
            if negb (sequence header =? sequence_)%Z then
              poll_ack sequence_ attempt_deadline env'
            else if (pkt_type header =? _STATE_UNHANDLED_PKT_TYPE)%Z then
              stop_poll false (Propagate LifxUnsupportedCommandError)
            else
              emit tt (stop_poll true StreamReturn)
        end
  end.

(** ** The retry loops (lines 352-449 and 503-579) *)

Inductive stream_end : Type :=
| Finished                      (* the generator is exhausted *)
| Raised (e : exn)              (* the generator raised [e] *)
| Unfinished.                   (* the recorded environment ended first *)

(** What a consumer that iterates the generator to its end observes:
    the values yielded, in order, and how the iteration ended.  [slept]
    records the arguments of [asyncio.sleep]. *)
Record stream_result (Y : Type) : Type := {
  yielded : list Y;
  slept : list Q;
  finish : stream_end
}.

Definition end_stream {Y : Type} (e : stream_end) : stream_result Y :=
  {| yielded := []; slept := []; finish := e |}.

Definition after {Y : Type} (ys : list Y) (zs : list Q)
    (r : stream_result Y) : stream_result Y :=
  {| yielded := ys ++ yielded r; slept := zs ++ slept r; finish := finish r |}.

(** Lines 444-449: after the [for] loop. *)
Definition exhausted {Y : Type} (has_yielded : bool) : stream_result Y :=
  if negb has_yielded then end_stream (Raised LifxTimeoutError)
  else end_stream Finished.

Record Request : Type := {
  (** [getattr(request, "STATE_TYPE", None)] *)
  STATE_TYPE : option Z
}.

Record _ActualConnection : Type := {
  serial : string;
  ip : string;
  port : Z;
  (** the [source] handed to [MessageBuilder]; [None] draws a random one *)
  source : option Z;
  max_retries : Z;
  default_timeout : Q;
  _is_open : bool
}.

(** [_ActualConnection.open] and [close] (lines 158-200); the transport
    they create or drop is the environment of the receive loops. *)
Definition open (self : _ActualConnection) : _ActualConnection :=
  if _is_open self then self
  else {| serial := serial self; ip := ip self; port := port self;
          source := source self; max_retries := max_retries self;
          default_timeout := default_timeout self; _is_open := true |}.

Definition close (self : _ActualConnection) : _ActualConnection :=
  if negb (_is_open self) then self
  else {| serial := serial self; ip := ip self; port := port self;
          source := source self; max_retries := max_retries self;
          default_timeout := default_timeout self; _is_open := false |}.

Fixpoint request_attempts (expected_pkt_type : option Z) (base : Q)
    (retries : Z) (attempts : list Z) (has_yielded : bool)
    (env : list attempt_env) : stream_result (LifxHeader * payload) :=
  match attempts with
  | [] => exhausted has_yielded
  | attempt :: attempts' =>
      match env with
      | [] => end_stream Unfinished
      | a :: env' =>
          let current := current_timeout base attempt in
          let sequence_ := next_sequence a in
          let on_timeout (has_yielded' : bool) :=
            (* [except TimeoutError], lines 433-442 *)
            if (attempt <? retries)%Z then
              after [] [_calculate_retry_sleep_with_jitter (jitter a) attempt]
                (request_attempts expected_pkt_type base retries attempts'
                   has_yielded' env')
            else exhausted has_yielded' in
          match sent a with
          | Raise TimeoutError => on_timeout has_yielded
          | Raise e => end_stream (Raised e)
          | Ok _ =>
              let attempt_deadline := attempt_start a + current in
              let r := poll_responses expected_pkt_type sequence_
                         attempt_deadline has_yielded (ticks a) in
              after (poll_yielded r) []
                match poll_finish r with
                | AttemptTimeout => on_timeout (poll_has_yielded r)
                | StreamReturn => end_stream Finished
                | Propagate e => end_stream (Raised e)
                | StillPolling => end_stream Unfinished
                end
          end
      end
  end.

Definition request_stream (self : _ActualConnection) (request : Request)
    (timeout : option Q) (retries : option Z) (env : list attempt_env)
  : stream_result (LifxHeader * payload) :=
  if negb (_is_open self) then end_stream (Raised LifxConnectionError)
  else
    let timeout := match timeout with Some t => t
                                    | None => default_timeout self end in
    let retries := match retries with Some r => r
                                    | None => max_retries self end in
    match base_timeout timeout retries with
    | Raise e => end_stream (Raised e)
    | Ok base =>
        request_attempts (STATE_TYPE request) base retries
          (range (retries + 1)) false env
    end.

Fixpoint ack_attempts (base : Q) (retries : Z) (attempts : list Z)
    (env : list attempt_env) : stream_result unit :=
  match attempts with
  | [] => end_stream (Raised LifxTimeoutError)
  | attempt :: attempts' =>
      match env with
      | [] => end_stream Unfinished
      | a :: env' =>
          let current := current_timeout base attempt in
          let sequence_ := next_sequence a in
          let on_timeout :=
            if (attempt <? retries)%Z then
              after [] [_calculate_retry_sleep_with_jitter (jitter a) attempt]
                (ack_attempts base retries attempts' env')
            else end_stream (Raised LifxTimeoutError) in
          match sent a with
          | Raise TimeoutError => on_timeout
          | Raise e => end_stream (Raised e)
          | Ok _ =>
              let attempt_deadline := attempt_start a + current in
              let r := poll_ack sequence_ attempt_deadline (ticks a) in
              after (poll_yielded r) []
                match poll_finish r with
                | AttemptTimeout => on_timeout
                | StreamReturn => end_stream Finished
                | Propagate e => end_stream (Raised e)
                | StillPolling => end_stream Unfinished
                end
          end
      end
  end.

Definition request_ack_stream (self : _ActualConnection)
    (timeout : option Q) (retries : option Z) (env : list attempt_env)
  : stream_result unit :=
  if negb (_is_open self) then end_stream (Raised LifxConnectionError)
  else
    let timeout := match timeout with Some t => t
                                    | None => default_timeout self end in
    let retries := match retries with Some r => r
                                    | None => max_retries self end in
    match base_timeout timeout retries with
    | Raise e => end_stream (Raised e)
    | Ok base => ack_attempts base retries (range (retries + 1)) env
    end.

(** ** Hypotheses on the environment used below *)






(** ** Facts about the retry schedule *)

Lemma pow2_succ (k : nat) :
  (2 # 1) ^ Z.of_nat (S k) == (2 # 1) ^ Z.of_nat k * (2 # 1).
Proof.
  rewrite Nat2Z.inj_succ. unfold Z.succ.
  rewrite Qpower_plus by discriminate. reflexivity.
Qed.

Lemma pow2_ge_1 (k : nat) : 1 <= (2 # 1) ^ Z.of_nat k.
Proof.
  induction k as [|k IH].
  - simpl. apply Qle_refl.
  - rewrite pow2_succ. nra.
Qed.



Lemma total_weight_pos (R : Z) : (0 <= R)%Z -> 0 < total_weight R.
Proof.
  intros HR. unfold total_weight.
  replace (R + 1)%Z with (Z.of_nat (S (Z.to_nat R))) by lia.
  rewrite pow2_succ. pose proof (pow2_ge_1 (Z.to_nat R)). nra.
Qed.

Lemma base_timeout_ok (T : Q) (R : Z) :
  (0 <= R)%Z -> base_timeout T R = Ok (T / total_weight R).
Proof.
  intros HR. unfold base_timeout.
  destruct (Qeq_bool (total_weight R) 0) eqn:E; [|reflexivity].
  apply Qeq_bool_eq in E. pose proof (total_weight_pos HR) as H.
  rewrite E in H. exfalso. apply (Qlt_irrefl 0 H).
Qed.



(** ** Facts about the receive loops *)

Lemma Qle_bool_false (a b : Q) : Qle_bool a b = false <-> b < a.
Proof.
  split; intros H.
  - apply Qnot_le_lt. intro Hle. apply Qle_bool_iff in Hle. congruence.
  - destruct (Qle_bool a b) eqn:E; [|reflexivity].
    apply Qle_bool_iff in E. exfalso. apply (Qlt_not_le _ _ H E).
Qed.

Lemma remaining_elapsed (deadline now : Q) :
  Qle_bool (deadline - now) 0 = true <-> deadline <= now.
Proof.
  rewrite Qle_bool_iff. split; intros H; lra.
Qed.

Lemma remaining_left (deadline now : Q) :
  Qle_bool (deadline - now) 0 = false <-> now < deadline.
Proof.
  rewrite Qle_bool_false. split; intros H; lra.
Qed.

(** Every value the receive loop yields carries the sequence number that
    was allocated for the attempt. *)
Lemma poll_responses_yields_sequence expected sequence_ deadline env :
  forall has_yielded header body,
    In (header, body)
       (poll_yielded (poll_responses expected sequence_ deadline
                        has_yielded env)) ->
    sequence header = sequence_.
Proof.
  induction env as [|tick env IH]; intros hy header body Hin; simpl in Hin.
  - contradiction.
  - destruct (Qle_bool (deadline - now_top tick) 0).
    { destruct (negb hy); simpl in Hin; contradiction. }
    destruct (received tick) as [[h b]|e].
    + destruct (sequence h =? sequence_)%Z eqn:Eseq; simpl in Hin.
      * apply Z.eqb_eq in Eseq.
        destruct (pkt_type h =? _STATE_UNHANDLED_PKT_TYPE)%Z;
          [simpl in Hin; contradiction|].
        destruct expected as [x|].
        -- destruct (pkt_type h =? x)%Z; simpl in Hin.
           ++ destruct Hin as [Heq|Hin]; [congruence|eauto].
           ++ contradiction.
        -- simpl in Hin. destruct Hin as [Heq|Hin]; [congruence|eauto].
      * eauto.
    + destruct e; try (simpl in Hin; contradiction).
      destruct hy; [eauto|].
      destruct (Qle_bool deadline (now_idle tick));
        [simpl in Hin; contradiction|eauto].
Qed.

(** C3.  In the receive loop of [request_stream] and in that of
    [request_ack_stream], a packet received during an attempt (the
    deadline not yet reached) whose header sequence differs from the
    sequence allocated for the attempt changes nothing: the loop goes on
    exactly as if that iteration had not happened, without a yield and
    without an exception; and whatever [request_stream]'s loop yields
    carries the attempt's own sequence number. *)
Theorem mismatched_sequence_is_dropped
    (expected : option Z) (sequence_ : Z) (deadline : Q) (has_yielded : bool)
    (tick : poll_tick) (env : list poll_tick)
    (header : LifxHeader) (body : payload) :
  now_top tick < deadline ->
  received tick = Ok (header, body) ->
  sequence header <> sequence_ ->
  poll_responses expected sequence_ deadline has_yielded (tick :: env)
    = poll_responses expected sequence_ deadline has_yielded env /\
  poll_ack sequence_ deadline (tick :: env)
    = poll_ack sequence_ deadline env /\
  ~ In (header, body)
       (poll_yielded (poll_responses expected sequence_ deadline
                        has_yielded (tick :: env))).
Proof.
  intros Hnow Hrecv Hseq.
  apply remaining_left in Hnow. apply Z.eqb_neq in Hseq.
  repeat split.
  - simpl. rewrite Hnow, Hrecv, Hseq. reflexivity.
  - simpl. rewrite Hnow, Hrecv, Hseq. reflexivity.
  - intro Hin. apply poll_responses_yields_sequence in Hin.
    apply Z.eqb_neq in Hseq. contradiction.
Qed.

Definition late_reply : poll_tick :=
  {| now_top := 0;
     received := Ok ({| sequence := 7; pkt_type := 107;
                        target_serial := "d073d5123456" |}, []);
     now_idle := 0 |}.

Lemma mismatched_sequence_is_dropped_witness :
  poll_responses (Some 107%Z) 8 (1 # 2) false [late_reply]
    = poll_responses (Some 107%Z) 8 (1 # 2) false [] /\
  poll_ack 8 (1 # 2) [late_reply] = poll_ack 8 (1 # 2) [] /\
  ~ In ({| sequence := 7; pkt_type := 107;
           target_serial := "d073d5123456" |}, [])
       (poll_yielded (poll_responses (Some 107%Z) 8 (1 # 2) false
                        [late_reply])).
Proof.
  apply (@mismatched_sequence_is_dropped (Some 107%Z) 8 (1 # 2) false
           late_reply []
           {| sequence := 7; pkt_type := 107;
              target_serial := "d073d5123456" |} []).
  - reflexivity.
  - reflexivity.
  - simpl. lia.
Defined.




Definition bulb : _ActualConnection :=
  {| serial := "d073d5123456"; ip := "192.168.1.100"; port := 56700;
     source := None; max_retries := 8; default_timeout := 8;
     _is_open := true |}.

(** One second later nothing has arrived. *)
Definition silence (start : Q) (seq_ : Z) : attempt_env :=
  {| next_sequence := seq_; sent := Ok tt; attempt_start := start;
     ticks := [ {| now_top := start;
                   received := Raise LifxTimeoutError;
                   now_idle := start + 1 |} ];
     jitter := 1 # 2 |}.


(** ** The engine on small runs *)

Definition state_power (seq_ : Z) : LifxHeader :=
  {| sequence := seq_; pkt_type := 22; target_serial := "d073d5123456" |}.

(** The reply to the first attempt arrives; the stream yields it and ends
    when the deadline of the attempt has passed. *)
Definition answered : attempt_env :=
  {| next_sequence := 1; sent := Ok tt; attempt_start := 0;
     ticks := [ {| now_top := 0; received := Ok (state_power 1, [65535%Z]);
                   now_idle := 0 |};
                {| now_top := 1; received := Raise LifxTimeoutError;
                   now_idle := 1 |} ];
     jitter := 0 |}.

Example request_stream_answered :
  let r := request_stream bulb {| STATE_TYPE := Some 22%Z |}
             (Some (1 # 2)) (Some 2%Z) [answered] in
  yielded r = [(state_power 1, [65535%Z])] /\ finish r = Finished.
Proof. split; reflexivity. Qed.

(** A late reply to an earlier attempt is dropped; the retry answers. *)
Definition retried : list attempt_env :=
  [ silence 0 1;
    {| next_sequence := 2; sent := Ok tt; attempt_start := 2;
       ticks := [ {| now_top := 2; received := Ok (state_power 1, [0%Z]);
                     now_idle := 2 |};
                  {| now_top := 2; received := Ok (state_power 2, [65535%Z]);
                     now_idle := 2 |};
                  {| now_top := 3; received := Raise LifxTimeoutError;
                     now_idle := 3 |} ];
       jitter := 0 |} ].

Example request_stream_retried :
  let r := request_stream bulb {| STATE_TYPE := Some 22%Z |}
             (Some (1 # 2)) (Some 2%Z) retried in
  yielded r = [(state_power 2, [65535%Z])] /\
  List.length (slept r) = 1%nat /\ finish r = Finished.
Proof. repeat split; reflexivity. Qed.

Example request_stream_unhandled :
  finish (request_stream bulb {| STATE_TYPE := Some 22%Z |}
            (Some (1 # 2)) (Some 2%Z)
            [ {| next_sequence := 1; sent := Ok tt; attempt_start := 0;
                 ticks := [ {| now_top := 0;
                               received :=
                                 Ok ({| sequence := 1; pkt_type := 223;
                                        target_serial := "d073d5123456" |},
                                     []);
                               now_idle := 0 |} ];
                 jitter := 0 |} ])
  = Raised LifxUnsupportedCommandError.
Proof. reflexivity. Qed.

Example request_stream_wrong_type :
  finish (request_stream bulb {| STATE_TYPE := Some 107%Z |}
            (Some (1 # 2)) (Some 2%Z) [answered])
  = Raised LifxProtocolError.
Proof. reflexivity. Qed.

Example request_ack_stream_acknowledged :
  let r := request_ack_stream bulb (Some (1 # 2)) (Some 2%Z)
             [ {| next_sequence := 5; sent := Ok tt; attempt_start := 0;
                  ticks := [ {| now_top := 0;
                                received :=
                                  Ok ({| sequence := 5; pkt_type := 45;
                                         target_serial := "d073d5123456" |},
                                      []);
                                now_idle := 0 |} ];
                  jitter := 0 |} ] in
  yielded r = [tt] /\ finish r = Finished.
Proof. split; reflexivity. Qed.

Example request_stream_closed :
  finish (request_stream (close bulb) {| STATE_TYPE := None |} None None [])
  = Raised LifxConnectionError.
Proof. reflexivity. Qed.

End Connection.

(* ===================================================================== *)
(** * Facts about dictionaries *)

Module DictFacts.

Section Facts.
Variable V : Type.
Implicit Types (d : dict V) (k : string) (v : V).

Lemma get_None_keys d k : get d k = None <-> ~ In k (keys d).
Proof.
  induction d as [|[k' v'] d IH]; simpl.
  - tauto.
  - destruct (String.eqb_spec k k') as [->|Hne].
    + split; [discriminate|]. intros H. exfalso. apply H. now left.
    + rewrite IH. split.
      * intros H [Heq|Hin]; [congruence|contradiction].
      * intros H Hin. apply H. now right.
Qed.

Lemma get_Some_keys d k v : get d k = Some v -> In k (keys d).
Proof.
  intros H. destruct (in_dec string_dec k (keys d)) as [Hin|Hout];
    [assumption|].
  apply get_None_keys in Hout. congruence.
Qed.

Lemma set_absent d k v : get d k = None -> set d k v = d ++ [(k, v)].
Proof.
  induction d as [|[k' v'] d IH]; simpl; intros H.
  - reflexivity.
  - destruct (String.eqb k k'); [discriminate|].
    rewrite IH by assumption. reflexivity.
Qed.

Lemma set_present_keys d k v :
  get d k <> None -> keys (set d k v) = keys d.
Proof.
  induction d as [|[k' v'] d IH]; simpl; intros H.
  - congruence.
  - destruct (String.eqb k k'); simpl; [reflexivity|].
    rewrite IH by assumption. reflexivity.
Qed.

Lemma get_set_same d k v : get (set d k v) k = Some v.
Proof.
  induction d as [|[k' v'] d IH]; simpl.
  - rewrite String.eqb_refl. reflexivity.
  - destruct (String.eqb k k') eqn:E; simpl; rewrite E;
      [reflexivity|assumption].
Qed.

Lemma get_set_other d k k' v : k' <> k -> get (set d k v) k' = get d k'.
Proof.
  intros Hne. induction d as [|[k0 v0] d IH]; simpl.
  - apply String.eqb_neq in Hne. rewrite Hne. reflexivity.
  - destruct (String.eqb_spec k k0) as [->|Hk]; simpl.
    + apply String.eqb_neq in Hne. rewrite Hne. reflexivity.
    + destruct (String.eqb k' k0); [reflexivity|assumption].
Qed.

Lemma length_set d k v :
  (List.length (set d k v) <= S (List.length d))%nat.
Proof.
  induction d as [|[k' v'] d IH]; simpl.
  - lia.
  - destruct (String.eqb k k'); simpl; lia.
Qed.

Lemma NoDup_keys_set d k v : NoDup (keys d) -> NoDup (keys (set d k v)).
Proof.
  intros Hnd. destruct (get d k) eqn:E.
  - rewrite set_present_keys by congruence. assumption.
  - rewrite set_absent by assumption. unfold keys. rewrite map_app. simpl.
    apply get_None_keys in E.
    apply NoDup_app; [assumption|repeat constructor; simpl; tauto|].
    intros x Hx [<-|[]]. contradiction.
Qed.

Lemma keys_del_incl d k x : In x (keys (del d k)) -> In x (keys d).
Proof.
  induction d as [|[k' v'] d IH]; simpl.
  - tauto.
  - destruct (String.eqb k k'); simpl; tauto.
Qed.

Lemma NoDup_keys_del d k : NoDup (keys d) -> NoDup (keys (del d k)).
Proof.
  induction d as [|[k' v'] d IH]; simpl; intros Hnd.
  - constructor.
  - inversion Hnd as [|? ? Hout Hrest]; subst.
    destruct (String.eqb k k'); simpl; [auto|].
    constructor; [|auto]. intro Hin. apply Hout.
    apply keys_del_incl with (k := k). assumption.
Qed.

Lemma get_del_same d k : get (del d k) k = None.
Proof.
  induction d as [|[k' v'] d IH]; simpl.
  - reflexivity.
  - destruct (String.eqb k k') eqn:E; simpl; [assumption|].
    rewrite E. assumption.
Qed.

Lemma get_del_other d k k' : k' <> k -> get (del d k) k' = get d k'.
Proof.
  intros Hne. induction d as [|[k0 v0] d IH]; simpl.
  - reflexivity.
  - destruct (String.eqb_spec k k0) as [->|Hk]; simpl.
    + apply String.eqb_neq in Hne. rewrite Hne. assumption.
    + destruct (String.eqb k' k0); [reflexivity|assumption].
Qed.

Lemma del_absent d k : get d k = None -> del d k = d.
Proof.
  induction d as [|[k' v'] d IH]; simpl; intros H.
  - reflexivity.
  - destruct (String.eqb k k'); [discriminate|].
    rewrite IH by assumption. reflexivity.
Qed.

Lemma length_del_present d k :
  NoDup (keys d) -> get d k <> None ->
  S (List.length (del d k)) = List.length d.
Proof.
  induction d as [|[k' v'] d IH]; simpl; intros Hnd H.
  - congruence.
  - inversion Hnd as [|? ? Hout Hrest]; subst.
    destruct (String.eqb_spec k k') as [->|Hne]; simpl.
    + rewrite del_absent; [reflexivity|].
      apply get_None_keys. assumption.
    + rewrite IH by assumption. reflexivity.
Qed.

(** A hit of the LRU cache: [move_to_end(k)] then [d[k] = v']. *)
Lemma set_move_to_end d k v v' :
  get d k = Some v ->
  set (move_to_end d k) k v' = del d k ++ [(k, v')].
Proof.
  intros Hget. unfold move_to_end. rewrite Hget.
  pose proof (get_del_same d k) as Hdel.
  induction (del d k) as [|[k0 v0] d' IH]; simpl in *.
  - rewrite String.eqb_refl. reflexivity.
  - destruct (String.eqb k k0); [discriminate|].
    rewrite IH by assumption. reflexivity.
Qed.

End Facts.

End DictFacts.

(* ===================================================================== *)
(** * src/lifx/network/connection.py: the connection pool *)

Module Pool.

Import Connection.
Local Open Scope Z_scope.

Record ConnectionPoolMetrics : Type := {
  hits : Z;
  misses : Z;
  evictions : Z;
  total_requests : Z;
  eviction_times_ms : list Q
}.

(** Connections are objects: the pool, its callers and the eviction path
    share them.  The heap holds the objects; a reference is an index. *)
Definition ref := nat.
Definition heap := list _ActualConnection.

Record ConnectionPool : Type := {
  max_connections : Z;
  (** [OrderedDict[str, tuple[_ActualConnection, float]]];
      the head is the least recently used entry *)
  connections : dict (ref * Q);
  metrics : ConnectionPoolMetrics
}.

Record world : Type := {
  pool : ConnectionPool;
  objects : heap
}.

(** [ConnectionPool.__init__] *)
Definition create (max_connections_ : Z) : world :=
  {| pool := {| max_connections := max_connections_;
                connections := [];
                metrics := {| hits := 0; misses := 0; evictions := 0;
                              total_requests := 0;
                              eviction_times_ms := [] |} |};
     objects := [] |}.

Definition is_open (h : heap) (c : ref) : bool :=
  match nth_error h c with
  | Some conn => _is_open conn
  | None => false
  end.

Fixpoint update (h : heap) (c : ref) (f : _ActualConnection -> _ActualConnection)
  : heap :=
  match h, c with
  | [], _ => []
  | conn :: h', O => f conn :: h'
  | conn :: h', S c' => conn :: update h' c' f
  end.

(** The arguments of one call of [get_connection], with the two clock
    readings it makes: [time.time()] on entry and the measured duration
    of the eviction. *)
Record call : Type := {
  arg_serial : string;
  arg_ip : string;
  arg_port : Z;
  arg_source : option Z;
  arg_max_retries : Z;
  arg_timeout : Q;
  current_time : Q;
  eviction_time_ms : Q
}.

Definition count_request (m : ConnectionPoolMetrics) : ConnectionPoolMetrics :=
  {| hits := hits m; misses := misses m; evictions := evictions m;
     total_requests := total_requests m + 1;
     eviction_times_ms := eviction_times_ms m |}.

Definition count_hit (m : ConnectionPoolMetrics) : ConnectionPoolMetrics :=
  {| hits := hits m + 1; misses := misses m; evictions := evictions m;
     total_requests := total_requests m;
     eviction_times_ms := eviction_times_ms m |}.

Definition count_miss (m : ConnectionPoolMetrics) : ConnectionPoolMetrics :=
  {| hits := hits m; misses := misses m + 1; evictions := evictions m;
     total_requests := total_requests m;
     eviction_times_ms := eviction_times_ms m |}.

Definition count_eviction (ms : Q) (m : ConnectionPoolMetrics)
  : ConnectionPoolMetrics :=
  {| hits := hits m; misses := misses m; evictions := evictions m + 1;
     total_requests := total_requests m;
     eviction_times_ms := eviction_times_ms m ++ [ms] |}.

Definition with_pool (w : world) (d : dict (ref * Q))
    (m : ConnectionPoolMetrics) (h : heap) : world :=
  {| pool := {| max_connections := max_connections (pool w);
                connections := d; metrics := m |};
     objects := h |}.

(** [ConnectionPool.get_connection] (lines 624-724): the connection
    returned, or the exception raised, and the state left behind. *)
Definition get_connection (w : world) (a : call) : result ref * world :=
  let self := pool w in
  let serial_ := arg_serial a in
  let m := count_request (metrics self) in
  let hit :=
    match get (connections self) serial_ with
    | Some (conn, _) => if is_open (objects w) conn then Some conn else None
    | None => None
    end in
  match hit with
  | Some conn =>
      (* cache hit *)
      let d := move_to_end (connections self) serial_ in
      let d := set d serial_ (conn, current_time a) in
      (Ok conn, with_pool w d (count_hit m) (objects w))
  | None =>
      (* cache miss *)
      let m := count_miss m in
      let conn := List.length (objects w) in
      let h := objects w ++
                 [open {| serial := serial_; ip := arg_ip a;
                          port := arg_port a; source := arg_source a;
                          max_retries := arg_max_retries a;
                          default_timeout := arg_timeout a;
                          _is_open := false |}] in
      if Z.of_nat (List.length (connections self)) >=? max_connections self
      then
        (* [popitem(last=False)] *)
        match connections self with
        | [] => (Raise KeyError, with_pool w [] m h)
        | (lru_serial, (old_conn, _)) :: d =>
            let h := update h old_conn close in
            let m := count_eviction (eviction_time_ms a) m in
            (Ok conn,
             with_pool w (set d serial_ (conn, current_time a)) m h)
        end
      else
        (Ok conn,
         with_pool w (set (connections self) serial_ (conn, current_time a))
           m h)
  end.

(** What can happen to a pool: a call of [get_connection], or somebody
    who holds a connection closing it. *)
Inductive event : Type :=
| GetConnection (a : call)
| CloseConnection (c : ref).

Definition step (w : world) (e : event) : world :=
  match e with
  | GetConnection a => snd (get_connection w a)
  | CloseConnection c =>
      {| pool := pool w; objects := update (objects w) c close |}
  end.

Definition run (w : world) (es : list event) : world :=
  fold_left step es w.

Definition pooled (w : world) : Z :=
  Z.of_nat (List.length (connections (pool w))).

(** A request for [serial_] with default arguments. *)
Definition request_for (serial_ : string) : call :=
  {| arg_serial := serial_; arg_ip := "192.168.1.100"; arg_port := 56700;
     arg_source := None; arg_max_retries := 8; arg_timeout := 8;
     current_time := 0; eviction_time_ms := 0 |}.

(** ** Invariant of the pool *)

Import DictFacts.

Definition refs_below (n : nat) (d : dict (ref * Q)) : Prop :=
  Forall (fun entry => (fst (snd entry) < n)%nat) d.

Definition inv (N : Z) (w : world) : Prop :=
  max_connections (pool w) = N /\
  pooled w <= N /\
  NoDup (keys (connections (pool w))) /\
  refs_below (List.length (objects w)) (connections (pool w)).

Lemma length_update h c f : List.length (update h c f) = List.length h.
Proof.
  revert c. induction h as [|x h IH]; intros [|c]; simpl; auto.
Qed.

Lemma nth_error_update_same h c f :
  nth_error (update h c f) c = option_map f (nth_error h c).
Proof.
  revert c. induction h as [|x h IH]; intros [|c]; simpl; auto.
Qed.

Lemma nth_error_update_other h c c' f :
  c' <> c -> nth_error (update h c f) c' = nth_error h c'.
Proof.
  revert c c'. induction h as [|x h IH]; intros [|c] [|c'] Hne; simpl;
    auto; try congruence.
Qed.

Lemma refs_below_mono n n' d :
  (n <= n')%nat -> refs_below n d -> refs_below n' d.
Proof.
  intros Hle. unfold refs_below. apply Forall_impl. intros e He. lia.
Qed.

Lemma refs_below_set n d k c t :
  (c < n)%nat -> refs_below n d -> refs_below n (set d k (c, t)).
Proof.
  intros Hc. unfold refs_below.
  induction d as [|[k' v'] d IH]; simpl; intros Hd.
  - repeat constructor. assumption.
  - inversion Hd; subst.
    destruct (String.eqb k k'); constructor; simpl; auto.
Qed.

Lemma refs_below_del n d k : refs_below n d -> refs_below n (del d k).
Proof.
  unfold refs_below.
  induction d as [|[k' v'] d IH]; simpl; intros Hd.
  - constructor.
  - inversion Hd; subst. destruct (String.eqb k k'); [auto|].
    constructor; auto.
Qed.

Lemma get_refs_below n d k c t :
  refs_below n d -> get d k = Some (c, t) -> (c < n)%nat.
Proof.
  unfold refs_below.
  induction d as [|[k' v'] d IH]; simpl; intros Hd Hget.
  - discriminate.
  - inversion Hd as [|? ? Hhd Htl]; subst.
    destruct (String.eqb k k'); [|auto].
    injection Hget as ->. exact Hhd.
Qed.

Lemma inv_create N : 0 <= N -> inv N (create N).
Proof.
  intros HN. unfold inv, pooled. simpl.
  repeat split; [assumption|constructor|constructor].
Qed.



Ltac split_inv :=
  unfold inv, pooled; simpl; split; [|split; [|split]].

Lemma inv_get_connection N w a :
  inv N w -> inv N (snd (get_connection w a)).
Proof.
  intros (Hmax & Hsize & Hnd & Hrefs). unfold pooled in Hsize.
  unfold get_connection.
  set (hit := match get (connections (pool w)) (arg_serial a) with
              | Some (conn, _) =>
                  if is_open (objects w) conn then Some conn else None
              | None => None
              end).
  assert (Hhit : forall conn, hit = Some conn ->
            exists t, get (connections (pool w)) (arg_serial a)
                      = Some (conn, t)).
  { intros conn. unfold hit.
    destruct (get (connections (pool w)) (arg_serial a)) as [[c t]|];
      [|discriminate].
    destruct (is_open (objects w) c); [|discriminate].
    intros [= ->]. eauto. }
  destruct hit as [conn|].
  - destruct (Hhit conn eq_refl) as [t Hget].
    rewrite (set_move_to_end _ _ _ Hget).
    assert (Hpres : get (connections (pool w)) (arg_serial a) <> None)
      by congruence.
    pose proof (length_del_present _ _ Hnd Hpres) as Hlen.
    split_inv.
    + assumption.
    + rewrite length_app. simpl. lia.
    + unfold keys. rewrite map_app. simpl.
      apply NoDup_app.
      * apply NoDup_keys_del. assumption.
      * repeat constructor. simpl. tauto.
      * intros x Hx [<-|[]].
        apply (proj1 (get_None_keys _ _)
                 (get_del_same (connections (pool w)) (arg_serial a))).
        assumption.
    + unfold refs_below. apply Forall_app. split.
      * apply refs_below_del. assumption.
      * repeat constructor. simpl.
        eapply get_refs_below; eassumption.
  - clear Hhit.
    destruct (Z.geb_spec (Z.of_nat (List.length (connections (pool w))))
                (max_connections (pool w))) as [Hfull|Hroom].
    + destruct (connections (pool w)) as [|[lru [old t]] rest] eqn:Hd.
      * split_inv; try assumption; constructor.
      * simpl in Hsize.
        inversion Hnd as [|? ? Hlru Hnd']. inversion Hrefs as [|? ? Hold Hrefs'].
        split_inv.
        -- assumption.
        -- pose proof (length_set rest (arg_serial a)
                         (List.length (objects w), current_time a)). lia.
        -- apply NoDup_keys_set. assumption.
        -- rewrite length_update, length_app. simpl.
           apply refs_below_set; [lia|].
           eapply refs_below_mono; [|eassumption]. lia.
    + split_inv.
      * assumption.
      * pose proof (length_set (connections (pool w)) (arg_serial a)
                      (List.length (objects w), current_time a)). lia.
      * apply NoDup_keys_set. assumption.
      * rewrite length_app. simpl.
        apply refs_below_set; [lia|].
        eapply refs_below_mono; [|eassumption]. lia.
Qed.

Lemma inv_step N w e : inv N w -> inv N (step w e).
Proof.
  intros H. destruct e as [a|c]; simpl.
  - apply inv_get_connection. assumption.
  - destruct H as (Hmax & Hsize & Hnd & Hrefs).
    split_inv; try assumption. rewrite length_update. assumption.
Qed.

Lemma inv_run N es : forall w, inv N w -> inv N (run w es).
Proof.
  induction es as [|e es IH]; intros w H; simpl.
  - assumption.
  - apply IH. apply inv_step. assumption.
Qed.

Lemma is_open_update_close h c : is_open (update h c close) c = false.
Proof.
  unfold is_open. rewrite nth_error_update_same.
  destruct (nth_error h c) as [conn|]; simpl; [|reflexivity].
  unfold close. destruct (_is_open conn) eqn:E; simpl; auto.
Qed.


Definition S1 : string := "d073d5000001".
Definition S2 : string := "d073d5000002".
Definition S3 : string := "d073d5000003".

Definition two_pooled : world :=
  run (create 2) [GetConnection (request_for S1);
                  GetConnection (request_for S2)].


End Pool.

(* ===================================================================== *)
(** * Python arithmetic on (idealised) floats *)

Module PyFloat.

Local Open Scope R_scope.

Definition Rleb (a b : R) : bool := if Rle_dec a b then true else false.
Definition Rltb (a b : R) : bool := if Rlt_dec a b then true else false.
Definition Reqb (a b : R) : bool := if Req_dec_T a b then true else false.

(** [math.floor] *)
Definition py_floor (x : R) : Z := Int_part x.

(** [int(x)]: truncation towards zero *)
Definition py_int (x : R) : Z :=
  if Rleb 0 x then py_floor x else (- py_floor (- x))%Z.

(** [round(x)]: to the nearest integer, ties to the even one *)
Definition py_round (x : R) : Z :=
  let f := py_floor x in
  let d := x - IZR f in
  if Rltb d (1 / 2) then f
  else if Rltb (1 / 2) d then (f + 1)%Z
  else if Z.even f then f else (f + 1)%Z.

(** [x % m] for a positive literal [m] *)
Definition float_mod (x m : R) : R := x - m * IZR (py_floor (x / m)).

(** [x / y] *)
Definition float_div (x y : R) : result R :=
  if Reqb y 0 then Raise ZeroDivisionError else Ok (x / y).

(** [a // b] and [a % b] on integers *)
Definition int_floordiv (a b : Z) : result Z :=
  if (b =? 0)%Z then Raise ZeroDivisionError else Ok (a / b)%Z.

Definition int_mod (a b : Z) : result Z :=
  if (b =? 0)%Z then Raise ZeroDivisionError else Ok (a mod b)%Z.

(** [x ** y] for a fractional exponent [y > 0].  A negative base gives a
    complex number in Python, on which the comparison inside the
    following [min] / [max] raises [TypeError]. *)
Definition float_pow (x y : R) : result R :=
  if Rltb 0 x then Ok (Rpower x y)
  else if Reqb x 0 then Ok 0
  else Raise TypeError.

(** [max(0.0, min(1.0, x))] *)
Definition clamp01 (x : R) : R := Rmax 0 (Rmin 1 x).

(** [xs[i]], negative indices counting from the end *)
Definition getitem {A : Type} (xs : list A) (i : Z) : result A :=
  let n := Z.of_nat (List.length xs) in
  let j := if (i <? 0)%Z then (n + i)%Z else i in
  if (j <? 0)%Z then Raise IndexError
  else match nth_error xs (Z.to_nat j) with
       | Some x => Ok x
       | None => Raise IndexError
       end.

(** [[x] * n] *)
Definition replicate {A : Type} (x : A) (n : Z) : list A :=
  repeat x (Z.to_nat n).

Definition Rsum (l : list R) : R := fold_right Rplus 0 l.

End PyFloat.

Import PyFloat.

(* ===================================================================== *)
(** * Colours and library constants *)

Module Color.

(** Modelled from the spec: the class HSBK of lifx.color is not among the
    modules embedded here; section 3 of the specification gives it as
    the tuple of hue, saturation, brightness and kelvin. *)
Record HSBK : Type := {
  hue : R;
  saturation : R;
  brightness : R;
  kelvin : Z
}.

(** The constants that the effects import from lifx.const and from
    lifx.color.Colors are parameters of the development. *)
Class LifxConst : Type := {
  KELVIN_NEUTRAL : Z;
  MIN_KELVIN : Z;
  MAX_KELVIN : Z;
  GREEN : HSBK
}.

End Color.

Import Color.

(* ===================================================================== *)
(** * src/lifx/effects/frame_effect.py *)

Module FrameEffects.

Local Open Scope R_scope.

Record FrameContext : Type := {
  elapsed_s : R;
  device_index : Z;
  pixel_count : Z;
  canvas_width : Z;
  canvas_height : Z
}.

Record FrameEffect : Type := {
  power_on : bool;
  _fps : R;
  _duration : option R
}.

(** [FrameEffect.__init__] (lines 77-103) *)
Definition init (power_on_ : bool) (fps : R) (duration : option R)
  : result FrameEffect :=
  if Rleb fps 0 then Raise ValueError
  else if match duration with
          | Some d => Rleb d 0
          | None => false
          end then Raise ValueError
  else Ok {| power_on := power_on_; _fps := fps; _duration := duration |}.

(** Modelled from the spec: what the frame loop reads of an [Animator]
    (lifx.animation.animator, section 4.5 of the specification). *)
Record Animator : Type := {
  animator_id : nat;
  animator_pixel_count : Z;
  animator_canvas_width : Z;
  animator_canvas_height : Z
}.

Section FrameLoop.

(** The protocol tuple of a colour, [HSBK.as_tuple], and the animator's
    [send_frame] belong to lifx.color and lifx.animation: parameters. *)
Variable protocol_color : Type.
Variable as_tuple : HSBK -> protocol_color.
Variable send_frame : Animator -> list protocol_color -> result unit.
Variable generate_frame : FrameContext -> result (list HSBK).

Definition context_for (elapsed : R) (idx : Z) (animator : Animator)
  : FrameContext :=
  {| elapsed_s := elapsed;
     device_index := idx;
     pixel_count := animator_pixel_count animator;
     canvas_width := animator_canvas_width animator;
     canvas_height := animator_canvas_height animator |}.

(** Lines 160-176: one pass over [enumerate(self._animators)].  The
    result is the list of the frames handed to [send_frame], in order,
    and the exception that interrupted the pass, if any. *)
Fixpoint send_frames (elapsed : R) (animators : list (Z * Animator))
  : list (Animator * list protocol_color) * result unit :=
  match animators with
  | [] => ([], Ok tt)
  | (idx, animator) :: rest =>
      let ctx := context_for elapsed idx animator in
      match generate_frame ctx with
      | Raise e => ([], Raise e)
      | Ok hsbk_frame =>
          let protocol_frame := map as_tuple hsbk_frame in
          match send_frame animator protocol_frame with
          | Raise e => ([(animator, protocol_frame)], Raise e)
          | Ok _ =>
              let (sent, outcome) := send_frames elapsed rest in
              ((animator, protocol_frame) :: sent, outcome)
          end
      end
  end.

(** What one iteration of [while not self._stop_event.is_set()] finds:
    the stop event, the clock, and the animators that the conductor has
    published on the effect by then. *)
Record frame_tick : Type := {
  stop_is_set : bool;           (* the loop condition *)
  frame_start : R;              (* [time.monotonic()], line 152 *)
  _animators : list Animator;   (* [self._animators] at line 160 *)
  frame_done : R;               (* [time.monotonic()], line 179 *)
  stopped_while_asleep : bool   (* [wait_for] returned before its timeout *)
}.

Inductive play_end : Type :=
| PlayReturned
| PlayRaised (e : exn)
| PlayRunning.

Fixpoint play_loop (self : FrameEffect) (frame_interval : R)
    (start_time : R) (env : list frame_tick)
  : list (Animator * list protocol_color) * play_end :=
  match env with
  | [] => ([], PlayRunning)
  | tick :: env' =>
      if stop_is_set tick then ([], PlayReturned)
      else
        let elapsed := frame_start tick - start_time in
        if match _duration self with
           | Some d => Rleb d elapsed
           | None => false
           end then ([], PlayReturned)
        else
          match send_frames elapsed (enumerate (_animators tick)) with
          | (sent, Raise e) => (sent, PlayRaised e)
          | (sent, Ok _) =>
              let frame_elapsed := frame_done tick - frame_start tick in
              let sleep_time := Rmax 0 (frame_interval - frame_elapsed) in
              if Rltb 0 sleep_time && stopped_while_asleep tick
              then (sent, PlayReturned)
              else
                let (more, outcome) :=
                  play_loop self frame_interval start_time env' in
                (sent ++ more, outcome)
          end
  end.

(** [FrameEffect.async_play] (lines 140-186) *)
Definition async_play (self : FrameEffect) (start_time : R)
    (env : list frame_tick)
  : list (Animator * list protocol_color) * play_end :=
  match float_div 1 (_fps self) with
  | Raise e => ([], PlayRaised e)
  | Ok frame_interval => play_loop self frame_interval start_time env
  end.

End FrameLoop.

End FrameEffects.

Import FrameEffects.

(* ===================================================================== *)
(** * src/lifx/effects/rainbow.py *)

Module EffectRainbow.

Local Open Scope R_scope.

Record t : Type := {
  base : FrameEffect;
  period : R;
  brightness : R;
  saturation : R;
  spread : R
}.

(** [EffectRainbow.__init__] (lines 52-88) *)
Definition init (power_on_ : bool) (period_ brightness_ saturation_ spread_ : R)
  : result t :=
  if Rleb period_ 0 then Raise ValueError
  else if negb (Rleb 0 brightness_ && Rleb brightness_ 1) then Raise ValueError
  else if negb (Rleb 0 saturation_ && Rleb saturation_ 1) then Raise ValueError
  else if negb (Rleb 0 spread_ && Rleb spread_ 360) then Raise ValueError
  else
    base_ <- FrameEffects.init power_on_ 20 None ;;
    Ok {| base := base_; period := period_; brightness := brightness_;
          saturation := saturation_; spread := spread_ |}.

(** [EffectRainbow.generate_frame] (lines 95-128) *)
Definition generate_frame `{LifxConst} (self : t) (ctx : FrameContext)
  : result (list HSBK) :=
  scrolled <- float_div (elapsed_s ctx) (period self) ;;
  let degrees_scrolled := scrolled * 360 in
  let device_offset :=
    float_mod (IZR (device_index ctx) * spread self) 360 in
  for_each
    (fun i : Z =>
       fraction <- float_div (IZR i) (IZR (pixel_count ctx)) ;;
       let pixel_offset := fraction * 360 in
       let hue_ :=
         py_round
           (float_mod (degrees_scrolled + device_offset + pixel_offset) 360) in
       Ok {| hue := IZR hue_;
             Color.saturation := saturation self;
             Color.brightness := brightness self;
             kelvin := KELVIN_NEUTRAL |})
    (range (pixel_count ctx)).

End EffectRainbow.

(* ===================================================================== *)
(** * src/lifx/effects/flame.py *)

Module EffectFlame.

Local Open Scope R_scope.

Record t : Type := {
  base : FrameEffect;
  intensity : R;
  speed : R;
  kelvin_min : Z;
  kelvin_max : Z;
  brightness : R
}.

(** [EffectFlame.__init__] (lines 50-93) *)
Definition init `{LifxConst} (power_on_ : bool) (intensity_ speed_ : R)
    (kelvin_min_ kelvin_max_ : Z) (brightness_ : R) : result t :=
  if negb (Rleb 0 intensity_ && Rleb intensity_ 1) then Raise ValueError
  else if Rleb speed_ 0 then Raise ValueError
  else if (kelvin_min_ <? MIN_KELVIN)%Z then Raise ValueError
  else if (kelvin_max_ >? MAX_KELVIN)%Z then Raise ValueError
  else if (kelvin_min_ >? kelvin_max_)%Z then Raise ValueError
  else if negb (Rleb 0 brightness_ && Rleb brightness_ 1) then Raise ValueError
  else
    base_ <- FrameEffects.init power_on_ 20 None ;;
    Ok {| base := base_; intensity := intensity_; speed := speed_;
          kelvin_min := kelvin_min_; kelvin_max := kelvin_max_;
          brightness := brightness_ |}.

(** [EffectFlame._flicker] (lines 100-116) *)
Definition _flicker (time seed : R) : R :=
  let v1 := sin (time * (37 / 10) + seed * (171 / 10)) * (1 / 2) + 1 / 2 in
  let v2 := sin (time * (73 / 10) + seed * (317 / 10)) * (1 / 4) + 1 / 2 in
  let v3 := sin (time * (131 / 10) + seed * (533 / 10)) * (1 / 8) + 1 / 2 in
  (v1 + v2 + v3) / 3.

(** The body of the loop of [generate_frame] (lines 135-168) *)
Definition pixel (self : t) (ctx : FrameContext) (i : Z) : result HSBK :=
  let time := elapsed_s ctx * speed self in
  let is_matrix := (canvas_height ctx >? 1)%Z in
  let kelvin_range := (kelvin_max self - kelvin_min self)%Z in
  let seed := IZR i / IZR (Z.max (pixel_count ctx) 1) in
  let flicker := _flicker time seed in
  let pixel_brightness :=
    brightness self * (1 - intensity self + intensity self * flicker) in
  pixel_brightness <-
    (if is_matrix then
       y <- int_floordiv i (canvas_width ctx) ;;
       ratio <- float_div (IZR y) (IZR (canvas_height ctx)) ;;
       falloff <- float_pow ratio (7 / 10) ;;
       let y_factor := 1 - falloff in
       Ok (pixel_brightness * y_factor)
     else Ok pixel_brightness) ;;
  let pixel_brightness := clamp01 pixel_brightness in
  let hue_ := py_round (flicker * 40) in
  let saturation_ := 85 / 100 + 15 / 100 * (1 - flicker) in
  let kelvin_ :=
    py_round (IZR (kelvin_min self) + flicker * IZR kelvin_range) in
  Ok {| hue := IZR hue_;
        saturation := saturation_;
        Color.brightness := pixel_brightness;
        kelvin := kelvin_ |}.

(** [EffectFlame.generate_frame] (lines 118-170) *)
Definition generate_frame (self : t) (ctx : FrameContext)
  : result (list HSBK) :=
  for_each (pixel self ctx) (range (pixel_count ctx)).

End EffectFlame.

(* ===================================================================== *)
(** * src/lifx/effects/aurora.py *)

Module EffectAurora.

Local Open Scope R_scope.

Definition _DEFAULT_PALETTE : list Z := [120; 160; 200; 260; 290]%Z.

Record t : Type := {
  base : FrameEffect;
  speed : R;
  brightness : R;
  _palette : list Z;
  spread : R
}.

(** [EffectAurora.__init__] (lines 50-92) *)
Definition init (power_on_ : bool) (speed_ brightness_ : R)
    (palette : option (list Z)) (spread_ : R) : result t :=
  if Rleb speed_ 0 then Raise ValueError
  else if negb (Rleb 0 brightness_ && Rleb brightness_ 1) then Raise ValueError
  else if negb (Rleb 0 spread_ && Rleb spread_ 360) then Raise ValueError
  else if match palette with
          | Some p =>
              (Z.of_nat (List.length p) <? 2)%Z
              || negb (forallb (fun h => (0 <=? h)%Z && (h <=? 360)%Z) p)
          | None => false
          end then Raise ValueError
  else
    base_ <- FrameEffects.init power_on_ 20 None ;;
    Ok {| base := base_; speed := speed_; brightness := brightness_;
          _palette := match palette with
                      | Some p => p
                      | None => _DEFAULT_PALETTE
                      end;
          spread := spread_ |}.

(** [EffectAurora._palette_hue] (lines 99-122) *)
Definition _palette_hue (self : t) (position : R) : result Z :=
  let n := Z.of_nat (List.length (_palette self)) in
  let scaled := position * IZR n in
  idx <- int_mod (py_int scaled) n ;;
  let frac := scaled - IZR (py_int scaled) in
  h1 <- getitem (_palette self) idx ;;
  next <- int_mod (idx + 1) n ;;
  h2 <- getitem (_palette self) next ;;
  let diff := (h2 - h1)%Z in
  let diff := if (diff >? 180)%Z then (diff - 360)%Z
              else if (diff <? -180)%Z then (diff + 360)%Z
              else diff in
  Ok (py_round (float_mod (IZR h1 + frac * IZR diff) 360)).

(** The body of the loop of [generate_frame] (lines 142-172) *)
Definition pixel `{LifxConst} (self : t) (ctx : FrameContext) (i : Z)
  : result HSBK :=
  let time := elapsed_s ctx * speed self * (5 / 100) in
  let device_offset := IZR (device_index ctx) * spread self / 360 in
  let is_matrix := (canvas_height ctx >? 1)%Z in
  let along := IZR i / IZR (Z.max (pixel_count ctx) 1) in
  let position := float_mod (along + time + device_offset) 1 in
  hue_ <- _palette_hue self position ;;
  let brightness_mod := 1 / 2 + 1 / 2 * sin (along * PI * 3 + time * 6) in
  let pixel_brightness := brightness self * brightness_mod in
  pixel_brightness <-
    (if is_matrix then
       y <- int_floordiv i (canvas_width ctx) ;;
       let y_norm := IZR y / IZR (Z.max (canvas_height ctx - 1) 1) in
       let y_factor := sin (y_norm * PI) in
       Ok (pixel_brightness * y_factor)
     else Ok pixel_brightness) ;;
  let pixel_brightness := clamp01 pixel_brightness in
  let saturation_ := 7 / 10 + 3 / 10 * sin (position * 2 * PI) in
  Ok {| hue := IZR hue_;
        saturation := saturation_;
        Color.brightness := pixel_brightness;
        kelvin := KELVIN_NEUTRAL |}.

(** [EffectAurora.generate_frame] (lines 124-174) *)
Definition generate_frame `{LifxConst} (self : t) (ctx : FrameContext)
  : result (list HSBK) :=
  for_each (pixel self ctx) (range (pixel_count ctx)).

End EffectAurora.

(* ===================================================================== *)
(** * src/lifx/effects/colorloop.py *)

Module EffectColorloop.

Local Open Scope R_scope.

Record t : Type := {
  base : FrameEffect;
  period : R;
  change : R;
  spread : R;
  brightness : option R;
  saturation_min : R;
  saturation_max : R;
  transition : option R;
  synchronized : bool;
  (** runtime state, set by [async_setup] *)
  _initial_colors : list HSBK;
  _direction : Z
}.

(** [EffectColorloop.__init__] (lines 62-137) *)
Definition init (power_on_ : bool) (period_ change_ spread_ : R)
    (brightness_ : option R) (saturation_min_ saturation_max_ : R)
    (transition_ : option R) (synchronized_ : bool) : result t :=
  if Rleb period_ 0 then Raise ValueError
  else if negb (Rleb 0 change_ && Rleb change_ 360) then Raise ValueError
  else if negb (Rleb 0 spread_ && Rleb spread_ 360) then Raise ValueError
  else if match brightness_ with
          | Some b => negb (Rleb 0 b && Rleb b 1)
          | None => false
          end then Raise ValueError
  else if negb (Rleb 0 saturation_min_ && Rleb saturation_min_ 1)
       then Raise ValueError
  else if negb (Rleb 0 saturation_max_ && Rleb saturation_max_ 1)
       then Raise ValueError
  else if Rltb saturation_max_ saturation_min_ then Raise ValueError
  else if match transition_ with
          | Some tr => Rltb tr 0
          | None => false
          end then Raise ValueError
  else
    let fps := if Rltb 0 change_ then Rmax 20 (360 / change_ / period_)
               else 20 in
    base_ <- FrameEffects.init power_on_ fps None ;;
    Ok {| base := base_; period := period_; change := change_;
          spread := spread_; brightness := brightness_;
          saturation_min := saturation_min_;
          saturation_max := saturation_max_;
          transition := transition_; synchronized := synchronized_;
          _initial_colors := []; _direction := 1 |}.

(** [EffectColorloop.async_setup] (lines 148-155): [colors] is what
    [_get_initial_colors] fetched, one colour per participant, and
    [direction] the outcome of [random.choice([1, -1])]. *)
Definition async_setup (self : t) (colors : list HSBK) (direction : Z) : t :=
  {| base := base self; period := period self; change := change self;
     spread := spread self; brightness := brightness self;
     saturation_min := saturation_min self;
     saturation_max := saturation_max self;
     transition := transition self; synchronized := synchronized self;
     _initial_colors := colors; _direction := direction |}.

(** [EffectColorloop._generate_synchronized_color] (lines 186-221) *)
Definition _generate_synchronized_color (self : t) (degrees_rotated : R)
  : result HSBK :=
  base_hue <-
    (match _initial_colors self with
     | [] => Ok 0
     | _ => c <- getitem (_initial_colors self) 0 ;; Ok (hue c)
     end) ;;
  let new_hue := py_round (float_mod (base_hue + degrees_rotated) 360) in
  let shared_saturation := (saturation_min self + saturation_max self) / 2 in
  let count := INR (List.length (_initial_colors self)) in
  shared_brightness <-
    (match brightness self with
     | Some b => Ok b
     | None =>
         float_div (Rsum (map Color.brightness (_initial_colors self))) count
     end) ;;
  mean_kelvin <-
    float_div (IZR (fold_right Z.add 0%Z (map kelvin (_initial_colors self))))
      count ;;
  let shared_kelvin := py_int mean_kelvin in
  Ok {| hue := IZR new_hue;
        saturation := shared_saturation;
        Color.brightness := shared_brightness;
        kelvin := shared_kelvin |}.

(** [EffectColorloop._generate_spread_color] (lines 223-259) *)
Definition _generate_spread_color (self : t) (degrees_rotated : R)
    (device_index_ : Z) : result HSBK :=
  let color_index :=
    Z.min device_index_ (Z.of_nat (List.length (_initial_colors self)) - 1) in
  initial <- getitem (_initial_colors self) color_index ;;
  let base_hue := hue initial in
  let device_spread_offset :=
    float_mod (IZR device_index_ * spread self) 360 in
  let new_hue :=
    py_round
      (float_mod (base_hue + degrees_rotated + device_spread_offset) 360) in
  let brightness_ := match brightness self with
                     | Some b => b
                     | None => Color.brightness initial
                     end in
  let saturation_ := (saturation_min self + saturation_max self) / 2 in
  Ok {| hue := IZR new_hue;
        saturation := saturation_;
        Color.brightness := brightness_;
        kelvin := kelvin initial |}.

(** [EffectColorloop.generate_frame] (lines 157-184) *)
Definition generate_frame (self : t) (ctx : FrameContext)
  : result (list HSBK) :=
  match _initial_colors self with
  | [] =>
      Ok (replicate {| hue := 0; saturation := 1;
                       Color.brightness := 8 / 10; kelvin := 3500 |}
            (pixel_count ctx))
  | _ =>
      turns <- float_div (elapsed_s ctx) (period self) ;;
      let degrees_rotated := turns * 360 * IZR (_direction self) in
      color <-
        (if synchronized self
         then _generate_synchronized_color self degrees_rotated
         else _generate_spread_color self degrees_rotated
                (device_index ctx)) ;;
      Ok (replicate color (pixel_count ctx))
  end.

End EffectColorloop.

(* ===================================================================== *)
(** * src/lifx/effects/progress.py *)

Module EffectProgress.

Local Open Scope R_scope.

Record t : Type := {
  base : FrameEffect;
  start_value : R;
  end_value : R;
  position : R;
  (** [HSBK | list[HSBK]] *)
  foreground : HSBK + list HSBK;
  background : HSBK;
  spot_brightness : R;
  spot_width : R;
  spot_speed : R
}.

(** [EffectProgress.__init__] (lines 64-129) *)
Definition init `{LifxConst} (power_on_ : bool)
    (start_value_ end_value_ position_ : R)
    (foreground_ : option (HSBK + list HSBK)) (background_ : option HSBK)
    (spot_brightness_ spot_width_ spot_speed_ : R) : result t :=
  if Rleb end_value_ start_value_ then Raise ValueError
  else if negb (Rleb start_value_ position_ && Rleb position_ end_value_)
       then Raise ValueError
  else if match foreground_ with
          | Some (inr stops) => (Z.of_nat (List.length stops) <? 2)%Z
          | _ => false
          end then Raise ValueError
  else if negb (Rleb 0 spot_brightness_ && Rleb spot_brightness_ 1)
       then Raise ValueError
  else if negb (Rleb 0 spot_width_ && Rleb spot_width_ 1)
       then Raise ValueError
  else if Rleb spot_speed_ 0 then Raise ValueError
  else
    base_ <- FrameEffects.init power_on_ 20 None ;;
    Ok {| base := base_;
          start_value := start_value_;
          end_value := end_value_;
          position := position_;
          foreground := match foreground_ with
                        | Some fg => fg
                        | None => inl GREEN
                        end;
          background := match background_ with
                        | Some bg => bg
                        | None => {| hue := 0; saturation := 0;
                                     brightness := 5 / 100;
                                     kelvin := 3500 |}
                        end;
          spot_brightness := spot_brightness_;
          spot_width := spot_width_;
          spot_speed := spot_speed_ |}.

(** [EffectProgress._gradient_color] (lines 136-171) *)
Definition _gradient_color (position_ : R) (stops : list HSBK)
  : result HSBK :=
  let position_ := clamp01 position_ in
  let n := (Z.of_nat (List.length stops) - 1)%Z in
  let scaled := position_ * IZR n in
  let idx := Z.min (py_int scaled) (n - 1) in
  let frac := scaled - IZR idx in
  c1 <- getitem stops idx ;;
  c2 <- getitem stops (idx + 1) ;;
  let hue_diff := hue c2 - hue c1 in
  let hue_diff := if Rltb 180 hue_diff then hue_diff - 360
                  else if Rltb hue_diff (-180) then hue_diff + 360
                  else hue_diff in
  let hue_ := float_mod (hue c1 + frac * hue_diff) 360 in
  Ok {| hue := IZR (py_round hue_);
        saturation := saturation c1 + frac * (saturation c2 - saturation c1);
        brightness := brightness c1 + frac * (brightness c2 - brightness c1);
        kelvin := py_round (IZR (kelvin c1)
                            + frac * IZR (kelvin c2 - kelvin c1)) |}.

(** [EffectProgress._foreground_at] (lines 173-188) *)
Definition _foreground_at (self : t) (position_ : R) : result HSBK :=
  match foreground self with
  | inr stops => _gradient_color position_ stops
  | inl color => Ok color
  end.

(** [EffectProgress.generate_frame] (lines 190-245) *)
Definition generate_frame (self : t) (ctx : FrameContext)
  : result (list HSBK) :=
  let value_range := end_value self - start_value self in
  let fill := if Rltb 0 value_range
              then (position self - start_value self) / value_range
              else 0 in
  let fill := clamp01 fill in
  let fill_end := py_round (fill * IZR (pixel_count ctx)) in
  let spot_pos :=
    if (fill_end >? 0)%Z
    then IZR fill_end
         * ((sin (elapsed_s ctx * spot_speed self * 2 * PI) + 1) / 2)
    else 0 in
  let spot_pixel_width :=
    if (fill_end >? 0)%Z then Rmax 1 (spot_width self * IZR fill_end)
    else 1 in
  for_each
    (fun i : Z =>
       if (i <? fill_end)%Z then
         let bar_pos := IZR i / IZR (Z.max (pixel_count ctx - 1) 1) in
         base_ <- _foreground_at self bar_pos ;;
         let dist := Rabs (IZR i - spot_pos) in
         let boost := exp (- ((dist / spot_pixel_width) ^ 2)) in
         let pixel_brightness :=
           brightness base_ + boost * (spot_brightness self - brightness base_) in
         let pixel_brightness := clamp01 pixel_brightness in
         Ok {| hue := hue base_;
               saturation := saturation base_;
               brightness := pixel_brightness;
               kelvin := kelvin base_ |}
       else Ok (background self))
    (range (pixel_count ctx)).

End EffectProgress.

(* ===================================================================== *)
(** * src/lifx/effects/sunrise.py *)

Module Sun.

Local Open Scope R_scope.

Definition _VALID_ORIGINS : list string := ["bottom"; "center"]%string.

(** The colour of one pixel before the radial adjustments: the five
    phases of lines 87-121, as (hue, saturation, brightness, kelvin). *)
Definition phase_color (pp pp_bright norm_dist brightness_ : R)
  : Z * R * R * Z :=
  if Rltb pp (2 / 10) then
    let phase := pp / (2 / 10) in
    (240%Z, 8 / 10, brightness_ * (2 / 100) * (1 + phase * 2), 1500%Z)
  else if Rltb pp (4 / 10) then
    let phase := (pp - 2 / 10) / (2 / 10) in
    (py_round (280 + phase * 60),
     7 / 10 + 2 / 10 * (1 - norm_dist),
     brightness_ * (6 / 100 + 14 / 100 * phase),
     py_round (1500 + phase * 500))
  else if Rltb pp (6 / 10) then
    let phase := (pp - 4 / 10) / (2 / 10) in
    (py_round (20 + phase * 20),
     8 / 10 - 2 / 10 * phase,
     brightness_ * pp_bright,
     py_round (2000 + phase * 1000))
  else if Rltb pp (8 / 10) then
    let phase := (pp - 6 / 10) / (2 / 10) in
    (py_round (50 + phase * 10),
     6 / 10 - 3 / 10 * phase,
     brightness_ * pp_bright,
     py_round (3000 + phase * 500))
  else
    let phase := (pp - 8 / 10) / (2 / 10) in
    (60%Z,
     Rmax (1 / 10) (3 / 10 - 2 / 10 * phase),
     brightness_ * pp_bright,
     py_round (3500 + phase * 500)).

(** The body of the loop of [_sun_frame] (lines 67-143) *)
Definition pixel (ctx : FrameContext) (progress brightness_ : R)
    (cx cy max_dist : R) (i : Z) : result HSBK :=
  let spread := 6 / 10 in
  x <- int_mod i (canvas_width ctx) ;;
  y <- int_floordiv i (canvas_width ctx) ;;
  let dx := IZR x - cx in
  let dy := IZR y - cy in
  let dist := sqrt (dx * dx + dy * dy) in
  let norm_dist := if Rltb 0 max_dist then dist / max_dist else 0 in
  let pp := progress * (1 + spread) - norm_dist * spread in
  let pp := clamp01 pp in
  pp_bright <- float_pow pp (22 / 10) ;;
  let '(hue_, saturation_, pixel_brightness, kelvin_) :=
    phase_color pp pp_bright norm_dist brightness_ in
  let proximity := Rmax 0 (1 - norm_dist * (15 / 10)) in
  let pixel_brightness := pixel_brightness * (1 / 2 + 1 / 2 * proximity) in
  let '(hue_, saturation_) :=
    if Rltb norm_dist (1 / 2) then
      let warmth := 1 - norm_dist * 2 in
      (Z.max 0 (hue_ - py_round (warmth * 20)),
       Rmin 1 (saturation_ + warmth * (2 / 10)))
    else (hue_, saturation_) in
  let pixel_brightness := clamp01 pixel_brightness in
  let hue_ := Z.max 0 (Z.min 360 hue_) in
  Ok {| hue := IZR hue_;
        saturation := saturation_;
        brightness := pixel_brightness;
        kelvin := kelvin_ |}.

(** [_sun_frame] (lines 24-145) *)
Definition _sun_frame (ctx : FrameContext) (progress brightness_ : R)
    (origin : string) : result (list HSBK) :=
  let progress := clamp01 progress in
  let cx := (IZR (canvas_width ctx) - 1) / 2 in
  let cy := if String.eqb origin "center"
            then (IZR (canvas_height ctx) - 1) / 2
            else IZR (canvas_height ctx) - 1 in
  let max_dist := if Rltb 0 cx || Rltb 0 cy
                  then sqrt (cx * cx + cy * cy) else 1 in
  for_each (pixel ctx progress brightness_ cx cy max_dist)
    (range (pixel_count ctx)).

End Sun.

Module EffectSunrise.

Local Open Scope R_scope.

Record t : Type := {
  base : FrameEffect;
  brightness : R;
  origin : string
}.

(** [EffectSunrise.__init__] (lines 176-206) *)
Definition init (power_on_ : bool) (duration brightness_ : R)
    (origin_ : string) : result t :=
  if Rleb duration 0 then Raise ValueError
  else if negb (Rleb 0 brightness_ && Rleb brightness_ 1) then Raise ValueError
  else if negb (existsb (String.eqb origin_) Sun._VALID_ORIGINS)
       then Raise ValueError
  else
    base_ <- FrameEffects.init power_on_ 20 (Some duration) ;;
    Ok {| base := base_; brightness := brightness_; origin := origin_ |}.

(** [EffectSunrise.generate_frame] (lines 218-230) *)
Definition generate_frame (self : t) (ctx : FrameContext)
  : result (list HSBK) :=
  let progress :=
    match _duration (base self) with
    | Some d => if Reqb d 0 then 1 else elapsed_s ctx / d
    | None => 1
    end in
  Sun._sun_frame ctx progress (brightness self) (origin self).

End EffectSunrise.

Module EffectSunset.

Local Open Scope R_scope.

Record t : Type := {
  base : FrameEffect;
  brightness : R;
  power_off : bool;
  origin : string
}.

(** [EffectSunset.__init__] (lines 308-341) *)
Definition init (power_on_ : bool) (duration brightness_ : R)
    (power_off_ : bool) (origin_ : string) : result t :=
  if Rleb duration 0 then Raise ValueError
  else if negb (Rleb 0 brightness_ && Rleb brightness_ 1) then Raise ValueError
  else if negb (existsb (String.eqb origin_) Sun._VALID_ORIGINS)
       then Raise ValueError
  else
    base_ <- FrameEffects.init power_on_ 20 (Some duration) ;;
    Ok {| base := base_; brightness := brightness_;
          power_off := power_off_; origin := origin_ |}.

(** [EffectSunset.generate_frame] (lines 353-365) *)
Definition generate_frame (self : t) (ctx : FrameContext)
  : result (list HSBK) :=
  let progress :=
    1 - match _duration (base self) with
        | Some d => if Reqb d 0 then 0 else elapsed_s ctx / d
        | None => 0
        end in
  Sun._sun_frame ctx progress (brightness self) (origin self).

End EffectSunset.

(* ===================================================================== *)
(** * The catalog of frame effects *)

Module Catalog.

Local Open Scope R_scope.

(** The frame effects of the catalog, as the classes of src/lifx/effects. *)
Inductive Effect : Type :=
| Rainbow (e : EffectRainbow.t)
| Flame (e : EffectFlame.t)
| Aurora (e : EffectAurora.t)
| Colorloop (e : EffectColorloop.t)
| Progress (e : EffectProgress.t)
| Sunrise (e : EffectSunrise.t)
| Sunset (e : EffectSunset.t).

(** Dispatch of [effect.generate_frame(ctx)] *)
Definition generate_frame `{LifxConst} (effect : Effect) (ctx : FrameContext)
  : result (list HSBK) :=
  match effect with
  | Rainbow e => EffectRainbow.generate_frame e ctx
  | Flame e => EffectFlame.generate_frame e ctx
  | Aurora e => EffectAurora.generate_frame e ctx
  | Colorloop e => EffectColorloop.generate_frame e ctx
  | Progress e => EffectProgress.generate_frame e ctx
  | Sunrise e => EffectSunrise.generate_frame e ctx
  | Sunset e => EffectSunset.generate_frame e ctx
  end.

(** An effect object as its constructor leaves it; for the colorloop,
    also as [async_setup] leaves it afterwards. *)
Inductive constructed `{LifxConst} : Effect -> Prop :=
| constructed_rainbow power_on_ period brightness saturation spread e :
    EffectRainbow.init power_on_ period brightness saturation spread = Ok e ->
    constructed (Rainbow e)
| constructed_flame power_on_ intensity speed kelvin_min kelvin_max
    brightness e :
    EffectFlame.init power_on_ intensity speed kelvin_min kelvin_max
      brightness = Ok e ->
    constructed (Flame e)
| constructed_aurora power_on_ speed brightness palette spread e :
    EffectAurora.init power_on_ speed brightness palette spread = Ok e ->
    constructed (Aurora e)
| constructed_colorloop power_on_ period change spread brightness
    saturation_min saturation_max transition synchronized e :
    EffectColorloop.init power_on_ period change spread brightness
      saturation_min saturation_max transition synchronized = Ok e ->
    constructed (Colorloop e)
| constructed_colorloop_setup e colors direction :
    constructed (Colorloop e) ->
    constructed (Colorloop (EffectColorloop.async_setup e colors direction))
| constructed_progress power_on_ start_value end_value position foreground
    background spot_brightness spot_width spot_speed e :
    EffectProgress.init power_on_ start_value end_value position foreground
      background spot_brightness spot_width spot_speed = Ok e ->
    constructed (Progress e)
| constructed_sunrise power_on_ duration brightness origin e :
    EffectSunrise.init power_on_ duration brightness origin = Ok e ->
    constructed (Sunrise e)
| constructed_sunset power_on_ duration brightness power_off origin e :
    EffectSunset.init power_on_ duration brightness power_off origin = Ok e ->
    constructed (Sunset e).






(** ** Facts about loops, indexing and idealised floats *)

(** Linear arithmetic over the reals (the rational version is the one in
    scope by default). *)
Ltac lra := Lra.lra.
Ltac nra := Lra.nra.

Lemma in_range (n i : Z) : In i (range n) <-> (0 <= i < n)%Z.
Proof.
  unfold range. rewrite in_map_iff. split.
  - intros (k & <- & Hk). apply in_seq in Hk. lia.
  - intros Hi. exists (Z.to_nat i). split; [lia|]. apply in_seq. lia.
Qed.

Lemma length_range (n : Z) : List.length (range n) = Z.to_nat n.
Proof. unfold range. rewrite length_map, length_seq. reflexivity. Qed.

Lemma for_each_length {A B : Type} (body : A -> result B) (xs : list A) :
  forall ys, for_each body xs = Ok ys -> List.length ys = List.length xs.
Proof.
  induction xs as [|x xs IH]; simpl; intros ys H.
  - injection H as <-. reflexivity.
  - destruct (body x) as [y|e]; simpl in H; [|discriminate].
    destruct (for_each body xs) as [ys'|e]; simpl in H; [|discriminate].
    injection H as <-. simpl. f_equal. apply IH. reflexivity.
Qed.

Lemma for_each_total {A B : Type} (body : A -> result B) (xs : list A) :
  (forall x, In x xs -> exists y, body x = Ok y) ->
  exists ys, for_each body xs = Ok ys.
Proof.
  induction xs as [|x xs IH]; simpl; intros Hbody.
  - eauto.
  - destruct (Hbody x (or_introl eq_refl)) as [y Hy]. rewrite Hy. simpl.
    destruct IH as [ys Hys]; [intros; apply Hbody; now right|].
    rewrite Hys. simpl. eauto.
Qed.

Lemma for_each_In {A B : Type} (body : A -> result B) (xs : list A) :
  forall ys y, for_each body xs = Ok ys -> In y ys ->
               exists x, In x xs /\ body x = Ok y.
Proof.
  induction xs as [|x xs IH]; simpl; intros ys y H Hin.
  - injection H as <-. contradiction.
  - destruct (body x) as [y0|e] eqn:Hx; simpl in H; [|discriminate].
    destruct (for_each body xs) as [ys'|e]; simpl in H; [|discriminate].
    injection H as <-. destruct Hin as [<-|Hin].
    + eauto.
    + destruct (IH ys' y eq_refl Hin) as (x' & Hx' & Hy). eauto.
Qed.

(** A loop over [range(pixel_count)] whose body never raises builds a
    frame of [pixel_count] pixels. *)
Lemma frame_of_pixels (body : Z -> result HSBK) (n : Z) :
  (forall i, (0 <= i < n)%Z -> exists c, body i = Ok c) ->
  exists frame, for_each body (range n) = Ok frame /\
                List.length frame = Z.to_nat n.
Proof.
  intros Hbody.
  destruct (for_each_total body (range n)) as [frame Hframe].
  { intros i Hi. apply Hbody. apply in_range. assumption. }
  exists frame. split; [assumption|].
  rewrite (for_each_length _ _ Hframe). apply length_range.
Qed.

Lemma Rleb_true a b : Rleb a b = true <-> a <= b.
Proof.
  unfold Rleb. destruct (Rle_dec a b); split; intros;
    try reflexivity; try congruence; lra.
Qed.

Lemma Rleb_false a b : Rleb a b = false <-> b < a.
Proof.
  unfold Rleb. destruct (Rle_dec a b); split; intros;
    try reflexivity; try congruence; lra.
Qed.

Lemma Rltb_true a b : Rltb a b = true <-> a < b.
Proof.
  unfold Rltb. destruct (Rlt_dec a b); split; intros;
    try reflexivity; try congruence; lra.
Qed.

Lemma Rltb_false a b : Rltb a b = false <-> b <= a.
Proof.
  unfold Rltb. destruct (Rlt_dec a b); split; intros;
    try reflexivity; try congruence; lra.
Qed.

Lemma Reqb_true a b : Reqb a b = true <-> a = b.
Proof.
  unfold Reqb. destruct (Req_dec_T a b); split; intros;
    try reflexivity; try congruence; lra.
Qed.

Lemma Reqb_false a b : Reqb a b = false <-> a <> b.
Proof.
  unfold Reqb. destruct (Req_dec_T a b); split; intros; congruence.
Qed.

(** Decide the comparisons of reals that appear in the goal. *)
Ltac decide_R :=
  unfold Rleb, Rltb, Reqb;
  repeat match goal with
         | |- context [Rle_dec ?a ?b] => destruct (Rle_dec a b); try lra
         | |- context [Rlt_dec ?a ?b] => destruct (Rlt_dec a b); try lra
         | |- context [Req_dec_T ?a ?b] => destruct (Req_dec_T a b); try lra
         end.

Lemma float_div_ok (x y : R) : y <> 0 -> float_div x y = Ok (x / y).
Proof.
  intros Hy. unfold float_div. apply Reqb_false in Hy. rewrite Hy.
  reflexivity.
Qed.

Lemma int_floordiv_ok (a b : Z) :
  (b <> 0)%Z -> int_floordiv a b = Ok (a / b)%Z.
Proof.
  intros Hb. unfold int_floordiv. apply Z.eqb_neq in Hb. rewrite Hb.
  reflexivity.
Qed.

Lemma int_mod_ok (a b : Z) : (b <> 0)%Z -> int_mod a b = Ok (a mod b)%Z.
Proof.
  intros Hb. unfold int_mod. apply Z.eqb_neq in Hb. rewrite Hb.
  reflexivity.
Qed.

Lemma float_pow_ok (x y : R) : 0 <= x -> exists p, float_pow x y = Ok p.
Proof.
  intros Hx. unfold float_pow.
  destruct (Rltb 0 x) eqn:Hlt; [eauto|].
  apply Rltb_false in Hlt. assert (Hz : x = 0) by lra.
  apply Reqb_true in Hz. rewrite Hz. eauto.
Qed.

Lemma getitem_ok {A : Type} (xs : list A) (i : Z) :
  (0 <= i < Z.of_nat (List.length xs))%Z -> exists x, getitem xs i = Ok x.
Proof.
  intros Hi. unfold getitem.
  destruct (Z.ltb_spec i 0) as [Hneg|_]; [lia|].
  destruct (Z.ltb_spec i 0) as [Hneg|_]; [lia|].
  destruct (nth_error xs (Z.to_nat i)) as [x|] eqn:Hnth; [eauto|].
  apply nth_error_None in Hnth. lia.
Qed.

Lemma IZR_nonzero (z : Z) : (z <> 0)%Z -> IZR z <> 0.
Proof. intros Hz H. apply Hz. apply eq_IZR. exact H. Qed.

Lemma clamp01_range (x : R) : 0 <= clamp01 x <= 1.
Proof.
  unfold clamp01. split.
  - apply Rmax_l.
  - apply Rmax_lub; [lra|apply Rmin_l].
Qed.

Lemma py_floor_nonneg (x : R) : 0 <= x -> (0 <= py_floor x)%Z.
Proof.
  intros Hx. unfold py_floor.
  destruct (base_Int_part x) as [_ Hlow].
  assert (H : -1 < IZR (Int_part x)) by lra.
  apply lt_IZR in H. lia.
Qed.

Lemma py_int_nonneg (x : R) : 0 <= x -> (0 <= py_int x)%Z.
Proof.
  intros Hx. unfold py_int. apply Rleb_true in Hx as Hb. rewrite Hb.
  apply py_floor_nonneg. assumption.
Qed.

Lemma length_replicate {A : Type} (x : A) (n : Z) :
  List.length (replicate x n) = Z.to_nat n.
Proof. unfold replicate. apply repeat_length. Qed.

(** ** What the constructors guarantee *)

(** Peel the validation steps off a hypothesis [init ... = Ok e]. *)
Ltac invert_init H :=
  repeat match type of H with
         | (if ?c then Raise _ else _) = Ok _ =>
             let E := fresh "Hcheck" in
             destruct c eqn:E; [discriminate H|]
         | bind ?m _ = Ok _ =>
             let E := fresh "Hbase" in
             destruct m eqn:E; simpl in H; [|discriminate H]
         end.

Lemma rainbow_constructed power_on_ period brightness saturation spread e :
  EffectRainbow.init power_on_ period brightness saturation spread = Ok e ->
  0 < EffectRainbow.period e.
Proof.
  intros H. unfold EffectRainbow.init in H. invert_init H.
  injection H as <-. simpl. apply Rleb_false. assumption.
Qed.

Lemma aurora_constructed power_on_ speed brightness palette spread e :
  EffectAurora.init power_on_ speed brightness palette spread = Ok e ->
  (2 <= Z.of_nat (List.length (EffectAurora._palette e)))%Z.
Proof.
  intros H. unfold EffectAurora.init in H. invert_init H.
  injection H as <-. simpl.
  destruct palette as [p|]; [|simpl; lia].
  apply orb_false_iff in Hcheck2. destruct Hcheck2 as [Hlen _].
  apply Z.ltb_ge in Hlen. assumption.
Qed.

Lemma colorloop_constructed `{LifxConst} e :
  constructed (Colorloop e) -> 0 < EffectColorloop.period e.
Proof.
  intros Hc. remember (Colorloop e) as effect eqn:Heq.
  revert e Heq.
  induction Hc as [| | | | e0 colors direction Hc IH | | |];
    intros e' Heq; try discriminate; injection Heq as <-.
  - match goal with
    | Hinit : EffectColorloop.init _ _ _ _ _ _ _ _ _ = Ok _ |- _ =>
        unfold EffectColorloop.init in Hinit; invert_init Hinit;
        injection Hinit as <-
    end.
    simpl. apply Rleb_false. assumption.
  - simpl. apply IH. reflexivity.
Qed.

Lemma progress_constructed `{LifxConst} power_on_ start_value end_value
    position foreground background spot_brightness spot_width spot_speed e :
  EffectProgress.init power_on_ start_value end_value position foreground
    background spot_brightness spot_width spot_speed = Ok e ->
  forall stops, EffectProgress.foreground e = inr stops ->
                (2 <= Z.of_nat (List.length stops))%Z.
Proof.
  intros Hinit stops Hfg. unfold EffectProgress.init in Hinit.
  invert_init Hinit. injection Hinit as <-. simpl in Hfg.
  destruct foreground as [[color|stops']|]; try discriminate.
  injection Hfg as ->. apply Z.ltb_ge in Hcheck1. assumption.
Qed.

(** ** The frames of the catalog *)

Section Frames.

Context `{LifxConst}.
Variable ctx : FrameContext.
Hypothesis pixels : (0 <= pixel_count ctx)%Z.
Hypothesis width : (1 <= canvas_width ctx)%Z.
Hypothesis height : (1 <= canvas_height ctx)%Z.

Definition full_frame (r : result (list HSBK)) : Prop :=
  exists frame, r = Ok frame /\
                List.length frame = Z.to_nat (pixel_count ctx).

Lemma rainbow_frame e :
  0 < EffectRainbow.period e ->
  full_frame (EffectRainbow.generate_frame e ctx).
Proof.
  intros Hperiod. unfold EffectRainbow.generate_frame.
  rewrite float_div_ok by lra. simpl.
  apply frame_of_pixels. intros i Hi.
  rewrite float_div_ok by (apply IZR_nonzero; lia). simpl. eauto.
Qed.

Lemma flame_frame e : full_frame (EffectFlame.generate_frame e ctx).
Proof.
  unfold EffectFlame.generate_frame. apply frame_of_pixels. intros i Hi.
  unfold EffectFlame.pixel.
  destruct (canvas_height ctx >? 1)%Z eqn:Hmatrix; simpl; [|eauto].
  rewrite int_floordiv_ok by lia. simpl.
  rewrite float_div_ok by (apply IZR_nonzero; lia). simpl.
  destruct (@float_pow_ok (IZR (i / canvas_width ctx)
                          / IZR (canvas_height ctx)) (7 / 10))
    as [p Hp].
  { apply Rmult_le_pos.
    - apply IZR_le. apply Z.div_pos; lia.
    - apply Rlt_le, Rinv_0_lt_compat. apply IZR_lt. lia. }
  rewrite Hp. simpl. eauto.
Qed.

Lemma aurora_frame e :
  (2 <= Z.of_nat (List.length (EffectAurora._palette e)))%Z ->
  full_frame (EffectAurora.generate_frame e ctx).
Proof.
  intros Hpalette. unfold EffectAurora.generate_frame.
  apply frame_of_pixels. intros i Hi. unfold EffectAurora.pixel.
  assert (Hhue : forall position,
             exists h, EffectAurora._palette_hue e position = Ok h).
  { intros position. unfold EffectAurora._palette_hue.
    set (n := Z.of_nat (List.length (EffectAurora._palette e))) in *.
    rewrite int_mod_ok by lia. simpl.
    destruct (@getitem_ok _ (EffectAurora._palette e)
                (py_int (position * IZR n) mod n)) as [h1 Hh1].
    { fold n. apply Z.mod_pos_bound. lia. }
    rewrite Hh1. simpl. rewrite int_mod_ok by lia. simpl.
    destruct (@getitem_ok _ (EffectAurora._palette e)
                ((py_int (position * IZR n) mod n + 1) mod n)) as [h2 Hh2].
    { fold n. apply Z.mod_pos_bound. lia. }
    rewrite Hh2. simpl. eauto. }
  match goal with
  | |- context [EffectAurora._palette_hue e ?position] =>
      destruct (Hhue position) as [h Hh]; rewrite Hh
  end.
  simpl.
  destruct (canvas_height ctx >? 1)%Z; simpl; [|eauto].
  rewrite int_floordiv_ok by lia. simpl. eauto.
Qed.

Lemma colorloop_frame e :
  0 < EffectColorloop.period e ->
  (0 <= device_index ctx)%Z ->
  full_frame (EffectColorloop.generate_frame e ctx).
Proof.
  intros Hperiod Hindex. unfold EffectColorloop.generate_frame.
  destruct (EffectColorloop._initial_colors e) as [|c0 colors] eqn:Hcolors.
  { eexists. split; [reflexivity|apply length_replicate]. }
  rewrite float_div_ok by lra. simpl.
  assert (Hcolor : forall degrees,
             exists color,
               (if EffectColorloop.synchronized e
                then EffectColorloop._generate_synchronized_color e degrees
                else EffectColorloop._generate_spread_color e degrees
                       (device_index ctx)) = Ok color).
  { intros degrees. destruct (EffectColorloop.synchronized e).
    - unfold EffectColorloop._generate_synchronized_color.
      rewrite Hcolors. simpl getitem. cbv beta iota. simpl bind at 1.
      assert (Hcount : INR (List.length (c0 :: colors)) <> 0).
      { apply not_0_INR. discriminate. }
      destruct (EffectColorloop.brightness e); simpl;
        rewrite ?float_div_ok by assumption; simpl;
        rewrite ?float_div_ok by assumption; simpl; eauto.
    - unfold EffectColorloop._generate_spread_color.
      rewrite Hcolors.
      destruct (@getitem_ok _ (c0 :: colors)
                  (Z.min (device_index ctx)
                     (Z.of_nat (List.length (c0 :: colors)) - 1)))
        as [c Hc].
      { simpl List.length. lia. }
      rewrite Hc. simpl. eauto. }
  match goal with
  | |- full_frame (bind (if _ then ?f e ?d else _) _) =>
      destruct (Hcolor d) as [color Hcol]; rewrite Hcol
  end.
  simpl. eexists. split; [reflexivity|apply length_replicate].
Qed.

Lemma progress_frame e :
  (forall stops, EffectProgress.foreground e = inr stops ->
                 (2 <= Z.of_nat (List.length stops))%Z) ->
  full_frame (EffectProgress.generate_frame e ctx).
Proof.
  intros Hstops. unfold EffectProgress.generate_frame.
  apply frame_of_pixels. intros i Hi.
  destruct (i <? _)%Z; [|eauto].
  unfold EffectProgress._foreground_at.
  destruct (EffectProgress.foreground e) as [color|stops] eqn:Hfg;
    simpl; [eauto|].
  specialize (Hstops stops eq_refl).
  unfold EffectProgress._gradient_color.
  set (n := (Z.of_nat (List.length stops) - 1)%Z).
  match goal with
  | |- context [Z.min (py_int ?scaled) (n - 1)] =>
      assert (Hscaled : (0 <= py_int scaled)%Z)
  end.
  { apply py_int_nonneg. apply Rmult_le_pos.
    - apply clamp01_range.
    - apply IZR_le. lia. }
  match goal with
  | |- context [getitem stops ?idx] =>
      destruct (@getitem_ok _ stops idx) as [c1 Hc1]; [lia|];
      destruct (@getitem_ok _ stops (idx + 1)) as [c2 Hc2]; [lia|]
  end.
  rewrite Hc1. simpl. rewrite Hc2. simpl. eauto.
Qed.

Lemma sun_frame progress brightness_ origin :
  full_frame (Sun._sun_frame ctx progress brightness_ origin).
Proof.
  unfold Sun._sun_frame. apply frame_of_pixels. intros i Hi.
  unfold Sun.pixel.
  rewrite int_mod_ok by lia. simpl.
  rewrite int_floordiv_ok by lia. simpl.
  match goal with
  | |- context [float_pow ?pp ?y] =>
      destruct (@float_pow_ok pp y) as [p Hp];
        [apply clamp01_range|rewrite Hp]
  end.
  simpl.
  destruct (Sun.phase_color _ _ _ _) as [[[h s] b] k].
  destruct (Rltb _ (1 / 2)); eauto.
Qed.

End Frames.

(** C8 (amended).  For every effect of the catalog (rainbow, flame,
    aurora, colorloop, progress, sunrise, sunset) as its constructor
    (and, for the colorloop, [async_setup]) leaves it, and every
    FrameContext with pixel_count >= 0, canvas_width >= 1,
    canvas_height >= 1 and device_index >= 0, [generate_frame] returns
    a list, and the length of the list is pixel_count. *)
Theorem catalog_frame_has_pixel_count `{LifxConst}
    (effect : Effect) (ctx : FrameContext) :
  constructed effect ->
  (0 <= pixel_count ctx)%Z ->
  (1 <= canvas_width ctx)%Z ->
  (1 <= canvas_height ctx)%Z ->
  (0 <= device_index ctx)%Z ->
  exists frame,
    generate_frame effect ctx = Ok frame /\
    Z.of_nat (List.length frame) = pixel_count ctx.
Proof.
  intros Hc Hpixels Hwidth Hheight Hindex.
  assert (Hfull : full_frame ctx (generate_frame effect ctx)).
  { destruct effect as [e|e|e|e|e|e|e]; simpl.
    - inversion Hc; subst. apply rainbow_frame; try assumption.
      eapply rainbow_constructed. eassumption.
    - apply flame_frame; assumption.
    - inversion Hc; subst. apply aurora_frame; try assumption.
      eapply aurora_constructed. eassumption.
    - apply colorloop_frame; try assumption.
      apply colorloop_constructed. assumption.
    - inversion Hc; subst. apply progress_frame; try assumption.
      eapply progress_constructed. eassumption.
    - apply sun_frame; assumption.
    - apply sun_frame; assumption. }
  destruct Hfull as (frame & Hframe & Hlen).
  exists frame. split; [assumption|]. rewrite Hlen. lia.
Qed.

(** Sample values for the constants (the kelvin range is that of the
    specification's HSBK, 1500-9000 K). *)
Definition lifx_const : LifxConst :=
  {| KELVIN_NEUTRAL := 3500;
     MIN_KELVIN := 1500;
     MAX_KELVIN := 9000;
     GREEN := {| hue := 120; saturation := 1; brightness := 1;
                 kelvin := 3500 |} |}.

(** [EffectRainbow(period=10, brightness=0.8)] *)
Definition rainbow10 : EffectRainbow.t :=
  {| EffectRainbow.base := {| power_on := true; _fps := 20;
                              _duration := None |};
     EffectRainbow.period := 10;
     EffectRainbow.brightness := 8 / 10;
     EffectRainbow.saturation := 1;
     EffectRainbow.spread := 0 |}.

Lemma rainbow10_constructed :
  EffectRainbow.init true 10 (8 / 10) 1 0 = Ok rainbow10.
Proof.
  unfold EffectRainbow.init, FrameEffects.init. decide_R. reflexivity.
Qed.

(** A 16-zone strip, five seconds into the effect. *)
Definition strip16 : FrameContext :=
  {| elapsed_s := 5; device_index := 0; pixel_count := 16;
     canvas_width := 16; canvas_height := 1 |}.

Lemma catalog_frame_has_pixel_count_witness :
  exists frame,
    generate_frame (H := lifx_const) (Rainbow rainbow10) strip16 = Ok frame /\
    Z.of_nat (List.length frame) = 16%Z.
Proof.
  apply (@catalog_frame_has_pixel_count lifx_const (Rainbow rainbow10)
           strip16).
  - eapply constructed_rainbow. apply rainbow10_constructed.
  - simpl. lia.
  - simpl. lia.
  - simpl. lia.
  - simpl. lia.
Defined.

(** [EffectColorloop()] after [async_setup] on two lights. *)
Definition colorloop_fresh : EffectColorloop.t :=
  {| EffectColorloop.base := {| power_on := true;
                                _fps := Rmax 20 (360 / 20 / 60);
                                _duration := None |};
     EffectColorloop.period := 60;
     EffectColorloop.change := 20;
     EffectColorloop.spread := 30;
     EffectColorloop.brightness := None;
     EffectColorloop.saturation_min := 8 / 10;
     EffectColorloop.saturation_max := 1;
     EffectColorloop.transition := None;
     EffectColorloop.synchronized := false;
     EffectColorloop._initial_colors := [];
     EffectColorloop._direction := 1 |}.

Definition warm_white : HSBK :=
  {| hue := 0; saturation := 0; brightness := 8 / 10; kelvin := 2700 |}.

Definition colorloop_on_two : EffectColorloop.t :=
  EffectColorloop.async_setup colorloop_fresh [warm_white; warm_white] 1.

Lemma colorloop_fresh_constructed :
  EffectColorloop.init true 60 20 30 None (8 / 10) 1 None false
  = Ok colorloop_fresh.
Proof.
  unfold EffectColorloop.init, FrameEffects.init.
  assert (Hchange : Rltb 0 20 = true) by (apply Rltb_true; lra).
  assert (Hfps : Rleb (Rmax 20 (360 / 20 / 60)) 0 = false).
  { apply Rleb_false. apply Rlt_le_trans with 20; [lra|apply Rmax_l]. }
  rewrite Hchange, Hfps. decide_R. reflexivity.
Qed.

(** C8 as stated fails where device_index is not constrained: the
    colorloop indexes its initial colours with
    [min(device_index, len - 1)], so a context with device_index = -3 on
    a colorloop set up on two lights raises [IndexError] although
    pixel_count >= 0 and the canvas is 1 x 1. *)
Lemma colorloop_frame_needs_device_index :
  let ctx := {| elapsed_s := 0; device_index := -3; pixel_count := 1;
                canvas_width := 1; canvas_height := 1 |} in
  constructed (H := lifx_const) (Colorloop colorloop_on_two) /\
  (0 <= pixel_count ctx)%Z /\
  (1 <= canvas_width ctx)%Z /\
  (1 <= canvas_height ctx)%Z /\
  generate_frame (H := lifx_const) (Colorloop colorloop_on_two) ctx
  = Raise IndexError.
Proof.
  cbv zeta. split; [|split; [|split; [|split]]]; try (simpl; lia).
  - apply constructed_colorloop_setup.
    eapply constructed_colorloop. apply colorloop_fresh_constructed.
  - simpl. unfold EffectColorloop.generate_frame. simpl.
    rewrite float_div_ok by lra. simpl. reflexivity.
Qed.

(** ** Validation in the constructors *)

Lemma within_check (lo hi x : R) :
  negb (Rleb lo x && Rleb x hi) = false -> lo <= x <= hi.
Proof.
  intros H. apply negb_false_iff, andb_true_iff in H.
  destruct H as [Hlo Hhi]. apply Rleb_true in Hlo, Hhi. lra.
Qed.

(** Walk down the chain of checks; what is left is the case in which
    every check passed. *)
Ltac pass_checks :=
  repeat match goal with
         | |- (if ?c then Raise ValueError else _) = Raise ValueError =>
             let E := fresh "Hpass" in
             destruct c eqn:E; [reflexivity|]
         end;
  exfalso;
  repeat match goal with
         | E : negb (Rleb _ _ && Rleb _ _) = false |- _ =>
             apply within_check in E
         | E : Rleb _ _ = false |- _ => apply Rleb_false in E
         | E : (_ >? _)%Z = false |- _ =>
             rewrite Z.gtb_ltb in E; apply Z.ltb_ge in E
         | E : (_ <? _)%Z = false |- _ => apply Z.ltb_ge in E
         end.

(** C10.  The constructors validate their parameters and raise
    [ValueError], returning no effect: [FrameEffect] for fps <= 0 and
    for a duration that is given and <= 0; [EffectRainbow] for
    period <= 0, brightness or saturation outside [0, 1] and spread
    outside [0, 360]; [EffectFlame] for intensity outside [0, 1],
    speed <= 0, kelvin_min > kelvin_max and brightness outside [0, 1]. *)
Theorem constructors_reject_bad_parameters `{LifxConst} :
  (forall power_on_ fps duration,
      fps <= 0 \/ (exists d, duration = Some d /\ d <= 0) ->
      FrameEffects.init power_on_ fps duration = Raise ValueError) /\
  (forall power_on_ period brightness_ saturation_ spread,
      period <= 0 \/ ~ (0 <= brightness_ <= 1) \/
      ~ (0 <= saturation_ <= 1) \/ ~ (0 <= spread <= 360) ->
      EffectRainbow.init power_on_ period brightness_ saturation_ spread
      = Raise ValueError) /\
  (forall power_on_ intensity speed kelvin_min kelvin_max brightness_,
      ~ (0 <= intensity <= 1) \/ speed <= 0 \/
      (kelvin_min > kelvin_max)%Z \/ ~ (0 <= brightness_ <= 1) ->
      EffectFlame.init power_on_ intensity speed kelvin_min kelvin_max
        brightness_ = Raise ValueError).
Proof.
  split; [|split].
  - intros power_on_ fps duration Hbad. unfold FrameEffects.init.
    destruct Hbad as [Hfps|(d & -> & Hd)].
    + apply Rleb_true in Hfps. rewrite Hfps. reflexivity.
    + apply Rleb_true in Hd. rewrite Hd.
      destruct (Rleb fps 0); reflexivity.
  - intros power_on_ period brightness_ saturation_ spread Hbad.
    unfold EffectRainbow.init. pass_checks.
    destruct Hbad as [Hbad|[Hbad|[Hbad|Hbad]]]; lra.
  - intros power_on_ intensity speed kelvin_min kelvin_max brightness_ Hbad.
    unfold EffectFlame.init. pass_checks.
    destruct Hbad as [Hbad|[Hbad|[Hbad|Hbad]]]; try lra. lia.
Qed.

Lemma constructors_reject_bad_parameters_witness :
  FrameEffects.init true 0 None = Raise ValueError /\
  FrameEffects.init true 30 (Some (-1)) = Raise ValueError /\
  EffectRainbow.init true 10 (8 / 10) 2 0 = Raise ValueError /\
  EffectFlame.init (H := lifx_const) true (7 / 10) 1 3000 2000 (8 / 10)
  = Raise ValueError.
Proof.
  destruct (@constructors_reject_bad_parameters lifx_const)
    as (Hframe & Hrainbow & Hflame).
  split; [|split; [|split]].
  - apply Hframe. left. lra.
  - apply Hframe. right. exists (-1). split; [reflexivity|lra].
  - apply Hrainbow. right. right. left. lra.
  - apply Hflame. right. right. left. lia.
Defined.

(** ** The frame loop *)




Definition bulb_animator : Animator :=
  {| animator_id := 0; animator_pixel_count := 1;
     animator_canvas_width := 1; animator_canvas_height := 1 |}.



(** A generator that keeps the contract, and one that raises. *)
Definition solid (ctx : FrameContext) : result (list HSBK) :=
  Ok (replicate warm_white (pixel_count ctx)).


Definition accept (a : Animator) (frame : list HSBK) : result unit := Ok tt.




(** ** Flame: intensity and the variation of brightness *)















Lemma clamp01_id (x : R) : 0 <= x <= 1 -> clamp01 x = x.
Proof.
  intros Hx. unfold clamp01.
  rewrite Rmin_right by lra. apply Rmax_right. lra.
Qed.





End Catalog.

(* ===================================================================== *)
(** * src/lifx/effects/conductor.py *)

Module Models.

(** Modelled from the spec: lifx/effects/models.py is not among the
    modules embedded here; section 3 of the specification gives PreState
    as {power, color, zone_colors} and RunningEffect as {effect,
    prestate, task}.  Effects and tasks are objects, held by reference. *)
Record PreState : Type := {
  power : bool;
  color : HSBK;
  zone_colors : option (list HSBK)
}.

Record RunningEffect : Type := {
  effect : nat;
  prestate : PreState;
  task : nat
}.

End Models.

Module ConductorModel.

Import Models.

(** The classes that [_create_animators] tells apart with [isinstance]. *)
Inductive device_class : Type :=
| PlainLight
| MultiZoneLight
| MatrixLight.

(** Modelled from the spec: what the conductor reads of a [Light]
    (lifx.devices.light): its serial, its class and the capability bits
    of section 4.9 of the specification. *)
Record Light : Type := {
  light_id : nat;
  serial : string;
  device : device_class;
  has_color : bool;
  has_multizone : bool;
  has_matrix : bool
}.

(** Modelled from the spec: an effect object (lifx.effects.base.LIFXEffect
    and its subclasses, section 4.9 of the specification), as far as the
    conductor touches it. *)
Record EffectObject : Type := {
  class_name : string;
  (** [Some fps] for an instance of [FrameEffect] *)
  frame_fps : option R;
  is_light_compatible : Light -> bool;
  (** [inherit_prestate(other)], a test on the class of [other] *)
  inherit_prestate : string -> bool;
  participants : list Light;
  _animators : list Animator;
  (** [effect.conductor] has been set *)
  has_conductor : bool
}.

Inductive task_state : Type :=
| Running
| Cancelled
| Done.

(** The conductor with the objects it refers to.  [_running] is the
    dictionary of the source; effects and tasks live in heaps and are
    identified by their index ([is] is equality of indices).
    [restored] and [closed] record the calls of
    [DeviceStateManager.restore_state] and of [Animator.close]. *)
Record Conductor : Type := {
  _running : dict RunningEffect;
  effects : list EffectObject;
  tasks : list task_state;
  restored : list (Light * PreState);
  closed : list Animator
}.

Definition with_running (self : Conductor) (d : dict RunningEffect)
  : Conductor :=
  {| _running := d; effects := effects self; tasks := tasks self;
     restored := restored self; closed := closed self |}.

Definition with_effects (self : Conductor) (h : list EffectObject)
  : Conductor :=
  {| _running := _running self; effects := h; tasks := tasks self;
     restored := restored self; closed := closed self |}.

Definition with_tasks (self : Conductor) (h : list task_state) : Conductor :=
  {| _running := _running self; effects := effects self; tasks := h;
     restored := restored self; closed := closed self |}.

Fixpoint modify {A : Type} (h : list A) (i : nat) (f : A -> A) : list A :=
  match h, i with
  | [], _ => []
  | x :: h', O => f x :: h'
  | x :: h', S i' => x :: modify h' i' f
  end.

Definition set_participants (ps : list Light) (o : EffectObject)
  : EffectObject :=
  {| class_name := class_name o; frame_fps := frame_fps o;
     is_light_compatible := is_light_compatible o;
     inherit_prestate := inherit_prestate o;
     participants := ps; _animators := _animators o;
     has_conductor := has_conductor o |}.

Definition set_animators (anims : list Animator) (o : EffectObject)
  : EffectObject :=
  {| class_name := class_name o; frame_fps := frame_fps o;
     is_light_compatible := is_light_compatible o;
     inherit_prestate := inherit_prestate o;
     participants := participants o; _animators := anims;
     has_conductor := has_conductor o |}.

Definition set_conductor (o : EffectObject) : EffectObject :=
  {| class_name := class_name o; frame_fps := frame_fps o;
     is_light_compatible := is_light_compatible o;
     inherit_prestate := inherit_prestate o;
     participants := participants o; _animators := _animators o;
     has_conductor := true |}.

(** [Conductor.effect] (lines 61-78) *)
Definition effect (self : Conductor) (light : Light) : option nat :=
  match get (_running self) (serial light) with
  | Some running => Some (Models.effect running)
  | None => None
  end.

(** [effect.participants] of the effect object [e] *)
Definition participants_of (self : Conductor) (e : nat) : list Light :=
  match nth_error (effects self) e with
  | Some o => participants o
  | None => []
  end.

(** [Conductor._filter_compatible_lights] (lines 612-656) *)
Definition _filter_compatible_lights (o : EffectObject)
    (lights : list Light) : list Light :=
  filter (is_light_compatible o) lights.

Section Operations.

(** The device state manager, the animator factories and the effect's
    [async_setup] talk to the devices: their outcomes are parameters. *)
Variable capture_state : Light -> result PreState.
Variable restore_state : Light -> PreState -> result unit.
Variable make_animator : Light -> Z -> result Animator.
Variable async_setup : nat -> list Light -> result unit.

(** [Conductor._create_animators] (lines 658-688) *)
Definition _create_animators (fps : R) (lights : list Light)
  : result (list Animator) :=
  per_frame <- float_div 1500 fps ;;
  let duration_ms := py_int per_frame in
  for_each (fun light => make_animator light duration_ms) lights.

(** [dict(zip(serials, captured))] and the stores into [prestates] *)
Definition store_all (d : dict PreState) (entries : list (string * PreState))
  : dict PreState :=
  fold_left (fun d entry => set d (fst entry) (snd entry)) entries d.

(** The loops that store [RunningEffect(effect, prestates[serial], task)]
    (lines 241-247 and 400-405) *)
Fixpoint register (d : dict RunningEffect) (prestates : dict PreState)
    (e t : nat) (lights : list Light) : result (dict RunningEffect) :=
  match lights with
  | [] => Ok d
  | light :: lights' =>
      match get prestates (serial light) with
      | None => Raise KeyError
      | Some p =>
          register (set d (serial light)
                      {| Models.effect := e; prestate := p; task := t |})
            prestates e t lights'
      end
  end.

(** [Conductor.start] (lines 113-247) *)
Definition start (e : nat) (lights : list Light) (self : Conductor)
  : result unit * Conductor :=
  match nth_error (effects self) e with
  | None => (Raise TypeError, self)
  | Some o =>
      let filtered_participants := _filter_compatible_lights o lights in
      match filtered_participants with
      | [] => (Ok tt, self)
      | _ =>
          let self := with_effects self (modify (effects self) e set_conductor) in
          (* prestates inherited from a running effect, and the lights
             whose state must be captured *)
          let inherited :=
            flat_map
              (fun light =>
                 match get (_running self) (serial light) with
                 | Some current =>
                     match nth_error (effects self) (Models.effect current) with
                     | Some other =>
                         if inherit_prestate o (class_name other)
                         then [(serial light, prestate current)] else []
                     | None => []
                     end
                 | None => []
                 end)
              filtered_participants in
          let lights_needing_capture :=
            filter
              (fun light =>
                 match get (_running self) (serial light) with
                 | Some current =>
                     match nth_error (effects self) (Models.effect current) with
                     | Some other =>
                         negb (inherit_prestate o (class_name other))
                     | None => true
                     end
                 | None => true
                 end)
              filtered_participants in
          match for_each
                  (fun light =>
                     p <- capture_state light ;; Ok (serial light, p))
                  lights_needing_capture with
          | Raise ex => (Raise ex, self)
          | Ok captured =>
              let prestates := store_all (store_all [] inherited) captured in
              let published :=
                match frame_fps o with
                | Some fps =>
                    let self :=
                      with_effects self
                        (modify (effects self) e
                           (set_participants filtered_participants)) in
                    match _create_animators fps filtered_participants with
                    | Raise ex => (Raise ex, self)
                    | Ok animators =>
                        let self :=
                          with_effects self
                            (modify (effects self) e
                               (set_animators animators)) in
                        match async_setup e filtered_participants with
                        | Raise ex => (Raise ex, self)
                        | Ok _ => (Ok tt, self)
                        end
                    end
                | None => (Ok tt, self)
                end in
              match published with
              | (Raise ex, self) => (Raise ex, self)
              | (Ok _, self) =>
                  (* [asyncio.create_task] *)
                  let t := List.length (tasks self) in
                  let self := with_tasks self (tasks self ++ [Running]) in
                  match register (_running self) prestates e t
                          filtered_participants with
                  | Raise ex => (Raise ex, self)
                  | Ok d => (Ok tt, with_running self d)
                  end
              end
          end
      end
  end.

(** [FrameEffect.close_animators] on the effect object [e] *)
Definition close_animators (e : nat) (self : Conductor) : Conductor :=
  match nth_error (effects self) e with
  | None => self
  | Some o =>
      {| _running := _running self;
         effects := modify (effects self) e (set_animators []);
         tasks := tasks self;
         restored := restored self;
         closed := closed self ++ _animators o |}
  end.

(** Lines 294-301: close the animators of the frame effects, once per
    effect.  [closed_effects] is the set of the effects already closed. *)
Fixpoint close_frame_effects (lights : list Light) (closed_effects : list nat)
    (self : Conductor) : Conductor :=
  match lights with
  | [] => self
  | light :: lights' =>
      match get (_running self) (serial light) with
      | Some running =>
          let e := Models.effect running in
          match nth_error (effects self) e with
          | Some o =>
              match frame_fps o with
              | Some _ =>
                  if existsb (Nat.eqb e) closed_effects
                  then close_frame_effects lights' closed_effects self
                  else close_frame_effects lights' (e :: closed_effects)
                         (close_animators e self)
              | None => close_frame_effects lights' closed_effects self
              end
          | None => close_frame_effects lights' closed_effects self
          end
      | None => close_frame_effects lights' closed_effects self
      end
  end.

(** [task.cancel()] unless [task.done()] *)
Definition cancel (t : task_state) : task_state :=
  match t with
  | Running => Cancelled
  | other => other
  end.

Definition cancel_all (ts : list nat) (self : Conductor) : Conductor :=
  with_tasks self (fold_left (fun h t => modify h t cancel) ts (tasks self)).

(** Lines 322-326: remove the lights from the running registry. *)
Definition unregister (lights : list Light) (d : dict RunningEffect)
  : dict RunningEffect :=
  fold_left
    (fun d light => if contains d (serial light) then del d (serial light)
                    else d)
    lights d.

(** [Conductor.stop] (lines 249-326).  Between its two critical
    sections [stop] waits for the cancelled tasks without holding the
    lock; [meanwhile] is whatever the other coroutines do to the
    conductor during that wait. *)
Definition stop (meanwhile : Conductor -> Conductor) (lights : list Light)
    (self : Conductor) : result unit * Conductor :=
  (* first critical section *)
  let lights_to_restore :=
    flat_map
      (fun light =>
         match get (_running self) (serial light) with
         | Some running => [(light, prestate running)]
         | None => []
         end)
      lights in
  let tasks_to_cancel :=
    nodup Nat.eq_dec
      (flat_map
         (fun light =>
            match get (_running self) (serial light) with
            | Some running => [task running]
            | None => []
            end)
         lights) in
  let self := close_frame_effects lights [] self in
  let self := cancel_all tasks_to_cancel self in
  (* the wait for the cancelled tasks, outside the lock *)
  let self := meanwhile self in
  (* second critical section *)
  let self :=
    {| _running := _running self; effects := effects self;
       tasks := tasks self;
       restored := restored self ++ lights_to_restore;
       closed := closed self |} in
  match for_each (fun entry => restore_state (fst entry) (snd entry))
          lights_to_restore with
  | Raise ex => (Raise ex, self)
  | Ok _ => (Ok tt, with_running self (unregister lights (_running self)))
  end.

(** Lines 362-367: the task of the first entry of the registry whose
    effect is [e]. *)
Fixpoint task_of (d : dict RunningEffect) (e : nat) : option nat :=
  match d with
  | [] => None
  | (_, running) :: d' =>
      if Nat.eqb (Models.effect running) e then Some (task running)
      else task_of d' e
  end.

(** The registry has [k] running the effect [e]. *)
Definition runs (d : dict RunningEffect) (e : nat) (k : string) : bool :=
  match get d k with
  | Some running => Nat.eqb (Models.effect running) e
  | None => false
  end.

(** [Conductor.add_lights] (lines 328-417) *)
Definition add_lights (e : nat) (lights : list Light) (self : Conductor)
  : result unit * Conductor :=
  match nth_error (effects self) e with
  | None => (Raise TypeError, self)
  | Some o =>
      let compatible := _filter_compatible_lights o lights in
      match compatible with
      | [] => (Ok tt, self)
      | _ =>
          let new_lights :=
            filter (fun light => negb (runs (_running self) e (serial light)))
              compatible in
          match new_lights with
          | [] => (Ok tt, self)
          | _ =>
              match task_of (_running self) e with
              | None => (Ok tt, self)
              | Some t =>
                  match for_each capture_state new_lights with
                  | Raise ex => (Raise ex, self)
                  | Ok captured =>
                      let prestates :=
                        store_all []
                          (combine (map serial new_lights) captured) in
                      let extended :=
                        match frame_fps o with
                        | Some fps =>
                            match _create_animators fps new_lights with
                            | Raise ex => (Raise ex, self)
                            | Ok new_animators =>
                                (Ok tt,
                                 with_effects self
                                   (modify (effects self) e
                                      (fun o =>
                                         set_animators
                                           (_animators o ++ new_animators)
                                           o)))
                            end
                        | None => (Ok tt, self)
                        end in
                      match extended with
                      | (Raise ex, self) => (Raise ex, self)
                      | (Ok _, self) =>
                          let self :=
                            with_effects self
                              (modify (effects self) e
                                 (fun o =>
                                    set_participants
                                      (participants o ++ new_lights) o)) in
                          match register (_running self) prestates e t
                                  new_lights with
                          | Raise ex => (Raise ex, self)
                          | Ok d => (Ok tt, with_running self d)
                          end
                      end
                  end
              end
          end
      end
  end.

End Operations.

(** ** Facts about [stop] *)

Import DictFacts.

Lemma unregister_absent (lights : list Light) :
  forall (d : dict RunningEffect) (k : string),
    get d k = None -> get (unregister lights d) k = None.
Proof.
  unfold unregister.
  induction lights as [|light lights IH]; intros d k Hk; simpl.
  - assumption.
  - apply IH. destruct (contains d (serial light)); [|assumption].
    destruct (string_dec k (serial light)) as [->|Hne].
    + apply get_del_same.
    + rewrite get_del_other by assumption. assumption.
Qed.

Lemma unregister_clears (lights : list Light) :
  forall (d : dict RunningEffect) (light : Light),
    In light lights -> get (unregister lights d) (serial light) = None.
Proof.
  induction lights as [|first lights IH]; intros d light Hin.
  - contradiction.
  - destruct Hin as [->|Hin].
    + change (unregister (light :: lights) d)
        with (unregister lights
                (if contains d (serial light) then del d (serial light)
                 else d)).
      apply unregister_absent.
      unfold contains. destruct (get d (serial light)) eqn:Hget.
      * apply get_del_same.
      * assumption.
    + apply (IH _ light Hin).
Qed.

(** C4.  After [stop(lights)] has returned, [effect(s)] is [None] for
    every light s of [lights], whatever was running when [stop] was
    called and whatever other coroutines did to the conductor while
    [stop] waited for the cancelled tasks; and [stop] does return when
    the restorations it issues succeed. *)
Theorem stop_leaves_no_effect
    (restore_state : Light -> PreState -> result unit)
    (meanwhile : Conductor -> Conductor)
    (lights : list Light) (self : Conductor) :
  (fst (stop restore_state meanwhile lights self) = Ok tt ->
   forall light, In light lights ->
     effect (snd (stop restore_state meanwhile lights self)) light = None) /\
  ((forall light p, restore_state light p = Ok tt) ->
   fst (stop restore_state meanwhile lights self) = Ok tt).
Proof.
  unfold stop.
  match goal with
  | |- context [for_each ?body ?todo] =>
      destruct (for_each body todo) as [done|ex] eqn:Hrestore
  end.
  - split; [|reflexivity].
    intros _ light Hin. unfold effect. simpl.
    rewrite (unregister_clears _ _ _ Hin). reflexivity.
  - split; [discriminate|].
    intros Hok. exfalso.
    match type of Hrestore with
    | for_each ?body ?todo = _ =>
        destruct (@Catalog.for_each_total _ _ body todo) as [done Hdone]
    end.
    + intros entry _. exists tt. apply Hok.
    + congruence.
Qed.

(** ** Facts about [add_lights] *)

Lemma nth_error_modify_same {A : Type} (h : list A) (i : nat) (f : A -> A) :
  nth_error (modify h i f) i = option_map f (nth_error h i).
Proof.
  revert i. induction h as [|x h IH]; intros [|i]; simpl; auto.
Qed.

Lemma nth_error_modify_other {A : Type} (h : list A) (i j : nat)
    (f : A -> A) :
  j <> i -> nth_error (modify h i f) j = nth_error h j.
Proof.
  revert i j. induction h as [|x h IH]; intros [|i] [|j] Hne; simpl;
    auto; congruence.
Qed.

Lemma In_set {V : Type} (d : dict V) (k0 : string) (v : V) :
  forall k r, In (k, r) (set d k0 v) -> In (k, r) d \/ (k = k0 /\ r = v).
Proof.
  induction d as [|[k' v'] d IH]; simpl; intros k r Hin.
  - destruct Hin as [[= <- <-]|[]]. right. split; reflexivity.
  - destruct (String.eqb_spec k0 k') as [->|Hne]; simpl in Hin.
    + destruct Hin as [[= <- <-]|Hin]; [right; split; reflexivity|].
      left. now right.
    + destruct Hin as [Heq|Hin]; [left; now left|].
      destruct (IH k r Hin) as [Hd|Hnew]; [left; now right|now right].
Qed.

Lemma get_store_all (entries : list (string * PreState)) :
  forall (d : dict PreState) (k : string) (p : PreState),
    get (store_all d entries) k = Some p ->
    get d k = Some p \/ In (k, p) entries.
Proof.
  unfold store_all.
  induction entries as [|[k0 p0] entries IH]; intros d k p Hget; simpl in *.
  - now left.
  - destruct (IH _ _ _ Hget) as [Hd|Hin]; [|right; now right].
    destruct (string_dec k k0) as [->|Hne].
    + rewrite get_set_same in Hd. injection Hd as ->. right. now left.
    + rewrite get_set_other in Hd by assumption. now left.
Qed.

Lemma store_all_defined (entries : list (string * PreState)) :
  forall (d : dict PreState) (k : string),
    get d k <> None \/ In k (map fst entries) ->
    get (store_all d entries) k <> None.
Proof.
  unfold store_all.
  induction entries as [|[k0 p0] entries IH]; intros d k Hk; simpl in *.
  - destruct Hk as [Hd|[]]. assumption.
  - apply IH. destruct (string_dec k k0) as [->|Hne].
    + left. rewrite get_set_same. discriminate.
    + destruct Hk as [Hd|[Heq|Hin]].
      * left. rewrite get_set_other by assumption. assumption.
      * congruence.
      * now right.
Qed.

(** The captured states, paired with the serials of their lights. *)
Lemma captured_pairs (capture_state : Light -> result PreState)
    (lights : list Light) :
  forall captured,
    for_each capture_state lights = Ok captured ->
    map fst (combine (map serial lights) captured) = map serial lights /\
    forall k p, In (k, p) (combine (map serial lights) captured) ->
                exists light, In light lights /\ serial light = k /\
                              capture_state light = Ok p.
Proof.
  induction lights as [|light lights IH]; intros captured Hcap;
    simpl in Hcap.
  - injection Hcap as <-. split; [reflexivity|]. intros k p [].
  - destruct (capture_state light) as [p0|ex] eqn:Hlight; simpl in Hcap;
      [|discriminate].
    destruct (for_each capture_state lights) as [rest|ex]; simpl in Hcap;
      [|discriminate].
    injection Hcap as <-. destruct (IH rest eq_refl) as [Hkeys Hpairs].
    split.
    + simpl. rewrite Hkeys. reflexivity.
    + intros k p [[= <- <-]|Hin].
      * exists light. repeat split; [now left|assumption].
      * destruct (Hpairs k p Hin) as (l2 & Hl2 & Hs & Hc).
        exists l2. repeat split; [now right|assumption|assumption].
Qed.

(** What [register] leaves in the registry. *)
Lemma register_spec (prestates : dict PreState) (e t : nat)
    (lights : list Light) :
  forall d d',
    register d prestates e t lights = Ok d' ->
    (forall light, In light lights ->
       exists p, get prestates (serial light) = Some p /\
                 get d' (serial light)
                 = Some {| Models.effect := e; prestate := p; task := t |}) /\
    (forall k, ~ In k (map serial lights) -> get d' k = get d k) /\
    (forall k r, In (k, r) d' ->
       In (k, r) d \/ (Models.effect r = e /\ task r = t)).
Proof.
  induction lights as [|light lights IH]; intros d d' Hreg; simpl in Hreg.
  - injection Hreg as <-. repeat split.
    + intros light [].
    + intros k r Hin. now left.
  - destruct (get prestates (serial light)) as [p|] eqn:Hp; [|discriminate].
    destruct (IH _ _ Hreg) as (Hset & Hkeep & Hall).
    repeat split.
    + intros l2 [<-|Hin]; [|apply Hset; assumption].
      exists p. split; [assumption|].
      destruct (in_dec string_dec (serial light) (map serial lights))
        as [Hlater|Hlast].
      * apply in_map_iff in Hlater. destruct Hlater as (l3 & Hs & Hl3).
        destruct (Hset l3 Hl3) as (p3 & Hp3 & Hget3).
        rewrite Hs in Hp3, Hget3. congruence.
      * rewrite (Hkeep _ Hlast). apply get_set_same.
    + intros k Hk. simpl in Hk.
      rewrite Hkeep by tauto. apply get_set_other. intuition congruence.
    + intros k r Hin. destruct (Hall k r Hin) as [Hd|Hnew]; [|now right].
      destruct (In_set _ _ _ _ _ Hd) as [Hold|[_ ->]]; [now left|].
      right. split; reflexivity.
Qed.

Lemma register_total (prestates : dict PreState) (e t : nat)
    (lights : list Light) :
  (forall light, In light lights -> get prestates (serial light) <> None) ->
  forall d, exists d', register d prestates e t lights = Ok d'.
Proof.
  induction lights as [|light lights IH]; intros Hdef d; simpl.
  - eauto.
  - destruct (get prestates (serial light)) as [p|] eqn:Hp.
    + apply IH. intros l2 Hl2. apply Hdef. now right.
    + exfalso. apply (Hdef light); [now left|assumption].
Qed.

Lemma task_of_found (d : dict RunningEffect) (e : nat) :
  forall t, task_of d e = Some t ->
            exists k r, In (k, r) d /\ Models.effect r = e /\ task r = t.
Proof.
  induction d as [|[k r] d IH]; simpl; intros t Ht.
  - discriminate.
  - destruct (Nat.eqb_spec (Models.effect r) e) as [He|Hne].
    + injection Ht as <-. exists k, r. repeat split; [now left|assumption].
    + destruct (IH t Ht) as (k' & r' & Hin & Hr). exists k', r'.
      split; [now right|assumption].
Qed.

Lemma task_of_running (d : dict RunningEffect) (e : nat) (k : string) :
  runs d e k = true -> task_of d e <> None.
Proof.
  unfold runs. induction d as [|[k' r] d IH]; simpl.
  - discriminate.
  - destruct (Nat.eqb (Models.effect r) e) eqn:He; [discriminate|].
    destruct (String.eqb k k'); [congruence|assumption].
Qed.

Lemma filter_filter {A : Type} (f g : A -> bool) (l : list A) :
  filter f (filter g l) = filter (fun x => g x && f x) l.
Proof.
  induction l as [|x l IH]; simpl; [reflexivity|].
  destruct (g x); simpl; [|assumption].
  destruct (f x); rewrite IH; reflexivity.
Qed.

(** [effect.is_light_compatible(light)] for the effect object [e] *)
Definition compatible_with (self : Conductor) (e : nat) (light : Light)
  : bool :=
  match nth_error (effects self) e with
  | Some o => is_light_compatible o light
  | None => false
  end.

(** The serial of [light] is that of a participant in [P]. *)
Definition participant_in (P : list Light) (light : Light) : bool :=
  existsb (String.eqb (serial light)) (map serial P).

(** [start(e, P)] has registered the participants [P] for the effect [e]
    and [e] is still running: [P] is the participant list of [e], the
    registry runs [e], under the task [t], on the serials of [P] and on
    no other, and [P] is not empty. *)
Definition registered (self : Conductor) (e : nat) (P : list Light)
    (t : nat) : Prop :=
  participants_of self e = P /\
  (exists o, nth_error (effects self) e = Some o) /\
  (forall k, runs (_running self) e k = true <-> In k (map serial P)) /\
  P <> [] /\
  (forall k r, In (k, r) (_running self) ->
               Models.effect r = e -> task r = t).

Lemma participant_in_spec (P : list Light) (light : Light) :
  participant_in P light = true <-> In (serial light) (map serial P).
Proof.
  unfold participant_in. rewrite existsb_exists. split.
  - intros (k & Hk & Heq). apply String.eqb_eq in Heq. congruence.
  - intros Hin. exists (serial light). split; [assumption|].
    apply String.eqb_refl.
Qed.

Lemma new_lights_spec (self : Conductor) (e : nat) (P L : list Light)
    (t : nat) (o : EffectObject) :
  registered self e P t ->
  nth_error (effects self) e = Some o ->
  filter (fun light => negb (runs (_running self) e (serial light)))
    (_filter_compatible_lights o L)
  = filter (fun light => compatible_with self e light
                         && negb (participant_in P light)) L.
Proof.
  intros (_ & _ & Hruns & _) Ho.
  unfold _filter_compatible_lights. rewrite filter_filter.
  apply filter_ext. intros light. unfold compatible_with. rewrite Ho.
  f_equal. f_equal.
  destruct (runs (_running self) e (serial light)) eqn:Hr.
  - symmetry. apply participant_in_spec. apply Hruns. assumption.
  - destruct (participant_in P light) eqn:Hp; [|reflexivity].
    apply participant_in_spec, Hruns in Hp. congruence.
Qed.

(** C6.  If [start(e, P)] has registered the compatible participants P
    for the effect e and e is still running (the registry runs e, under
    e's task, exactly on the serials of P), then after
    [add_lights(e, L)] has returned the participant list of e is P
    followed by L', in order, where L' is the lights of L that are
    compatible with e and whose serial is not that of a participant;
    the lights of L already bound to e are skipped, their entries left
    as they were, and each light of L' is registered in [_running]
    under e, e's existing task and a pre-state captured by this call. *)
Theorem add_lights_appends_new_participants
    (capture_state : Light -> result PreState)
    (make_animator : Light -> Z -> result Animator)
    (e : nat) (L : list Light) (self self' : Conductor)
    (P : list Light) (t : nat) :
  registered self e P t ->
  add_lights capture_state make_animator e L self = (Ok tt, self') ->
  let L' := filter (fun light => compatible_with self e light
                                 && negb (participant_in P light)) L in
  participants_of self' e = P ++ L' /\
  (forall light, In light L' ->
     exists fresh p,
       In fresh L' /\ serial fresh = serial light /\
       capture_state fresh = Ok p /\
       get (_running self') (serial light)
       = Some {| Models.effect := e; prestate := p; task := t |}) /\
  (forall k, ~ In k (map serial L') ->
             get (_running self') k = get (_running self) k).
Proof.
  intros Hreg Hadd L'.
  pose proof Hreg as (Hparts & (o & Ho) & Hruns & Hnonempty & Htask).
  assert (HP : participants o = P).
  { unfold participants_of in Hparts. rewrite Ho in Hparts. assumption. }
  assert (Hnothing : L' = [] -> self' = self ->
            participants_of self' e = P ++ L' /\
            (forall light, In light L' ->
               exists fresh p,
                 In fresh L' /\ serial fresh = serial light /\
                 capture_state fresh = Ok p /\
                 get (_running self') (serial light)
                 = Some {| Models.effect := e; prestate := p; task := t |}) /\
            (forall k, ~ In k (map serial L') ->
                       get (_running self') k = get (_running self) k)).
  { intros -> ->. rewrite app_nil_r. repeat split; [assumption|].
    intros light []. }
  unfold add_lights in Hadd. rewrite Ho in Hadd.
  pose proof (new_lights_spec L Hreg Ho) as Hnew. fold L' in Hnew.
  destruct (_filter_compatible_lights o L) as [|c0 compatible] eqn:Hcomp.
  { injection Hadd as <-. apply Hnothing; [|reflexivity].
    simpl in Hnew. congruence. }
  rewrite Hnew in Hadd.
  destruct L' as [|n0 news] eqn:HL'.
  { injection Hadd as <-. apply Hnothing; reflexivity. }
  rewrite <- HL' in *. clear Hnothing.
  destruct (task_of (_running self) e) as [t'|] eqn:Ht'.
  2:{ exfalso. destruct P as [|p0 P]; [congruence|].
      apply (@task_of_running (_running self) e (serial p0)); [|assumption].
      apply Hruns. now left. }
  assert (t' = t) as ->.
  { destruct (task_of_found _ _ Ht') as (k & r & Hin & He & Hr).
    rewrite <- Hr. apply (Htask k r Hin He). }
  destruct (for_each capture_state L') as [captured|ex] eqn:Hcap;
    [|discriminate].
  destruct (captured_pairs _ _ Hcap) as [Hkeys Hpairs].
  set (prestates := store_all [] (combine (map serial L') captured)) in *.
  set (extended :=
         match frame_fps o with
         | Some fps =>
             match _create_animators make_animator fps L' with
             | Raise ex => (Raise ex, self)
             | Ok new_animators =>
                 (Ok tt,
                  with_effects self
                    (modify (effects self) e
                       (fun o => set_animators
                                   (_animators o ++ new_animators) o)))
             end
         | None => (Ok tt, self)
         end) in *.
  assert (Hext : forall u mid, extended = (Ok u, mid) ->
            _running mid = _running self /\
            exists o', nth_error (effects mid) e = Some o' /\
                       participants o' = P).
  { intros u mid Hmid. unfold extended in Hmid.
    destruct (frame_fps o) as [fps|].
    - destruct (_create_animators make_animator fps L') as [anims|ex];
        [|discriminate].
      injection Hmid as _ <-. split; [reflexivity|]. simpl.
      rewrite nth_error_modify_same, Ho. simpl. eauto.
    - injection Hmid as _ <-. eauto. }
  destruct extended as [[u|ex] mid]; [|discriminate].
  destruct (Hext u mid eq_refl) as (Hsame & o' & Ho' & HP').
  match type of Hadd with
  | context [register ?d ?ps ?e ?t ?ls] =>
      destruct (register d ps e t ls) as [d'|ex] eqn:Hregister;
        [|discriminate]
  end.
  injection Hadd as <-. simpl in Hregister. rewrite Hsame in Hregister.
  destruct (register_spec _ _ _ _ _ Hregister) as (Hset & Hkeep & _).
  repeat split.
  - unfold participants_of. simpl.
    rewrite nth_error_modify_same, Ho'. simpl. rewrite HP'. reflexivity.
  - intros light Hin. destruct (Hset light Hin) as (p & Hp & Hget).
    apply get_store_all in Hp. destruct Hp as [Hempty|Hpair];
      [discriminate|].
    destruct (Hpairs _ _ Hpair) as (fresh & Hfresh & Hserial & Hcapture).
    exists fresh, p. repeat split; assumption.
  - intros k Hk. simpl. apply Hkeep. assumption.
Qed.

Lemma get_In {V : Type} (d : dict V) (k : string) (v : V) :
  get d k = Some v -> In (k, v) d.
Proof.
  induction d as [|[k' v'] d IH]; simpl; intros Hget.
  - discriminate.
  - destruct (String.eqb_spec k k') as [->|Hne].
    + injection Hget as ->. now left.
    + right. apply IH. assumption.
Qed.

(** [start] of a frame effect that is not running yet registers its
    compatible participants, under a new task. *)
Lemma start_registers
    (capture_state : Light -> result PreState)
    (make_animator : Light -> Z -> result Animator)
    (async_setup : nat -> list Light -> result unit)
    (e : nat) (lights : list Light) (self self' : Conductor)
    (o : EffectObject) (fps : R) :
  nth_error (effects self) e = Some o ->
  frame_fps o = Some fps ->
  (forall k r, In (k, r) (_running self) -> Models.effect r <> e) ->
  _filter_compatible_lights o lights <> [] ->
  start capture_state make_animator async_setup e lights self
  = (Ok tt, self') ->
  registered self' e (_filter_compatible_lights o lights)
    (List.length (tasks self)).
Proof.
  intros Ho Hfps Hidle Hsome Hstart.
  unfold start in Hstart. rewrite Ho in Hstart.
  destruct (_filter_compatible_lights o lights) as [|f0 fs] eqn:Hfiltered;
    [congruence|].
  rewrite <- Hfiltered in *.
  set (P := _filter_compatible_lights o lights) in *.
  match type of Hstart with
  | context [for_each ?body ?todo] =>
      destruct (for_each body todo) as [captured|ex]; [|discriminate]
  end.
  rewrite Hfps in Hstart. simpl in Hstart.
  destruct (_create_animators make_animator fps P) as [animators|ex];
    [|discriminate].
  destruct (async_setup e P) as [u|ex]; [|discriminate].
  simpl in Hstart.
  match type of Hstart with
  | context [register ?d ?ps ?e ?t ?ls] =>
      destruct (register d ps e t ls) as [d'|ex] eqn:Hregister;
        [|discriminate]
  end.
  injection Hstart as <-.
  destruct (register_spec _ _ _ _ _ Hregister) as (Hset & Hkeep & Hall).
  unfold registered. simpl. repeat split.
  - unfold participants_of. simpl.
    rewrite !nth_error_modify_same, Ho. reflexivity.
  - rewrite !nth_error_modify_same, Ho. simpl. eauto.
  - intros Hruns. unfold runs in Hruns.
    destruct (get d' k) as [r|] eqn:Hget; [|discriminate].
    apply Nat.eqb_eq in Hruns.
    destruct (in_dec string_dec k (map serial P)) as [Hin|Hout];
      [assumption|].
    rewrite (Hkeep _ Hout) in Hget. apply get_In in Hget.
    exfalso. apply (Hidle _ _ Hget Hruns).
  - intros Hin. apply in_map_iff in Hin. destruct Hin as (l & <- & Hl).
    destruct (Hset l Hl) as (p & _ & Hget). unfold runs. rewrite Hget.
    simpl. apply Nat.eqb_refl.
  - rewrite Hfiltered. discriminate.
  - intros k r Hin He. destruct (Hall k r Hin) as [Hold|[_ Ht]];
      [|assumption].
    exfalso. apply (Hidle _ _ Hold He).
Qed.



(** ** A studio with three lights *)

Definition lamp_a : Light :=
  {| light_id := 1; serial := "d073d5000001"; device := PlainLight;
     has_color := true; has_multizone := false; has_matrix := false |}.

Definition strip_b : Light :=
  {| light_id := 2; serial := "d073d5000002"; device := MultiZoneLight;
     has_color := true; has_multizone := true; has_matrix := false |}.

(** A white-only bulb: no colour, not compatible with a colorloop. *)
Definition bulb_c : Light :=
  {| light_id := 3; serial := "d073d5000003"; device := PlainLight;
     has_color := false; has_multizone := false; has_matrix := false |}.

Definition colorloop_object : EffectObject :=
  {| class_name := "EffectColorloop";
     frame_fps := Some 20%R;
     is_light_compatible := has_color;
     inherit_prestate := String.eqb "EffectColorloop";
     participants := [];
     _animators := [];
     has_conductor := false |}.

Definition idle : Conductor :=
  {| _running := []; effects := [colorloop_object]; tasks := [];
     restored := []; closed := [] |}.

Definition on_warm_white : PreState :=
  {| power := true; color := Catalog.warm_white; zone_colors := None |}.

Definition capture_on (light : Light) : result PreState := Ok on_warm_white.

Definition restore_fine (light : Light) (p : PreState) : result unit :=
  Ok tt.

Definition animator_for (light : Light) (duration_ms : Z) : result Animator :=
  Ok {| animator_id := light_id light; animator_pixel_count := 1;
        animator_canvas_width := 1; animator_canvas_height := 1 |}.

Definition setup_fine (e : nat) (lights : list Light) : result unit := Ok tt.

(** [start(colorloop, [lamp_a])], then [add_lights(colorloop, [lamp_a,
    strip_b, bulb_c])]. *)
Definition started : Conductor :=
  snd (start capture_on animator_for setup_fine 0 [lamp_a] idle).

Definition extended : Conductor :=
  snd (add_lights capture_on animator_for 0 [lamp_a; strip_b; bulb_c]
         started).

Lemma fps_divides : float_div 1500 20 = Ok (1500 / 20)%R.
Proof. apply Catalog.float_div_ok. Lra.lra. Qed.

Lemma started_ok :
  start capture_on animator_for setup_fine 0 [lamp_a] idle = (Ok tt, started).
Proof.
  unfold started.
  rewrite (surjective_pairing
             (start capture_on animator_for setup_fine 0 [lamp_a] idle))
    at 1.
  f_equal. unfold start, _create_animators. simpl.
  rewrite fps_divides. reflexivity.
Qed.

Lemma started_registered : registered started 0 [lamp_a] 0.
Proof.
  apply (@start_registers capture_on animator_for setup_fine 0 [lamp_a]
           idle started colorloop_object 20%R).
  - reflexivity.
  - reflexivity.
  - intros k r [].
  - discriminate.
  - apply started_ok.
Qed.

Lemma extended_ok :
  add_lights capture_on animator_for 0 [lamp_a; strip_b; bulb_c] started
  = (Ok tt, extended).
Proof.
  unfold extended.
  rewrite (surjective_pairing
             (add_lights capture_on animator_for 0
                [lamp_a; strip_b; bulb_c] started)) at 1.
  f_equal. unfold started, start, add_lights, _create_animators. simpl.
  rewrite fps_divides. simpl. rewrite fps_divides. reflexivity.
Qed.

Lemma add_lights_appends_new_participants_witness :
  let L' := filter (fun light => compatible_with started 0 light
                                 && negb (participant_in [lamp_a] light))
              [lamp_a; strip_b; bulb_c] in
  participants_of extended 0 = [lamp_a] ++ L' /\
  (forall light, In light L' ->
     exists fresh p,
       In fresh L' /\ serial fresh = serial light /\
       capture_on fresh = Ok p /\
       get (_running extended) (serial light)
       = Some {| Models.effect := 0; prestate := p; task := 0 |}) /\
  (forall k, ~ In k (map serial L') ->
             get (_running extended) k = get (_running started) k).
Proof.
  apply (@add_lights_appends_new_participants capture_on animator_for 0
           [lamp_a; strip_b; bulb_c] started extended [lamp_a] 0).
  - apply started_registered.
  - apply extended_ok.
Defined.

Lemma stop_leaves_no_effect_witness :
  fst (stop restore_fine (fun c => c) [lamp_a; strip_b; bulb_c] extended)
  = Ok tt /\
  forall light, In light [lamp_a; strip_b; bulb_c] ->
    effect (snd (stop restore_fine (fun c => c) [lamp_a; strip_b; bulb_c]
                   extended)) light = None.
Proof.
  destruct (@stop_leaves_no_effect restore_fine (fun c => c)
              [lamp_a; strip_b; bulb_c] extended) as [Hclear Hreturns].
  assert (Hok := Hreturns (fun light p => eq_refl)).
  split; [exact Hok|exact (Hclear Hok)].
Defined.

Example extended_participants :
  participants_of extended 0 = [lamp_a; strip_b].
Proof.
  unfold extended, started, start, add_lights, _create_animators. simpl.
  rewrite fps_divides. simpl. rewrite fps_divides. reflexivity.
Qed.

Example extended_running :
  keys (_running extended) = ["d073d5000001"; "d073d5000002"]%string.
Proof.
  unfold extended, started, start, add_lights, _create_animators. simpl.
  rewrite fps_divides. simpl. rewrite fps_divides. reflexivity.
Qed.

End ConductorModel.

(* ===================================================================== *)
(** * src/lifx/network/connection.py: more on the request engine

    Facts about [request_stream] and [request_ack_stream] that hold for
    every recorded behaviour of the clock and of the network: which
    packet settles a request, what is yielded, how the retries sleep,
    and what a negative retry budget does. *)

Module RequestEngine.

Import Connection.
Local Open Scope Q_scope.

(** A poll that a receive loop passes over with time left: a packet
    with another sequence number, or an idle poll that ends before
    [deadline]. *)
Definition passed_over (sequence_ : Z) (deadline : Q) (tick : poll_tick)
  : Prop :=
  now_top tick < deadline /\
  match received tick with
  | Ok (header, _) => sequence header <> sequence_
  | Raise LifxTimeoutError => now_idle tick < deadline
  | Raise _ => False
  end.

(** The checks of lines 411-427 pass: the packet is not a
    StateUnhandled and has the type the request expects, if any. *)
Definition accepted (expected_pkt_type : option Z) (header : LifxHeader)
  : Prop :=
  pkt_type header <> _STATE_UNHANDLED_PKT_TYPE /\
  match expected_pkt_type with
  | Some expected => pkt_type header = expected
  | None => True
  end.

(** A poll before [deadline] that does not end the stream: idle with
    time left, a packet for somebody else, or a reply that passes the
    checks. *)
Definition in_time (expected_pkt_type : option Z) (sequence_ : Z)
    (deadline : Q) (tick : poll_tick) : Prop :=
  now_top tick < deadline /\
  match received tick with
  | Ok (header, _) =>
      sequence header = sequence_ -> accepted expected_pkt_type header
  | Raise LifxTimeoutError => now_idle tick < deadline
  | Raise _ => False
  end.

(** The packets received during [ticks] that carry [sequence_], in the
    order of their arrival. *)
Definition replies (sequence_ : Z) (ticks : list poll_tick)
  : list (LifxHeader * payload) :=
  flat_map
    (fun tick =>
       match received tick with
       | Ok (header, body) =>
           if (sequence header =? sequence_)%Z then [(header, body)] else []
       | Raise _ => []
       end)
    ticks.

Definition nonempty {A : Type} (l : list A) : bool :=
  match l with
  | [] => false
  | _ :: _ => true
  end.

(** [random.uniform(0, d)] returns a value between 0 and d: the sample
    is a fraction of d between 0 and 1. *)
Definition jitter_in_range (a : attempt_env) : Prop := 0 <= jitter a <= 1.

(** The exception a negative retry budget ends in. *)
Definition negative_budget_error (retries : Z) : exn :=
  if (retries =? -1)%Z then ZeroDivisionError else LifxTimeoutError.

(** ** The loops on polls that are passed over *)

Lemma range_succ (R : Z) :
  (0 <= R)%Z -> range (R + 1) = 0%Z :: map Z.of_nat (seq 1 (Z.to_nat R)).
Proof.
  intros HR. unfold range.
  replace (Z.to_nat (R + 1)) with (S (Z.to_nat R)) by lia. reflexivity.
Qed.

Lemma poll_responses_passes_over expected sequence_ deadline quiet :
  Forall (passed_over sequence_ deadline) quiet ->
  forall has_yielded ticks,
    poll_responses expected sequence_ deadline has_yielded (quiet ++ ticks)
    = poll_responses expected sequence_ deadline has_yielded ticks.
Proof.
  induction 1 as [|tick quiet [Htop Hrecv] _ IH]; intros hy rest.
  - reflexivity.
  - simpl. apply remaining_left in Htop. rewrite Htop.
    destruct (received tick) as [[h b]|e].
    + apply Z.eqb_neq in Hrecv. rewrite Hrecv. simpl. apply IH.
    + destruct e; try contradiction.
      apply Qle_bool_false in Hrecv. rewrite Hrecv.
      destruct hy; apply IH.
Qed.

Lemma poll_ack_passes_over sequence_ deadline quiet :
  Forall (passed_over sequence_ deadline) quiet ->
  forall ticks,
    poll_ack sequence_ deadline (quiet ++ ticks)
    = poll_ack sequence_ deadline ticks.
Proof.
  induction 1 as [|tick quiet [Htop Hrecv] _ IH]; intros rest.
  - reflexivity.
  - simpl. apply remaining_left in Htop. rewrite Htop.
    destruct (received tick) as [[h b]|e].
    + apply Z.eqb_neq in Hrecv. rewrite Hrecv. simpl. apply IH.
    + destruct e; try contradiction.
      apply Qle_bool_false in Hrecv. rewrite Hrecv. apply IH.
Qed.



(** The receive loop of [request_ack_stream] yields once and returns,
    or yields nothing and does not return. *)
Lemma poll_ack_once sequence_ deadline env :
  (poll_yielded (poll_ack sequence_ deadline env) = [] /\
   poll_finish (poll_ack sequence_ deadline env) <> StreamReturn) \/
  (poll_yielded (poll_ack sequence_ deadline env) = [tt] /\
   poll_finish (poll_ack sequence_ deadline env) = StreamReturn).
Proof.
  induction env as [|tick env IH]; simpl.
  - left. split; [reflexivity|discriminate].
  - destruct (Qle_bool (deadline - now_top tick) 0).
    { left. split; [reflexivity|discriminate]. }
    destruct (received tick) as [[h b]|e].
    + destruct (sequence h =? sequence_)%Z; simpl; [|exact IH].
      destruct (pkt_type h =? _STATE_UNHANDLED_PKT_TYPE)%Z; simpl.
      * left. split; [reflexivity|discriminate].
      * right. split; reflexivity.
    + destruct e; simpl; try (left; split; [reflexivity|discriminate]).
      destruct (Qle_bool deadline (now_idle tick)); simpl; [|exact IH].
      left. split; [reflexivity|discriminate].
Qed.

Lemma ack_attempts_once base retries :
  forall attempts env,
    yielded (ack_attempts base retries attempts env) = [] \/
    (yielded (ack_attempts base retries attempts env) = [tt] /\
     finish (ack_attempts base retries attempts env) = Finished).
Proof.
  induction attempts as [|attempt attempts IH]; intros env.
  - left. reflexivity.
  - destruct env as [|a env]; [left; reflexivity|]. simpl.
    assert (Htimeout :
              yielded
                (if (attempt <? retries)%Z
                 then after [] [_calculate_retry_sleep_with_jitter
                                  (jitter a) attempt]
                        (ack_attempts base retries attempts env)
                 else end_stream (Raised LifxTimeoutError)) = [] \/
              (yielded
                 (if (attempt <? retries)%Z
                  then after [] [_calculate_retry_sleep_with_jitter
                                   (jitter a) attempt]
                         (ack_attempts base retries attempts env)
                  else end_stream (Raised LifxTimeoutError)) = [tt] /\
               finish
                 (if (attempt <? retries)%Z
                  then after [] [_calculate_retry_sleep_with_jitter
                                   (jitter a) attempt]
                         (ack_attempts base retries attempts env)
                  else end_stream (Raised LifxTimeoutError)) = Finished)).
    { destruct (attempt <? retries)%Z; [|left; reflexivity].
      simpl. apply IH. }
    destruct (sent a) as [u|e].
    + destruct (poll_ack_once (next_sequence a)
                  (attempt_start a + current_timeout base attempt)
                  (ticks a)) as [[Hy Hf]|[Hy Hf]];
        rewrite Hy; simpl.
      * destruct (poll_finish _); try (left; reflexivity).
        exact Htimeout.
      * rewrite Hf. right. split; reflexivity.
    + destruct e; try (left; reflexivity). exact Htimeout.
Qed.

(** ** What the loops yield *)

Lemma poll_responses_yields_accepted expected sequence_ deadline env :
  forall has_yielded header body,
    In (header, body)
       (poll_yielded (poll_responses expected sequence_ deadline
                        has_yielded env)) ->
    sequence header = sequence_ /\ accepted expected header.
Proof.
  induction env as [|tick env IH]; intros hy header body Hin; simpl in Hin.
  - contradiction.
  - destruct (Qle_bool (deadline - now_top tick) 0).
    { destruct (negb hy); simpl in Hin; contradiction. }
    destruct (received tick) as [[h b]|e].
    + destruct (Z.eqb_spec (sequence h) sequence_) as [Hseq|Hseq];
        simpl in Hin; [|eauto].
      destruct (Z.eqb_spec (pkt_type h) _STATE_UNHANDLED_PKT_TYPE)
        as [Hunhandled|Hhandled]; [simpl in Hin; contradiction|].
      destruct expected as [x|].
      * destruct (Z.eqb_spec (pkt_type h) x) as [Htype|Htype];
          simpl in Hin; [|contradiction].
        destruct Hin as [[= <- <-]|Hin]; [|eauto].
        repeat split; assumption.
      * simpl in Hin. destruct Hin as [[= <- <-]|Hin]; [|eauto].
        repeat split; assumption.
    + destruct e; try (simpl in Hin; contradiction).
      destruct hy; [eauto|].
      destruct (Qle_bool deadline (now_idle tick));
        [simpl in Hin; contradiction|eauto].
Qed.

Lemma request_attempts_yields expected base retries :
  forall attempts env has_yielded header body,
    In (header, body)
       (yielded (request_attempts expected base retries attempts
                   has_yielded env)) ->
    exists a, In a env /\ sent a = Ok tt /\
              sequence header = next_sequence a /\
              accepted expected header.
Proof.
  induction attempts as [|attempt attempts IH];
    intros env hy header body Hin.
  - simpl in Hin. unfold exhausted in Hin.
    destruct (negb hy); contradiction.
  - destruct env as [|a env]; [contradiction|]. simpl in Hin.
    assert (Hlater : forall hy',
              In (header, body)
                 (yielded
                    (if (attempt <? retries)%Z
                     then after [] [_calculate_retry_sleep_with_jitter
                                      (jitter a) attempt]
                            (request_attempts expected base retries
                               attempts hy' env)
                     else exhausted hy')) ->
              exists a', In a' (a :: env) /\ sent a' = Ok tt /\
                         sequence header = next_sequence a' /\
                         accepted expected header).
    { intros hy' Hin'. destruct (attempt <? retries)%Z.
      - simpl in Hin'. destruct (IH _ _ _ _ Hin') as (a' & Ha' & Hrest).
        exists a'. split; [now right|assumption].
      - unfold exhausted in Hin'. destruct (negb hy'); contradiction. }
    destruct (sent a) as [[]|e] eqn:Hsent.
    + simpl in Hin. apply in_app_or in Hin. destruct Hin as [Hnow|Hin].
      * apply poll_responses_yields_accepted in Hnow.
        exists a. split; [now left|]. tauto.
      * destruct (poll_finish _); try contradiction.
        apply (Hlater _ Hin).
    + destruct e; try contradiction. apply (Hlater _ Hin).
Qed.

(** ** How the retries sleep *)

Lemma pow2_nonneg (k : nat) : 0 <= (2 # 1) ^ Z.of_nat k.
Proof. pose proof (pow2_ge_1 k). lra. Qed.

Lemma jittered_sleep (a : attempt_env) (k : nat) :
  jitter_in_range a ->
  0 <= _calculate_retry_sleep_with_jitter (jitter a) (Z.of_nat k)
    <= _RETRY_SLEEP_BASE * (2 # 1) ^ Z.of_nat k.
Proof.
  intros [Hlow Hhigh]. unfold _calculate_retry_sleep_with_jitter.
  pose proof (pow2_nonneg k) as Hpow.
  assert (Hdelay : 0 <= _RETRY_SLEEP_BASE * (2 # 1) ^ Z.of_nat k).
  { apply Qmult_le_0_compat; [discriminate|assumption]. }
  split.
  - apply Qmult_le_0_compat; assumption.
  - rewrite <- (Qmult_1_l (_RETRY_SLEEP_BASE * (2 # 1) ^ Z.of_nat k)) at 2.
    apply Qmult_le_compat_r; assumption.
Qed.

Lemma request_attempts_sleeps expected base retries :
  forall (n k : nat) env has_yielded,
    Forall jitter_in_range env ->
    forall i s,
      nth_error
        (slept (request_attempts expected base retries
                  (map Z.of_nat (seq k n)) has_yielded env)) i = Some s ->
      (Z.of_nat (k + i) < retries)%Z /\
      0 <= s <= _RETRY_SLEEP_BASE * (2 # 1) ^ Z.of_nat (k + i).
Proof.
  induction n as [|n IH]; intros k env hy Hjitter i s Hnth.
  - simpl in Hnth. unfold exhausted in Hnth.
    destruct (negb hy); destruct i; discriminate.
  - destruct env as [|a env]; [destruct i; discriminate|].
    inversion Hjitter as [|? ? Ha Henv]; subst. simpl in Hnth.
    assert (Hlater : forall hy',
              nth_error
                (slept
                   (if (Z.of_nat k <? retries)%Z
                    then after [] [_calculate_retry_sleep_with_jitter
                                     (jitter a) (Z.of_nat k)]
                           (request_attempts expected base retries
                              (map Z.of_nat (seq (S k) n)) hy' env)
                    else exhausted hy')) i = Some s ->
              (Z.of_nat (k + i) < retries)%Z /\
              0 <= s <= _RETRY_SLEEP_BASE * (2 # 1) ^ Z.of_nat (k + i)).
    { intros hy' Hnth'.
      destruct (Z.ltb_spec (Z.of_nat k) retries) as [Hk|Hk].
      - simpl in Hnth'. destruct i as [|i].
        + injection Hnth' as <-. rewrite Nat.add_0_r.
          split; [assumption|]. apply jittered_sleep. assumption.
        + simpl in Hnth'.
          replace (k + S i)%nat with (S k + i)%nat by lia.
          apply (IH (S k) env hy' Henv i s Hnth').
      - unfold exhausted in Hnth'.
        destruct (negb hy'); destruct i; discriminate. }
    destruct (sent a) as [[]|e].
    + simpl in Hnth.
      destruct (poll_finish _); try (destruct i; discriminate).
      apply (Hlater _ Hnth).
    + destruct e; try (destruct i; discriminate). apply (Hlater _ Hnth).
Qed.

Lemma ack_attempts_sleeps base retries :
  forall (n k : nat) env,
    Forall jitter_in_range env ->
    forall i s,
      nth_error
        (slept (ack_attempts base retries (map Z.of_nat (seq k n)) env)) i
      = Some s ->
      (Z.of_nat (k + i) < retries)%Z /\
      0 <= s <= _RETRY_SLEEP_BASE * (2 # 1) ^ Z.of_nat (k + i).
Proof.
  induction n as [|n IH]; intros k env Hjitter i s Hnth.
  - destruct i; discriminate.
  - destruct env as [|a env]; [destruct i; discriminate|].
    inversion Hjitter as [|? ? Ha Henv]; subst. simpl in Hnth.
    assert (Hlater :
              nth_error
                (slept
                   (if (Z.of_nat k <? retries)%Z
                    then after [] [_calculate_retry_sleep_with_jitter
                                     (jitter a) (Z.of_nat k)]
                           (ack_attempts base retries
                              (map Z.of_nat (seq (S k) n)) env)
                    else end_stream (Raised LifxTimeoutError))) i = Some s ->
              (Z.of_nat (k + i) < retries)%Z /\
              0 <= s <= _RETRY_SLEEP_BASE * (2 # 1) ^ Z.of_nat (k + i)).
    { intros Hnth'.
      destruct (Z.ltb_spec (Z.of_nat k) retries) as [Hk|Hk].
      - simpl in Hnth'. destruct i as [|i].
        + injection Hnth' as <-. rewrite Nat.add_0_r.
          split; [assumption|]. apply jittered_sleep. assumption.
        + simpl in Hnth'.
          replace (k + S i)%nat with (S k + i)%nat by lia.
          apply (IH (S k) env Henv i s Hnth').
      - destruct i; discriminate. }
    destruct (sent a) as [[]|e].
    + simpl in Hnth.
      destruct (poll_finish _); try (destruct i; discriminate).
      apply (Hlater Hnth).
    + destruct e; try (destruct i; discriminate). apply (Hlater Hnth).
Qed.

(** ** A stream of replies *)

Lemma poll_responses_collects expected sequence_ deadline last rest :
  deadline <= now_top last ->
  forall body has_yielded,
    Forall (in_time expected sequence_ deadline) body ->
    poll_responses expected sequence_ deadline has_yielded
      (body ++ last :: rest)
    = {| poll_yielded := replies sequence_ body;
         poll_has_yielded :=
           has_yielded || nonempty (replies sequence_ body);
         poll_finish :=
           if has_yielded || nonempty (replies sequence_ body)
           then StreamReturn else AttemptTimeout |}.
Proof.
  intros Hlast. apply remaining_elapsed in Hlast.
  induction body as [|tick body IH]; intros hy Hbody.
  - simpl. rewrite Hlast. destruct hy; reflexivity.
  - inversion Hbody as [|? ? [Htop Hrecv] Hrest]; subst.
    apply remaining_left in Htop.
    change ((tick :: body) ++ last :: rest)
      with (tick :: (body ++ last :: rest)).
    unfold replies. simpl flat_map. fold (replies sequence_ body).
    simpl poll_responses. rewrite Htop.
    destruct (received tick) as [[h b]|e].
    + destruct (Z.eqb_spec (sequence h) sequence_) as [Hseq|Hseq]; simpl.
      * destruct (Hrecv Hseq) as [Hhandled Htype].
        apply Z.eqb_neq in Hhandled. rewrite Hhandled.
        assert (Hemit :
                  emit (h, b)
                    (poll_responses expected sequence_ deadline true
                       (body ++ last :: rest))
                  = {| poll_yielded := (h, b) :: replies sequence_ body;
                       poll_has_yielded := hy || true;
                       poll_finish :=
                         if hy || true then StreamReturn
                         else AttemptTimeout |}).
        { rewrite (IH true Hrest). rewrite orb_true_r. reflexivity. }
        destruct expected as [x|]; [|exact Hemit].
        apply Z.eqb_eq in Htype. rewrite Htype. exact Hemit.
      * apply IH. assumption.
    + destruct e; try contradiction.
      apply Qle_bool_false in Hrecv. rewrite Hrecv. simpl.
      destruct hy; apply IH; assumption.
Qed.

(** ** A negative retry budget *)

Lemma total_weight_negative (R : Z) :
  (R < -1)%Z -> Qeq_bool (total_weight R) 0 = false.
Proof.
  intros HR. destruct (Qeq_bool (total_weight R) 0) eqn:E; [|reflexivity].
  apply Qeq_bool_eq in E. unfold total_weight in E.
  assert (Hlt : (2 # 1) ^ (R + 1) < (2 # 1) ^ 0).
  { apply Qpower_lt_compat_l; [lia|reflexivity]. }
  simpl ((2 # 1) ^ 0) in Hlt. lra.
Qed.

Lemma range_empty (n : Z) : (n <= 0)%Z -> range n = [].
Proof.
  intros Hn. unfold range. replace (Z.to_nat n) with 0%nat by lia.
  reflexivity.
Qed.

(** ** The statements *)



(** X2.  Whatever the network and the clock do, [request_ack_stream]
    yields at most once, and when it has yielded (its single
    acknowledgement) the generator ends normally: no retry, no
    exception after the acknowledgement. *)
Theorem request_ack_stream_acknowledges_once
    (self : _ActualConnection)
    (timeout : option Q) (retries : option Z) (env : list attempt_env) :
  yielded (request_ack_stream self timeout retries env) = [] \/
  (yielded (request_ack_stream self timeout retries env) = [tt] /\
   finish (request_ack_stream self timeout retries env) = Finished).
Proof.
  unfold request_ack_stream.
  destruct (negb (_is_open self)); [left; reflexivity|].
  destruct (base_timeout _ _) as [base|e]; [|left; reflexivity].
  apply ack_attempts_once.
Qed.

(** X3.  Everything [request_stream] yields is a reply to one of its own
    attempts: it carries the sequence number allocated for an attempt
    whose request was sent, it is not a StateUnhandled packet, and it
    has the packet type named by the request's STATE_TYPE, if any. *)
Theorem request_stream_yields_only_replies
    (self : _ActualConnection) (request : Request)
    (timeout : option Q) (retries : option Z) (env : list attempt_env)
    (header : LifxHeader) (body : payload) :
  In (header, body)
     (yielded (request_stream self request timeout retries env)) ->
  exists a,
    In a env /\ sent a = Ok tt /\
    sequence header = next_sequence a /\
    pkt_type header <> _STATE_UNHANDLED_PKT_TYPE /\
    match STATE_TYPE request with
    | Some expected => pkt_type header = expected
    | None => True
    end.
Proof.
  unfold request_stream. intros Hin.
  destruct (negb (_is_open self)); [contradiction|].
  destruct (base_timeout _ _) as [base|e]; [|contradiction].
  apply request_attempts_yields in Hin.
  destruct Hin as (a & Ha & Hsent & Hseq & Hhandled & Htype).
  exists a. repeat split; assumption.
Qed.

Lemma request_stream_yields_only_replies_witness :
  exists a,
    In a retried /\ sent a = Ok tt /\
    sequence (state_power 2) = next_sequence a /\
    pkt_type (state_power 2) <> _STATE_UNHANDLED_PKT_TYPE /\
    match STATE_TYPE {| STATE_TYPE := Some 22%Z |} with
    | Some expected => pkt_type (state_power 2) = expected
    | None => True
    end.
Proof.
  apply (@request_stream_yields_only_replies bulb
           {| STATE_TYPE := Some 22%Z |} (Some (1 # 2)) (Some 2%Z) retried
           (state_power 2) [65535%Z]).
  vm_compute. left. reflexivity.
Defined.

(** X4.  When every jitter sample lies between 0 and the exponential
    delay, the i-th sleep (0-based) of [request_stream] and of
    [request_ack_stream] lasts between 0 and 0.1 * 2^i seconds, and a
    stream with retry budget R sleeps at most R times: there is an i-th
    sleep only for i < R. *)
Theorem retry_sleeps_are_jittered_backoff
    (self : _ActualConnection) (request : Request)
    (timeout : option Q) (retries : option Z) (env : list attempt_env) :
  let R := match retries with Some r => r | None => max_retries self end in
  Forall jitter_in_range env ->
  (forall i s,
      nth_error (slept (request_stream self request timeout retries env)) i
      = Some s ->
      (Z.of_nat i < R)%Z /\
      0 <= s <= _RETRY_SLEEP_BASE * (2 # 1) ^ Z.of_nat i) /\
  (forall i s,
      nth_error (slept (request_ack_stream self timeout retries env)) i
      = Some s ->
      (Z.of_nat i < R)%Z /\
      0 <= s <= _RETRY_SLEEP_BASE * (2 # 1) ^ Z.of_nat i).
Proof.
  intros R Hjitter. split; intros i s Hnth.
  - unfold request_stream in Hnth.
    destruct (negb (_is_open self)); [destruct i; discriminate|].
    fold R in Hnth.
    destruct (base_timeout _ R) as [base|e]; [|destruct i; discriminate].
    apply (@request_attempts_sleeps (STATE_TYPE request) base R
             (Z.to_nat (R + 1)) 0%nat env false Hjitter i s Hnth).
  - unfold request_ack_stream in Hnth.
    destruct (negb (_is_open self)); [destruct i; discriminate|].
    fold R in Hnth.
    destruct (base_timeout _ R) as [base|e]; [|destruct i; discriminate].
    apply (@ack_attempts_sleeps base R (Z.to_nat (R + 1)) 0%nat env
             Hjitter i s Hnth).
Qed.

Lemma retry_sleeps_are_jittered_backoff_witness :
  (forall i s,
      nth_error
        (slept (request_stream bulb {| STATE_TYPE := Some 22%Z |}
                  (Some (1 # 2)) (Some 2%Z)
                  [silence 0 1; silence 1 2; silence 2 3])) i = Some s ->
      (Z.of_nat i < 2)%Z /\
      0 <= s <= _RETRY_SLEEP_BASE * (2 # 1) ^ Z.of_nat i) /\
  (forall i s,
      nth_error
        (slept (request_ack_stream bulb (Some (1 # 2)) (Some 2%Z)
                  [silence 0 1; silence 1 2; silence 2 3])) i = Some s ->
      (Z.of_nat i < 2)%Z /\
      0 <= s <= _RETRY_SLEEP_BASE * (2 # 1) ^ Z.of_nat i).
Proof.
  apply (@retry_sleeps_are_jittered_backoff bulb
           {| STATE_TYPE := Some 22%Z |} (Some (1 # 2)) (Some 2%Z)
           [silence 0 1; silence 1 2; silence 2 3]).
  repeat constructor; vm_compute; discriminate.
Defined.

(** X5.  A negative retry budget makes no attempt at all: nothing is
    sent, yielded or slept.  With max_retries = -1 the weight
    2^(max_retries+1) - 1 is 0 and both streams raise
    [ZeroDivisionError]; with max_retries < -1 the loop over the
    attempts is empty and both raise [LifxTimeoutError]. *)
Theorem negative_retry_budget_makes_no_attempt
    (self : _ActualConnection) (request : Request)
    (timeout : option Q) (retries : option Z) (env : list attempt_env) :
  let R := match retries with Some r => r | None => max_retries self end in
  _is_open self = true ->
  (R < 0)%Z ->
  request_stream self request timeout retries env
    = end_stream (Raised (negative_budget_error R)) /\
  request_ack_stream self timeout retries env
    = end_stream (Raised (negative_budget_error R)).
Proof.
  intros R Hopen HR.
  unfold request_stream, request_ack_stream, negative_budget_error.
  rewrite Hopen. simpl negb. cbv iota. fold R.
  destruct (Z.eqb_spec R (-1)) as [->|Hne].
  - split; reflexivity.
  - unfold base_timeout. rewrite total_weight_negative by lia.
    rewrite range_empty by lia. split; reflexivity.
Qed.

Lemma negative_retry_budget_makes_no_attempt_witness :
  request_stream bulb {| STATE_TYPE := Some 22%Z |} None (Some (-1)%Z)
    [answered]
    = end_stream (Raised (negative_budget_error (-1))) /\
  request_ack_stream bulb None (Some (-1)%Z) [answered]
    = end_stream (Raised (negative_budget_error (-1))).
Proof.
  apply (@negative_retry_budget_makes_no_attempt bulb
           {| STATE_TYPE := Some 22%Z |} None (Some (-1)%Z) [answered]).
  - reflexivity.
  - lia.
Defined.

(** X6.  A multi-response request: when the first attempt is sent and,
    until a poll finds the attempt's deadline passed, every poll is
    idle, brings a packet for somebody else or brings a reply that
    passes the checks, and at least one reply arrives, then
    [request_stream] yields exactly the packets that carry the
    attempt's sequence number, in the order of their arrival, and ends
    normally, without a retry. *)
Theorem request_stream_collects_replies_until_deadline
    (self : _ActualConnection) (request : Request)
    (timeout : option Q) (retries : option Z)
    (a : attempt_env) (env : list attempt_env)
    (body : list poll_tick) (last : poll_tick) (rest : list poll_tick) :
  let T := match timeout with Some t => t | None => default_timeout self end in
  let R := match retries with Some r => r | None => max_retries self end in
  let deadline := attempt_start a + current_timeout (T / total_weight R) 0 in
  _is_open self = true ->
  (0 <= R)%Z ->
  sent a = Ok tt ->
  ticks a = body ++ last :: rest ->
  Forall (in_time (STATE_TYPE request) (next_sequence a) deadline) body ->
  deadline <= now_top last ->
  replies (next_sequence a) body <> [] ->
  yielded (request_stream self request timeout retries (a :: env))
    = replies (next_sequence a) body /\
  slept (request_stream self request timeout retries (a :: env)) = [] /\
  finish (request_stream self request timeout retries (a :: env))
    = Finished.
Proof.
  intros T R deadline Hopen HR Hsent Hticks Hbody Hlast Hreplies.
  unfold request_stream. rewrite Hopen. simpl negb. cbv iota.
  fold T. fold R. rewrite (base_timeout_ok T HR), (range_succ HR).
  simpl request_attempts. rewrite Hsent, Hticks. fold deadline.
  rewrite (@poll_responses_collects (STATE_TYPE request) (next_sequence a)
             deadline last rest Hlast body false Hbody).
  destruct (replies (next_sequence a) body) as [|reply more];
    [congruence|].
  simpl. rewrite app_nil_r. repeat split.
Qed.

(** Three zones report, then the deadline passes. *)
Definition state_zone (seq_ index : Z) : LifxHeader * payload :=
  ({| sequence := seq_; pkt_type := 506; target_serial := "d073d5123456" |},
   [index]).

Definition zones_reported : attempt_env :=
  {| next_sequence := 4; sent := Ok tt; attempt_start := 0;
     ticks := [ {| now_top := 0; received := Ok (state_zone 4 0);
                   now_idle := 0 |};
                {| now_top := 0; received := Ok (state_zone 3 7);
                   now_idle := 0 |};
                {| now_top := 0; received := Ok (state_zone 4 8);
                   now_idle := 0 |};
                {| now_top := 0; received := Raise LifxTimeoutError;
                   now_idle := 1 # 100 |};
                {| now_top := 1; received := Raise LifxTimeoutError;
                   now_idle := 1 |} ];
     jitter := 0 |}.

Lemma request_stream_collects_replies_until_deadline_witness :
  yielded (request_stream bulb {| STATE_TYPE := Some 506%Z |}
             (Some (1 # 2)) (Some 2%Z) [zones_reported])
    = [state_zone 4 0; state_zone 4 8] /\
  slept (request_stream bulb {| STATE_TYPE := Some 506%Z |}
           (Some (1 # 2)) (Some 2%Z) [zones_reported]) = [] /\
  finish (request_stream bulb {| STATE_TYPE := Some 506%Z |}
            (Some (1 # 2)) (Some 2%Z) [zones_reported]) = Finished.
Proof.
  apply (@request_stream_collects_replies_until_deadline bulb
           {| STATE_TYPE := Some 506%Z |} (Some (1 # 2)) (Some 2%Z)
           zones_reported []
           (firstn 4 (ticks zones_reported))
           {| now_top := 1; received := Raise LifxTimeoutError;
              now_idle := 1 |} []).
  - reflexivity.
  - lia.
  - reflexivity.
  - reflexivity.
  - repeat constructor; simpl;
      try (vm_compute; reflexivity); try discriminate; try lia.
  - vm_compute. discriminate.
  - vm_compute. discriminate.
Defined.

(** X7.  The first packet that carries the attempt's sequence number
    settles [request_stream]: after polls that were all passed over, a
    StateUnhandled packet (type 223) makes the stream raise
    [LifxUnsupportedCommandError], a packet of another type than the
    request's STATE_TYPE makes it raise [LifxProtocolError], in both
    cases with nothing yielded and no retry, and a packet that passes
    both checks is the first value yielded. *)
Theorem first_reply_settles_request_stream
    (self : _ActualConnection) (request : Request)
    (timeout : option Q) (retries : option Z)
    (a : attempt_env) (env : list attempt_env)
    (quiet : list poll_tick) (tick : poll_tick) (rest : list poll_tick)
    (header : LifxHeader) (body : payload) :
  let T := match timeout with Some t => t | None => default_timeout self end in
  let R := match retries with Some r => r | None => max_retries self end in
  let deadline := attempt_start a + current_timeout (T / total_weight R) 0 in
  let r := request_stream self request timeout retries (a :: env) in
  _is_open self = true ->
  (0 <= R)%Z ->
  sent a = Ok tt ->
  ticks a = quiet ++ tick :: rest ->
  Forall (passed_over (next_sequence a) deadline) quiet ->
  now_top tick < deadline ->
  received tick = Ok (header, body) ->
  sequence header = next_sequence a ->
  (pkt_type header = _STATE_UNHANDLED_PKT_TYPE ->
   yielded r = [] /\ slept r = [] /\
   finish r = Raised LifxUnsupportedCommandError) /\
  (pkt_type header <> _STATE_UNHANDLED_PKT_TYPE ->
   forall expected,
     STATE_TYPE request = Some expected -> pkt_type header <> expected ->
     yielded r = [] /\ slept r = [] /\ finish r = Raised LifxProtocolError) /\
  (accepted (STATE_TYPE request) header ->
   exists more, yielded r = (header, body) :: more).
Proof.
  intros T R deadline r Hopen HR Hsent Hticks Hquiet Htop Hrecv Hseq.
  subst r. unfold request_stream. rewrite Hopen. simpl negb. cbv iota.
  fold T. fold R. rewrite (base_timeout_ok T HR), (range_succ HR).
  simpl request_attempts. rewrite Hsent, Hticks. fold deadline.
  rewrite (poll_responses_passes_over (STATE_TYPE request) Hquiet).
  simpl poll_responses. apply remaining_left in Htop.
  rewrite Htop, Hrecv. apply Z.eqb_eq in Hseq. rewrite Hseq. simpl negb.
  cbv iota. split; [|split].
  - intros Hunhandled. apply Z.eqb_eq in Hunhandled. rewrite Hunhandled.
    repeat split.
  - intros Hhandled expected Hexpected Htype.
    apply Z.eqb_neq in Hhandled, Htype.
    rewrite Hhandled, Hexpected, Htype. repeat split.
  - intros [Hhandled Htype]. apply Z.eqb_neq in Hhandled.
    rewrite Hhandled.
    destruct (STATE_TYPE request) as [expected|].
    + apply Z.eqb_eq in Htype. rewrite Htype. simpl. eauto.
    + simpl. eauto.
Qed.

(** A late reply to an earlier request, then the device declines. *)
Definition declined : attempt_env :=
  {| next_sequence := 9; sent := Ok tt; attempt_start := 0;
     ticks := [ {| now_top := 0; received := Ok (state_power 8, [0%Z]);
                   now_idle := 0 |};
                {| now_top := 0;
                   received :=
                     Ok ({| sequence := 9; pkt_type := 223;
                            target_serial := "d073d5123456" |}, []);
                   now_idle := 0 |} ];
     jitter := 0 |}.

Lemma first_reply_settles_request_stream_witness :
  let r := request_stream bulb {| STATE_TYPE := Some 22%Z |}
             (Some (1 # 2)) (Some 2%Z) [declined] in
  let header := {| sequence := 9; pkt_type := 223;
                   target_serial := "d073d5123456" |} in
  (pkt_type header = _STATE_UNHANDLED_PKT_TYPE ->
   yielded r = [] /\ slept r = [] /\
   finish r = Raised LifxUnsupportedCommandError) /\
  (pkt_type header <> _STATE_UNHANDLED_PKT_TYPE ->
   forall expected,
     STATE_TYPE {| STATE_TYPE := Some 22%Z |} = Some expected ->
     pkt_type header <> expected ->
     yielded r = [] /\ slept r = [] /\ finish r = Raised LifxProtocolError) /\
  (accepted (STATE_TYPE {| STATE_TYPE := Some 22%Z |}) header ->
   exists more, yielded r = (header, []) :: more).
Proof.
  apply (@first_reply_settles_request_stream bulb
           {| STATE_TYPE := Some 22%Z |} (Some (1 # 2)) (Some 2%Z)
           declined []
           [ {| now_top := 0; received := Ok (state_power 8, [0%Z]);
                now_idle := 0 |} ]
           {| now_top := 0;
              received :=
                Ok ({| sequence := 9; pkt_type := 223;
                       target_serial := "d073d5123456" |}, []);
              now_idle := 0 |} []
           {| sequence := 9; pkt_type := 223;
              target_serial := "d073d5123456" |} []).
  - reflexivity.
  - lia.
  - reflexivity.
  - reflexivity.
  - repeat constructor; simpl; try (vm_compute; reflexivity); lia.
  - vm_compute. reflexivity.
  - reflexivity.
  - reflexivity.
Defined.

(** X8.  The first packet that carries the attempt's sequence number
    settles [request_ack_stream]: after polls that were all passed
    over, a StateUnhandled packet (type 223) makes the stream raise
    [LifxUnsupportedCommandError] with nothing yielded, and a packet of
    any other type counts as the acknowledgement: the stream yields
    once and ends, without a retry. *)
Theorem first_reply_settles_request_ack_stream
    (self : _ActualConnection)
    (timeout : option Q) (retries : option Z)
    (a : attempt_env) (env : list attempt_env)
    (quiet : list poll_tick) (tick : poll_tick) (rest : list poll_tick)
    (header : LifxHeader) (body : payload) :
  let T := match timeout with Some t => t | None => default_timeout self end in
  let R := match retries with Some r => r | None => max_retries self end in
  let deadline := attempt_start a + current_timeout (T / total_weight R) 0 in
  let r := request_ack_stream self timeout retries (a :: env) in
  _is_open self = true ->
  (0 <= R)%Z ->
  sent a = Ok tt ->
  ticks a = quiet ++ tick :: rest ->
  Forall (passed_over (next_sequence a) deadline) quiet ->
  now_top tick < deadline ->
  received tick = Ok (header, body) ->
  sequence header = next_sequence a ->
  (pkt_type header = _STATE_UNHANDLED_PKT_TYPE ->
   yielded r = [] /\ slept r = [] /\
   finish r = Raised LifxUnsupportedCommandError) /\
  (pkt_type header <> _STATE_UNHANDLED_PKT_TYPE ->
   yielded r = [tt] /\ slept r = [] /\ finish r = Finished).
Proof.
  intros T R deadline r Hopen HR Hsent Hticks Hquiet Htop Hrecv Hseq.
  subst r. unfold request_ack_stream. rewrite Hopen. simpl negb. cbv iota.
  fold T. fold R. rewrite (base_timeout_ok T HR), (range_succ HR).
  simpl ack_attempts. rewrite Hsent, Hticks. fold deadline.
  rewrite (poll_ack_passes_over Hquiet).
  simpl poll_ack. apply remaining_left in Htop.
  rewrite Htop, Hrecv. apply Z.eqb_eq in Hseq. rewrite Hseq. simpl negb.
  cbv iota. split.
  - intros Hunhandled. apply Z.eqb_eq in Hunhandled. rewrite Hunhandled.
    repeat split.
  - intros Hhandled. apply Z.eqb_neq in Hhandled. rewrite Hhandled.
    repeat split.
Qed.

(** A state packet in answer to a set request acknowledges it. *)
Definition echoed_state : attempt_env :=
  {| next_sequence := 9; sent := Ok tt; attempt_start := 0;
     ticks := [ {| now_top := 0; received := Raise LifxTimeoutError;
                   now_idle := 1 # 10 |};
                {| now_top := 1 # 10;
                   received := Ok (state_power 9, [65535%Z]);
                   now_idle := 1 # 10 |} ];
     jitter := 0 |}.

Lemma first_reply_settles_request_ack_stream_witness :
  let r := request_ack_stream bulb (Some 7) (Some 2%Z) [echoed_state] in
  (pkt_type (state_power 9) = _STATE_UNHANDLED_PKT_TYPE ->
   yielded r = [] /\ slept r = [] /\
   finish r = Raised LifxUnsupportedCommandError) /\
  (pkt_type (state_power 9) <> _STATE_UNHANDLED_PKT_TYPE ->
   yielded r = [tt] /\ slept r = [] /\ finish r = Finished).
Proof.
  apply (@first_reply_settles_request_ack_stream bulb
           (Some 7) (Some 2%Z) echoed_state []
           [ {| now_top := 0; received := Raise LifxTimeoutError;
                now_idle := 1 # 10 |} ]
           {| now_top := 1 # 10;
              received := Ok (state_power 9, [65535%Z]);
              now_idle := 1 # 10 |} []
           (state_power 9) [65535%Z]).
  - reflexivity.
  - lia.
  - reflexivity.
  - reflexivity.
  - repeat constructor; simpl; vm_compute; reflexivity.
  - vm_compute. reflexivity.
  - reflexivity.
  - reflexivity.
Defined.

End RequestEngine.

(* ===================================================================== *)
(** * src/lifx/network/connection.py: the pool's metrics and shutdown *)

Module PoolFacts.

Import Connection.
Import Pool.
Import DictFacts.
Local Open Scope Z_scope.

(** [ConnectionPoolMetrics.hit_rate] (lines 66-73) *)
Definition hit_rate (m : ConnectionPoolMetrics) : Q :=
  if total_requests m >? 0
  then (inject_Z (hits m) / inject_Z (total_requests m))%Q
  else 0%Q.

(** [ConnectionPoolMetrics.avg_eviction_time_ms] (lines 75-84) *)
Definition avg_eviction_time_ms (m : ConnectionPoolMetrics) : Q :=
  match eviction_times_ms m with
  | [] => 0%Q
  | times => (Qsum times / inject_Z (Z.of_nat (List.length times)))%Q
  end.

(** [ConnectionPoolMetrics.reset] (lines 86-92) *)
Definition reset (m : ConnectionPoolMetrics) : ConnectionPoolMetrics :=
  {| hits := 0; misses := 0; evictions := 0; total_requests := 0;
     eviction_times_ms := [] |}.

(** [ConnectionPool.close_all] (lines 726-738): every pooled connection
    is closed, then the dictionary is cleared. *)
Definition close_all (w : world) : world :=
  {| pool := {| max_connections := max_connections (pool w);
                connections := [];
                metrics := metrics (pool w) |};
     objects := fold_left (fun h entry => update h (fst (snd entry)) close)
                  (connections (pool w)) (objects w) |}.

(** The calls of [get_connection] among the events. *)
Definition requests (es : list event) : Z :=
  Z.of_nat
    (List.length
       (filter (fun e => match e with
                         | GetConnection _ => true
                         | CloseConnection _ => false
                         end) es)).

(** What the counters of a pool satisfy at all times. *)
Definition counted (m : ConnectionPoolMetrics) : Prop :=
  0 <= hits m /\
  0 <= evictions m <= misses m /\
  hits m + misses m = total_requests m /\
  Z.of_nat (List.length (eviction_times_ms m)) = evictions m.

(** Every entry of the pool is keyed by the serial of its connection. *)
Definition keyed (w : world) : Prop :=
  Forall
    (fun entry =>
       option_map serial (nth_error (objects w) (fst (snd entry)))
       = Some (fst entry))
    (connections (pool w)).

(** ** The counters *)

Lemma metrics_get_connection (w : world) (a : call) :
  let m := metrics (pool w) in
  let m' := metrics (pool (snd (get_connection w a))) in
  total_requests m' = total_requests m + 1 /\
  ((hits m' = hits m + 1 /\ misses m' = misses m /\
    evictions m' = evictions m /\
    eviction_times_ms m' = eviction_times_ms m) \/
   (hits m' = hits m /\ misses m' = misses m + 1 /\
    ((evictions m' = evictions m /\
      eviction_times_ms m' = eviction_times_ms m) \/
     (evictions m' = evictions m + 1 /\
      eviction_times_ms m'
      = eviction_times_ms m ++ [eviction_time_ms a])))).
Proof.
  cbv zeta. unfold get_connection.
  assert (Hmiss : forall d h,
            let m := count_miss (count_request (metrics (pool w))) in
            let w' :=
              snd (if Z.of_nat (List.length (connections (pool w)))
                      >=? max_connections (pool w)
                   then
                     match connections (pool w) with
                     | [] => (Raise KeyError, with_pool w [] m h)
                     | (lru_serial, (old_conn, _)) :: d' =>
                         (Ok (List.length (objects w)),
                          with_pool w (d d')
                            (count_eviction (eviction_time_ms a) m)
                            (update h old_conn close))
                     end
                   else (Ok (List.length (objects w)),
                         with_pool w (d (connections (pool w))) m h)) in
            total_requests (metrics (pool w'))
            = total_requests (metrics (pool w)) + 1 /\
            hits (metrics (pool w')) = hits (metrics (pool w)) /\
            misses (metrics (pool w')) = misses (metrics (pool w)) + 1 /\
            ((evictions (metrics (pool w')) = evictions (metrics (pool w)) /\
              eviction_times_ms (metrics (pool w'))
              = eviction_times_ms (metrics (pool w))) \/
             (evictions (metrics (pool w'))
              = evictions (metrics (pool w)) + 1 /\
              eviction_times_ms (metrics (pool w'))
              = eviction_times_ms (metrics (pool w))
                  ++ [eviction_time_ms a]))).
  { intros d h. cbv zeta.
    destruct (_ >=? _); [|simpl; tauto].
    destruct (connections (pool w)) as [|[lru [old t0]] d']; simpl; tauto. }
  destruct (get (connections (pool w)) (arg_serial a)) as [[c t]|].
  - destruct (is_open (objects w) c).
    + simpl. tauto.
    + specialize (Hmiss (fun d => set d (arg_serial a)
                                    (List.length (objects w), current_time a))
                    (objects w ++
                       [open {| serial := arg_serial a; ip := arg_ip a;
                                port := arg_port a; source := arg_source a;
                                max_retries := arg_max_retries a;
                                default_timeout := arg_timeout a;
                                _is_open := false |}])).
      cbv zeta in Hmiss. tauto.
  - specialize (Hmiss (fun d => set d (arg_serial a)
                                  (List.length (objects w), current_time a))
                  (objects w ++
                     [open {| serial := arg_serial a; ip := arg_ip a;
                              port := arg_port a; source := arg_source a;
                              max_retries := arg_max_retries a;
                              default_timeout := arg_timeout a;
                              _is_open := false |}])).
    cbv zeta in Hmiss. tauto.
Qed.

Lemma counted_get_connection (w : world) (a : call) :
  counted (metrics (pool w)) ->
  counted (metrics (pool (snd (get_connection w a)))).
Proof.
  intros (Hhits & Hev & Hsum & Hlen).
  destruct (metrics_get_connection w a)
    as (Htotal & [(Hh & Hm & He & Ht)|(Hh & Hm & [[He Ht]|[He Ht]])]);
    unfold counted; rewrite ?Ht, ?length_app; simpl; lia.
Qed.

Lemma counted_run (es : list event) :
  forall w,
    counted (metrics (pool w)) ->
    counted (metrics (pool (run w es))) /\
    total_requests (metrics (pool (run w es)))
    = total_requests (metrics (pool w)) + requests es.
Proof.
  unfold requests.
  induction es as [|e es IH]; intros w Hw.
  - simpl. split; [assumption|lia].
  - destruct e as [a|c].
    + change (run w (GetConnection a :: es))
        with (run (snd (get_connection w a)) es).
      destruct (IH (snd (get_connection w a))
                  (counted_get_connection w a Hw)) as [Hinv Htotal].
      split; [assumption|]. rewrite Htotal.
      destruct (metrics_get_connection w a) as [Hone _].
      cbv zeta in Hone. simpl filter. simpl List.length. lia.
    + change (run w (CloseConnection c :: es))
        with (run {| pool := pool w;
                     objects := update (objects w) c close |} es).
      apply (IH {| pool := pool w;
                   objects := update (objects w) c close |} Hw).
Qed.

Lemma counted_create (N : Z) : counted (metrics (pool (create N))).
Proof. unfold counted. simpl. lia. Qed.

(** X9.  The counters of a pool agree at all times: after any sequence
    of [get_connection] calls (and of connections being closed by
    their holders), total_requests is the number of calls made, every
    call was counted as a hit or as a miss (hits + misses =
    total_requests), evictions never exceed misses, and one eviction
    time is recorded per eviction. *)
Theorem pool_counters_agree (N : Z) (es : list event) :
  total_requests (metrics (pool (run (create N) es))) = requests es /\
  hits (metrics (pool (run (create N) es)))
    + misses (metrics (pool (run (create N) es)))
  = total_requests (metrics (pool (run (create N) es))) /\
  0 <= hits (metrics (pool (run (create N) es))) /\
  0 <= evictions (metrics (pool (run (create N) es)))
    <= misses (metrics (pool (run (create N) es))) /\
  Z.of_nat
    (List.length (eviction_times_ms (metrics (pool (run (create N) es)))))
  = evictions (metrics (pool (run (create N) es))).
Proof.
  destruct (counted_run es (create N) (counted_create N))
    as [(Hhits & Hev & Hsum & Hlen) Htotal].
  simpl in Htotal. repeat split; try assumption; lia.
Qed.

(** X10.  The hit rate of a pool is a fraction at all times: after any
    sequence of calls, [hit_rate] lies between 0 and 1. *)
Theorem hit_rate_is_a_fraction (N : Z) (es : list event) :
  (0 <= hit_rate (metrics (pool (run (create N) es))) <= 1)%Q.
Proof.
  destruct (counted_run es (create N) (counted_create N))
    as [(Hhits & Hev & Hsum & Hlen) _].
  unfold hit_rate.
  set (m := metrics (pool (run (create N) es))) in *.
  destruct (Z.gtb_spec (total_requests m) 0) as [Hpos|Hzero].
  - assert (Hq : (0 < inject_Z (total_requests m))%Q).
    { rewrite (Zlt_Qlt 0 (total_requests m)) in Hpos. exact Hpos. }
    split.
    + apply Qle_shift_div_l; [assumption|].
      rewrite Qmult_0_l. rewrite (Zle_Qle 0 (hits m)) in Hhits. exact Hhits.
    + apply Qle_shift_div_r; [assumption|].
      rewrite Qmult_1_l. rewrite <- Zle_Qle. lia.
  - split; discriminate.
Qed.

(** ** A pool without capacity *)

Lemma empty_pool_get_connection (w : world) (a : call) :
  max_connections (pool w) <= 0 ->
  connections (pool w) = [] ->
  get_connection w a
  = (Raise KeyError,
     with_pool w [] (count_miss (count_request (metrics (pool w))))
       (objects w ++
          [open {| serial := arg_serial a; ip := arg_ip a;
                   port := arg_port a; source := arg_source a;
                   max_retries := arg_max_retries a;
                   default_timeout := arg_timeout a;
                   _is_open := false |}])).
Proof.
  intros Hmax Hempty. unfold get_connection. rewrite Hempty. simpl.
  destruct (Z.geb_spec 0 (max_connections (pool w))); [reflexivity|lia].
Qed.

Lemma empty_pool_run (es : list event) :
  forall w,
    max_connections (pool w) <= 0 ->
    connections (pool w) = [] ->
    max_connections (pool (run w es)) = max_connections (pool w) /\
    connections (pool (run w es)) = [].
Proof.
  induction es as [|e es IH]; intros w Hmax Hempty.
  - split; [reflexivity|assumption].
  - destruct e as [a|c].
    + change (run w (GetConnection a :: es))
        with (run (snd (get_connection w a)) es).
      rewrite (empty_pool_get_connection w a Hmax Hempty). simpl snd.
      apply (IH (with_pool w [] _ _)); [exact Hmax|reflexivity].
    + change (run w (CloseConnection c :: es))
        with (run {| pool := pool w;
                     objects := update (objects w) c close |} es).
      apply (IH {| pool := pool w;
                   objects := update (objects w) c close |});
        assumption.
Qed.

(** X11.  A pool created with max_connections <= 0 serves nobody: every
    call of [get_connection], at any time, counts a miss, opens a new
    connection and then raises [KeyError] when it pops the least
    recently used entry of the empty dictionary; the pool stays empty
    and the connection that was opened stays open. *)
Theorem pool_without_capacity_raises_KeyError
    (N : Z) (es : list event) (a : call) :
  N <= 0 ->
  fst (get_connection (run (create N) es) a) = Raise KeyError /\
  connections (pool (snd (get_connection (run (create N) es) a))) = [] /\
  misses (metrics (pool (snd (get_connection (run (create N) es) a))))
  = misses (metrics (pool (run (create N) es))) + 1 /\
  is_open (objects (snd (get_connection (run (create N) es) a)))
    (List.length (objects (run (create N) es))) = true.
Proof.
  intros HN.
  destruct (empty_pool_run es (create N) HN eq_refl) as [Hmax Hempty].
  simpl in Hmax.
  rewrite (empty_pool_get_connection (run (create N) es) a);
    [|lia|assumption].
  simpl. repeat split.
  unfold is_open. rewrite nth_error_app2 by lia.
  rewrite Nat.sub_diag. reflexivity.
Qed.

Lemma pool_without_capacity_raises_KeyError_witness :
  fst (get_connection (run (create 0) [GetConnection (request_for S1)])
         (request_for S2)) = Raise KeyError /\
  connections
    (pool (snd (get_connection
                  (run (create 0) [GetConnection (request_for S1)])
                  (request_for S2)))) = [] /\
  misses
    (metrics
       (pool (snd (get_connection
                     (run (create 0) [GetConnection (request_for S1)])
                     (request_for S2)))))
  = misses (metrics (pool (run (create 0)
                             [GetConnection (request_for S1)]))) + 1 /\
  is_open
    (objects (snd (get_connection
                     (run (create 0) [GetConnection (request_for S1)])
                     (request_for S2))))
    (List.length
       (objects (run (create 0) [GetConnection (request_for S1)])))
  = true.
Proof.
  apply (@pool_without_capacity_raises_KeyError 0
           [GetConnection (request_for S1)] (request_for S2)).
  lia.
Defined.

(** ** The connection a call returns *)

Definition entry_keyed (h : heap) (entry : string * (ref * Q)) : Prop :=
  option_map serial (nth_error h (fst (snd entry))) = Some (fst entry).

Lemma serial_close (conn : _ActualConnection) :
  serial (close conn) = serial conn.
Proof. unfold close. destruct (negb (_is_open conn)); reflexivity. Qed.

Lemma serial_update_close (h : heap) (c c' : ref) :
  option_map serial (nth_error (update h c close) c')
  = option_map serial (nth_error h c').
Proof.
  destruct (Nat.eq_dec c' c) as [->|Hne].
  - rewrite nth_error_update_same.
    destruct (nth_error h c) as [conn|]; simpl; [|reflexivity].
    rewrite serial_close. reflexivity.
  - rewrite nth_error_update_other by assumption. reflexivity.
Qed.

Lemma entry_keyed_app (h : heap) (conn : _ActualConnection) entry :
  entry_keyed h entry -> entry_keyed (h ++ [conn]) entry.
Proof.
  unfold entry_keyed. intros H.
  destruct (nth_error h (fst (snd entry))) as [o|] eqn:Hnth;
    [|discriminate].
  rewrite nth_error_app1; [rewrite Hnth; assumption|].
  apply nth_error_Some. congruence.
Qed.

Lemma entry_keyed_update (h : heap) (c : ref) entry :
  entry_keyed h entry -> entry_keyed (update h c close) entry.
Proof.
  unfold entry_keyed. rewrite serial_update_close. trivial.
Qed.

Lemma Forall_set {V : Type} (P : string * V -> Prop) (d : dict V)
    (k : string) (v : V) :
  Forall P d -> P (k, v) -> Forall P (set d k v).
Proof.
  intros Hd Hnew. induction Hd as [|[k' v'] d Hhd Htl IH]; simpl.
  - repeat constructor. assumption.
  - destruct (String.eqb_spec k k') as [<-|Hne]; constructor; assumption.
Qed.

Lemma Forall_del {V : Type} (P : string * V -> Prop) (d : dict V)
    (k : string) :
  Forall P d -> Forall P (del d k).
Proof.
  intros Hd. induction Hd as [|[k' v'] d Hhd Htl IH]; simpl.
  - constructor.
  - destruct (String.eqb k k'); [assumption|constructor; assumption].
Qed.

Lemma get_Some_In {V : Type} (d : dict V) (k : string) (v : V) :
  get d k = Some v -> In (k, v) d.
Proof.
  induction d as [|[k' v'] d IH]; simpl; intros Hget.
  - discriminate.
  - destruct (String.eqb_spec k k') as [->|Hne].
    + injection Hget as ->. now left.
    + right. apply IH. assumption.
Qed.

Lemma get_app_absent {V : Type} (d1 d2 : dict V) (k : string) :
  get d1 k = None -> get (d1 ++ d2) k = get d2 k.
Proof.
  induction d1 as [|[k' v'] d1 IH]; simpl; intros Hget.
  - reflexivity.
  - destruct (String.eqb k k'); [discriminate|apply IH; assumption].
Qed.

(** What a call of [get_connection] on a pool with room for at least
    one connection returns and leaves behind. *)
Lemma get_connection_serves (N : Z) (w : world) (a : call) :
  0 < N -> inv N w -> keyed w ->
  keyed (snd (get_connection w a)) /\
  exists c,
    fst (get_connection w a) = Ok c /\
    is_open (objects (snd (get_connection w a))) c = true /\
    get (connections (pool (snd (get_connection w a)))) (arg_serial a)
    = Some (c, current_time a) /\
    option_map serial (nth_error (objects (snd (get_connection w a))) c)
    = Some (arg_serial a).
Proof.
  intros HN (Hmax & Hsize & Hnd & Hrefs) Hkeyed.
  unfold pooled in Hsize. unfold keyed in *. unfold get_connection.
  set (hit := match get (connections (pool w)) (arg_serial a) with
              | Some (conn, _) =>
                  if is_open (objects w) conn then Some conn else None
              | None => None
              end).
  assert (Hhit : forall conn, hit = Some conn ->
            is_open (objects w) conn = true /\
            exists t, get (connections (pool w)) (arg_serial a)
                      = Some (conn, t)).
  { intros conn. unfold hit.
    destruct (get (connections (pool w)) (arg_serial a)) as [[c t]|];
      [|discriminate].
    destruct (is_open (objects w) c) eqn:Hopen; [|discriminate].
    intros [= ->]. eauto. }
  set (new := open {| serial := arg_serial a; ip := arg_ip a;
                      port := arg_port a; source := arg_source a;
                      max_retries := arg_max_retries a;
                      default_timeout := arg_timeout a;
                      _is_open := false |}).
  assert (Hnew : nth_error (objects w ++ [new]) (List.length (objects w))
                 = Some new).
  { rewrite nth_error_app2 by lia. rewrite Nat.sub_diag. reflexivity. }
  destruct hit as [conn|].
  - destruct (Hhit conn eq_refl) as (Hopen & t & Hget).
    rewrite (set_move_to_end _ _ _ Hget). simpl.
    assert (Hentry : entry_keyed (objects w)
                       (arg_serial a, (conn, current_time a))).
    { apply get_Some_In in Hget.
      rewrite Forall_forall in Hkeyed. apply (Hkeyed _ Hget). }
    split.
    + apply Forall_app. split; [apply Forall_del; assumption|].
      repeat constructor. assumption.
    + exists conn. repeat split; [assumption| |assumption].
      rewrite get_app_absent by apply get_del_same.
      simpl. rewrite String.eqb_refl. reflexivity.
  - clear Hhit.
    destruct (Z.geb_spec (Z.of_nat (List.length (connections (pool w))))
                (max_connections (pool w))) as [Hfull|Hroom].
    + destruct (connections (pool w)) as [|[lru [old t]] rest] eqn:Hd.
      { simpl in Hfull. lia. }
      simpl. inversion Hkeyed as [|? ? _ Hrest]; subst.
      inversion Hrefs as [|? ? Hold _]; subst. simpl in Hold.
      assert (Hserial :
                option_map serial
                  (nth_error (update (objects w ++ [new]) old close)
                     (List.length (objects w)))
                = Some (arg_serial a)).
      { rewrite serial_update_close, Hnew. reflexivity. }
      split.
      * apply Forall_set; [|exact Hserial].
        eapply Forall_impl; [|exact Hrest].
        intros entry He. apply entry_keyed_update, entry_keyed_app.
        assumption.
      * exists (List.length (objects w)).
        repeat split; [|apply get_set_same|exact Hserial].
        unfold is_open. rewrite nth_error_update_other by lia.
        rewrite Hnew. reflexivity.
    + simpl. split.
      * apply Forall_set.
        -- eapply Forall_impl; [|exact Hkeyed].
           intros entry He. apply entry_keyed_app. assumption.
        -- unfold entry_keyed. simpl. rewrite Hnew. reflexivity.
      * exists (List.length (objects w)).
        repeat split; [|apply get_set_same|rewrite Hnew; reflexivity].
        unfold is_open. rewrite Hnew. reflexivity.
Qed.

Lemma keyed_run (N : Z) (es : list event) :
  0 < N ->
  forall w, inv N w -> keyed w -> keyed (run w es).
Proof.
  intros HN. induction es as [|e es IH]; intros w Hinv Hkeyed.
  - assumption.
  - change (run w (e :: es)) with (run (step w e) es).
    apply IH; [apply inv_step; assumption|].
    destruct e as [a|c]; simpl.
    + apply (get_connection_serves a HN Hinv Hkeyed).
    + unfold keyed in *. simpl. eapply Forall_impl; [|exact Hkeyed].
      intros entry He. apply entry_keyed_update. assumption.
Qed.

(** X12.  On a pool with capacity N >= 1, at any time, a call of
    [get_connection] for a serial returns a connection that is open,
    that belongs to the device with that serial, and that the pool now
    holds under that serial with the time of the call. *)
Theorem get_connection_returns_open_pooled_connection
    (N : Z) (es : list event) (a : call) :
  0 < N ->
  exists c,
    fst (get_connection (run (create N) es) a) = Ok c /\
    is_open (objects (snd (get_connection (run (create N) es) a))) c
    = true /\
    get (connections (pool (snd (get_connection (run (create N) es) a))))
      (arg_serial a) = Some (c, current_time a) /\
    option_map serial
      (nth_error (objects (snd (get_connection (run (create N) es) a))) c)
    = Some (arg_serial a).
Proof.
  intros HN.
  assert (Hinv : inv N (run (create N) es))
    by (apply inv_run, inv_create; lia).
  assert (Hkeyed : keyed (run (create N) es)).
  { apply (keyed_run es HN); [apply inv_create; lia|constructor]. }
  apply (get_connection_serves a HN Hinv Hkeyed).
Qed.

Lemma get_connection_returns_open_pooled_connection_witness :
  exists c,
    fst (get_connection two_pooled (request_for S3)) = Ok c /\
    is_open (objects (snd (get_connection two_pooled (request_for S3)))) c
    = true /\
    get (connections (pool (snd (get_connection two_pooled
                                   (request_for S3)))))
      (arg_serial (request_for S3))
    = Some (c, current_time (request_for S3)) /\
    option_map serial
      (nth_error
         (objects (snd (get_connection two_pooled (request_for S3)))) c)
    = Some (arg_serial (request_for S3)).
Proof.
  apply (@get_connection_returns_open_pooled_connection 2
           [GetConnection (request_for S1); GetConnection (request_for S2)]
           (request_for S3)).
  lia.
Defined.

(** ** Shutdown *)

Lemma length_close_entries (d : dict (ref * Q)) :
  forall h,
    List.length
      (fold_left (fun h entry => update h (fst (snd entry)) close) d h)
    = List.length h.
Proof.
  induction d as [|entry d IH]; intros h; simpl.
  - reflexivity.
  - rewrite IH. apply length_update.
Qed.

Lemma closed_stays_closed (h : heap) (c c' : ref) :
  is_open h c = false -> is_open (update h c' close) c = false.
Proof.
  intros Hclosed. destruct (Nat.eq_dec c c') as [->|Hne].
  - apply is_open_update_close.
  - unfold is_open. rewrite nth_error_update_other by assumption.
    exact Hclosed.
Qed.

Lemma close_entries_closed (d : dict (ref * Q)) :
  forall h c,
    is_open h c = false ->
    is_open
      (fold_left (fun h entry => update h (fst (snd entry)) close) d h) c
    = false.
Proof.
  induction d as [|entry d IH]; intros h c Hclosed; simpl.
  - assumption.
  - apply IH. apply closed_stays_closed. assumption.
Qed.

Lemma close_entries_closes (d : dict (ref * Q)) :
  forall h k c t,
    In (k, (c, t)) d ->
    is_open
      (fold_left (fun h entry => update h (fst (snd entry)) close) d h) c
    = false.
Proof.
  induction d as [|entry d IH]; intros h k c t Hin; simpl.
  - contradiction.
  - destruct Hin as [->|Hin].
    + apply close_entries_closed. simpl. apply is_open_update_close.
    + apply (IH _ k c t Hin).
Qed.

Lemma close_entries_keeps (d : dict (ref * Q)) :
  forall h c,
    (forall k t, ~ In (k, (c, t)) d) ->
    nth_error
      (fold_left (fun h entry => update h (fst (snd entry)) close) d h) c
    = nth_error h c.
Proof.
  induction d as [|[k0 [c0 t0]] d IH]; intros h c Hout; simpl.
  - reflexivity.
  - rewrite IH.
    + apply nth_error_update_other. intros ->.
      apply (Hout k0 t0). now left.
    + intros k t Hin. apply (Hout k t). now right.
Qed.

(** X13.  [close_all] closes every connection the pool holds and empties
    the pool; it touches no connection that is not pooled and keeps
    the metrics.  The pool then starts cold: on a pool with room for at
    least one connection the next call of [get_connection] is a miss
    that creates a new connection. *)
Theorem close_all_closes_the_pooled_connections (w : world) :
  connections (pool (close_all w)) = [] /\
  metrics (pool (close_all w)) = metrics (pool w) /\
  (forall k c t,
      In (k, (c, t)) (connections (pool w)) ->
      is_open (objects (close_all w)) c = false) /\
  (forall c,
      (forall k t, ~ In (k, (c, t)) (connections (pool w))) ->
      nth_error (objects (close_all w)) c = nth_error (objects w) c) /\
  (forall a,
      0 < max_connections (pool w) ->
      fst (get_connection (close_all w) a) = Ok (List.length (objects w)) /\
      misses (metrics (pool (snd (get_connection (close_all w) a))))
      = misses (metrics (pool w)) + 1).
Proof.
  split; [reflexivity|]. split; [reflexivity|]. split; [|split].
  - intros k c t Hin. unfold close_all. simpl.
    apply (close_entries_closes _ _ _ _ _ Hin).
  - intros c Hout. unfold close_all. simpl.
    apply close_entries_keeps. assumption.
  - intros a Hroom. unfold get_connection, close_all. simpl.
    destruct (Z.geb_spec 0 (max_connections (pool w))) as [Hfull|_];
      [lia|].
    simpl. rewrite length_close_entries. split; reflexivity.
Qed.

(** ** The average eviction time *)

Lemma Qsum_between (lo hi : Q) (times : list Q) :
  Forall (fun t => (lo <= t <= hi)%Q) times ->
  (inject_Z (Z.of_nat (List.length times)) * lo <= Qsum times
   <= inject_Z (Z.of_nat (List.length times)) * hi)%Q.
Proof.
  induction 1 as [|t times [Hlo Hhi] _ [IHlo IHhi]].
  - simpl. split; rewrite Qmult_0_l; apply Qle_refl.
  - change (Qsum (t :: times)) with (t + Qsum times)%Q.
    change (List.length (t :: times)) with (S (List.length times)).
    rewrite Nat2Z.inj_succ. unfold Z.succ. rewrite inject_Z_plus.
    rewrite !Qmult_plus_distr_l, !Qmult_1_l. split; lra.
Qed.

Lemma times_get_connection (lo hi : Q) (w : world) (a : call) :
  (lo <= eviction_time_ms a <= hi)%Q ->
  Forall (fun t => (lo <= t <= hi)%Q)
    (eviction_times_ms (metrics (pool w))) ->
  Forall (fun t => (lo <= t <= hi)%Q)
    (eviction_times_ms (metrics (pool (snd (get_connection w a))))).
Proof.
  intros Ha Hw.
  destruct (metrics_get_connection w a)
    as (_ & [(_ & _ & _ & Ht)|(_ & _ & [[_ Ht]|[_ Ht]])]);
    rewrite Ht; try assumption.
  apply Forall_app. split; [assumption|]. repeat constructor; apply Ha.
Qed.

Lemma times_run (lo hi : Q) (es : list event) :
  (forall a, In (GetConnection a) es ->
             (lo <= eviction_time_ms a <= hi)%Q) ->
  forall w,
    Forall (fun t => (lo <= t <= hi)%Q)
      (eviction_times_ms (metrics (pool w))) ->
    Forall (fun t => (lo <= t <= hi)%Q)
      (eviction_times_ms (metrics (pool (run w es)))).
Proof.
  induction es as [|e es IH]; intros Hes w Hw.
  - assumption.
  - change (run w (e :: es)) with (run (step w e) es).
    apply IH; [intros a Ha; apply Hes; now right|].
    destruct e as [a|c]; simpl; [|assumption].
    apply times_get_connection; [|assumption]. apply Hes. now left.
Qed.

(** X14.  When every eviction measured took between lo and hi
    milliseconds, the average eviction time a pool reports lies
    between lo and hi at any time after its first eviction, and is 0
    before it. *)
Theorem avg_eviction_time_within_bounds
    (N : Z) (es : list event) (lo hi : Q) :
  (forall a, In (GetConnection a) es ->
             (lo <= eviction_time_ms a <= hi)%Q) ->
  (evictions (metrics (pool (run (create N) es))) = 0 /\
   (avg_eviction_time_ms (metrics (pool (run (create N) es))) == 0)%Q) \/
  (0 < evictions (metrics (pool (run (create N) es))) /\
   (lo <= avg_eviction_time_ms (metrics (pool (run (create N) es)))
    <= hi)%Q).
Proof.
  intros Hes.
  destruct (counted_run es (create N) (counted_create N))
    as [(_ & _ & _ & Hlen) _].
  pose proof (@times_run lo hi es Hes (create N) (Forall_nil _)) as Htimes.
  unfold avg_eviction_time_ms.
  destruct (eviction_times_ms (metrics (pool (run (create N) es))))
    as [|t times] eqn:Ht.
  - left. simpl in Hlen. split; [lia|reflexivity].
  - right. split; [rewrite <- Hlen; simpl; lia|].
    destruct (Qsum_between Htimes) as [Hlow Hhigh].
    assert (Hpos : (0 < inject_Z (Z.of_nat (List.length (t :: times))))%Q).
    { rewrite <- (Zlt_Qlt 0). simpl. lia. }
    split.
    + apply Qle_shift_div_l; [assumption|].
      rewrite Qmult_comm. assumption.
    + apply Qle_shift_div_r; [assumption|].
      rewrite Qmult_comm. assumption.
Qed.

Definition slow_eviction (serial_ : string) : call :=
  {| arg_serial := serial_; arg_ip := "192.168.1.100"; arg_port := 56700;
     arg_source := None; arg_max_retries := 8; arg_timeout := 8;
     current_time := 0; eviction_time_ms := 3 # 2 |}.

Lemma avg_eviction_time_within_bounds_witness :
  (evictions
     (metrics (pool (run (create 1) [GetConnection (slow_eviction S1);
                                     GetConnection (slow_eviction S2)])))
   = 0 /\
   (avg_eviction_time_ms
      (metrics (pool (run (create 1) [GetConnection (slow_eviction S1);
                                      GetConnection (slow_eviction S2)])))
    == 0)%Q) \/
  (0 < evictions
         (metrics (pool (run (create 1)
                           [GetConnection (slow_eviction S1);
                            GetConnection (slow_eviction S2)]))) /\
   (1 <= avg_eviction_time_ms
           (metrics (pool (run (create 1)
                             [GetConnection (slow_eviction S1);
                              GetConnection (slow_eviction S2)])))
    <= 2)%Q).
Proof.
  apply (@avg_eviction_time_within_bounds 1
           [GetConnection (slow_eviction S1);
            GetConnection (slow_eviction S2)] 1%Q 2%Q).
  intros a [[= <-]|[[= <-]|[]]]; vm_compute; split; discriminate.
Defined.

End PoolFacts.

(* ===================================================================== *)
(** * src/lifx/effects/registry.py *)

Module Registry.

Inductive DeviceType : Type :=
| LIGHT
| MULTIZONE
| MATRIX.

Inductive DeviceSupport : Type :=
| RECOMMENDED
| COMPATIBLE
| NOT_SUPPORTED.

(** [EffectInfo] (lines 35-49).  The class of the effect is held by its
    name; [device_support], a dictionary keyed by the three device
    types, is the partial function of its lookups. *)
Record EffectInfo : Type := {
  name : string;
  effect_class : string;
  description : string;
  device_support : DeviceType -> option DeviceSupport
}.

(** [_classify_device] (lines 52-70) *)
Definition _classify_device (device : ConductorModel.Light) : DeviceType :=
  match ConductorModel.device device with
  | ConductorModel.MatrixLight => MATRIX
  | ConductorModel.MultiZoneLight => MULTIZONE
  | ConductorModel.PlainLight => LIGHT
  end.

(** [EffectRegistry]: the dictionary [_effects] (lines 88-90) *)
Definition EffectRegistry := dict EffectInfo.

Definition empty : EffectRegistry := [].

(** [EffectRegistry.register] (lines 92-98) *)
Definition register (self : EffectRegistry) (info : EffectInfo)
  : EffectRegistry :=
  set self (name info) info.

(** [EffectRegistry.effects] (lines 100-107) *)
Definition effects (self : EffectRegistry) : list EffectInfo :=
  map snd self.

(** [EffectRegistry.get_effect] (lines 109-118) *)
Definition get_effect (self : EffectRegistry) (name_ : string)
  : option EffectInfo :=
  get self name_.

(** [list.sort(key=...)]: a stable sort, here by insertion. *)
Fixpoint insert_by {A : Type} (key : A -> nat) (x : A) (l : list A)
  : list A :=
  match l with
  | [] => [x]
  | y :: l' => if (key x <=? key y)%nat then x :: l
               else y :: insert_by key x l'
  end.

Definition sort_by {A : Type} (key : A -> nat) (l : list A) : list A :=
  fold_right (insert_by key) [] l.

(** [info.device_support.get(device_type, DeviceSupport.NOT_SUPPORTED)] *)
Definition support_of (info : EffectInfo) (device_type : DeviceType)
  : DeviceSupport :=
  match device_support info device_type with
  | Some support => support
  | None => NOT_SUPPORTED
  end.

(** [EffectRegistry.get_effects_for_device_type] (lines 137-159) *)
Definition get_effects_for_device_type (self : EffectRegistry)
    (device_type : DeviceType) : list (EffectInfo * DeviceSupport) :=
  let results :=
    flat_map
      (fun info =>
         let support := support_of info device_type in
         match support with
         | NOT_SUPPORTED => []
         | _ => [(info, support)]
         end)
      (effects self) in
  sort_by (fun x => match snd x with
                    | RECOMMENDED => 0%nat
                    | _ => 1%nat
                    end)
    results.

(** [EffectRegistry.get_effects_for_device] (lines 120-135) *)
Definition get_effects_for_device (self : EffectRegistry)
    (device : ConductorModel.Light) : list (EffectInfo * DeviceSupport) :=
  get_effects_for_device_type self (_classify_device device).

(** The registry after the registrations [infos], in order. *)
Definition registered (infos : list EffectInfo) : EffectRegistry :=
  fold_left register infos empty.

Definition is_recommended (device_type : DeviceType) (info : EffectInfo)
  : bool :=
  match support_of info device_type with
  | RECOMMENDED => true
  | _ => false
  end.

Definition is_compatible (device_type : DeviceType) (info : EffectInfo)
  : bool :=
  match support_of info device_type with
  | COMPATIBLE => true
  | _ => false
  end.

(** The last element of [l] that satisfies [f]. *)
Definition find_last {A : Type} (f : A -> bool) (l : list A) : option A :=
  find f (rev l).

(** ** Sorting by a key with two values *)

Lemma insert_by_first {A : Type} (key : A -> nat) (x : A) (l : list A) :
  key x = 0%nat -> insert_by key x l = x :: l.
Proof.
  intros Hx. destruct l as [|y l]; simpl; [reflexivity|].
  rewrite Hx. reflexivity.
Qed.

Lemma insert_by_second {A : Type} (key : A -> nat) (x : A)
    (zeros ones : list A) :
  key x = 1%nat ->
  Forall (fun y => key y = 0%nat) zeros ->
  Forall (fun y => key y = 1%nat) ones ->
  insert_by key x (zeros ++ ones) = zeros ++ x :: ones.
Proof.
  intros Hx Hzeros Hones.
  induction Hzeros as [|y zeros Hy _ IH]; simpl.
  - destruct Hones as [|y ones Hy _]; simpl; [reflexivity|].
    rewrite Hx, Hy. reflexivity.
  - rewrite Hx, Hy. simpl. rewrite IH. reflexivity.
Qed.

Lemma sort_by_two_values {A : Type} (key : A -> nat) (l : list A) :
  (forall x, In x l -> key x = 0%nat \/ key x = 1%nat) ->
  sort_by key l
  = filter (fun x => (key x =? 0)%nat) l
      ++ filter (fun x => negb (key x =? 0)%nat) l.
Proof.
  induction l as [|x l IH]; intros Hkeys; [reflexivity|].
  simpl. rewrite IH by (intros y Hy; apply Hkeys; now right).
  destruct (Hkeys x (or_introl eq_refl)) as [Hx|Hx]; rewrite Hx; simpl.
  - apply insert_by_first. assumption.
  - apply insert_by_second; [assumption| |].
    + apply Forall_forall. intros y Hy. apply filter_In in Hy.
      destruct Hy as [_ Hy]. apply Nat.eqb_eq. assumption.
    + apply Forall_forall. intros y Hy. apply filter_In in Hy.
      destruct Hy as [Hin Hy]. apply negb_true_iff, Nat.eqb_neq in Hy.
      destruct (Hkeys y (or_intror Hin)); [contradiction|assumption].
Qed.

Lemma filter_flat_map {A B : Type} (f : A -> list B) (p : B -> bool)
    (l : list A) :
  filter p (flat_map f l) = flat_map (fun x => filter p (f x)) l.
Proof.
  induction l as [|x l IH]; simpl; [reflexivity|].
  rewrite filter_app, IH. reflexivity.
Qed.

Lemma flat_map_option {A B : Type} (keep : A -> bool) (g : A -> B)
    (f : A -> list B) (l : list A) :
  (forall x, f x = if keep x then [g x] else []) ->
  flat_map f l = map g (filter keep l).
Proof.
  intros Hf. induction l as [|x l IH]; simpl; [reflexivity|].
  rewrite Hf, IH. destruct (keep x); reflexivity.
Qed.

(** X15.  [get_effects_for_device_type] lists the effects whose support
    for the device type is RECOMMENDED, in the order of their
    registration, and after them the effects whose support is
    COMPATIBLE, in the order of their registration; an effect that is
    NOT_SUPPORTED for the type, or says nothing about it, is not
    listed. *)
Theorem get_effects_for_device_type_recommended_first
    (self : EffectRegistry) (device_type : DeviceType) :
  get_effects_for_device_type self device_type
  = map (fun info => (info, RECOMMENDED))
      (filter (is_recommended device_type) (effects self))
    ++ map (fun info => (info, COMPATIBLE))
         (filter (is_compatible device_type) (effects self)).
Proof.
  unfold get_effects_for_device_type.
  rewrite sort_by_two_values.
  - rewrite !filter_flat_map. f_equal.
    + apply flat_map_option. intros info.
      unfold is_recommended. destruct (support_of info device_type);
        reflexivity.
    + apply flat_map_option. intros info.
      unfold is_compatible. destruct (support_of info device_type);
        reflexivity.
  - intros [info support] _. simpl. destruct support; auto.
Qed.

(** ** Registration *)

Lemma find_app_last {A : Type} (f : A -> bool) (l : list A) (x : A) :
  find f (l ++ [x]) = match find f l with
                      | Some y => Some y
                      | None => if f x then Some x else None
                      end.
Proof.
  induction l as [|y l IH]; simpl.
  - reflexivity.
  - destruct (f y); [reflexivity|assumption].
Qed.

Lemma get_registrations (infos : list EffectInfo) :
  forall (self : EffectRegistry) (name_ : string),
    get (fold_left register infos self) name_
    = match find_last (fun info => String.eqb name_ (name info)) infos with
      | Some info => Some info
      | None => get self name_
      end.
Proof.
  unfold find_last.
  induction infos as [|info infos IH]; intros self name_.
  - reflexivity.
  - simpl. rewrite IH, find_app_last.
    destruct (find _ (rev infos)) as [later|]; [reflexivity|].
    unfold register.
    destruct (String.eqb_spec name_ (name info)) as [->|Hne].
    + apply DictFacts.get_set_same.
    + apply DictFacts.get_set_other. assumption.
Qed.

Lemma NoDup_registrations (infos : list EffectInfo) :
  forall self : EffectRegistry,
    NoDup (keys self) -> NoDup (keys (fold_left register infos self)).
Proof.
  induction infos as [|info infos IH]; intros self Hself; simpl.
  - assumption.
  - apply IH. apply DictFacts.NoDup_keys_set. assumption.
Qed.

Lemma keys_are_names (infos : list EffectInfo) :
  forall self : EffectRegistry,
    Forall (fun entry => fst entry = name (snd entry)) self ->
    Forall (fun entry => fst entry = name (snd entry))
      (fold_left register infos self).
Proof.
  induction infos as [|info infos IH]; intros self Hself; simpl.
  - assumption.
  - apply IH. unfold register.
    apply PoolFacts.Forall_set; [assumption|reflexivity].
Qed.

(** X16.  In a registry filled by any sequence of [register] calls, the
    last registration of a name wins: [get_effect(name)] is the last
    [EffectInfo] registered under that name, and [None] for a name
    never registered; and [effects] lists no two entries with the same
    name. *)
Theorem last_registration_of_a_name_wins (infos : list EffectInfo) :
  (forall name_,
      get_effect (registered infos) name_
      = find_last (fun info => String.eqb name_ (name info)) infos) /\
  NoDup (map name (effects (registered infos))).
Proof.
  split.
  - intros name_. unfold get_effect, registered.
    rewrite get_registrations.
    destruct (find_last _ infos); reflexivity.
  - unfold effects, registered.
    pose proof (@NoDup_registrations infos empty (NoDup_nil _)) as Hnodup.
    pose proof (@keys_are_names infos empty (Forall_nil _)) as Hnames.
    unfold keys in Hnodup. rewrite map_map.
    erewrite map_ext_in; [exact Hnodup|].
    intros entry Hentry. rewrite Forall_forall in Hnames.
    symmetry. apply (Hnames _ Hentry).
Qed.

End Registry.

(* ===================================================================== *)
(** * src/lifx/effects: the colours of the frames

    What the frame generators put into the pixels: the ranges of hue,
    saturation, brightness and kelvin, the period of the scrolling
    effects, the two regions of the progress bar, and the symmetry of
    sunrise and sunset. *)

Module FrameFacts.

Import Catalog.
Local Open Scope R_scope.

Ltac lra := Lra.lra.
Ltac nra := Lra.nra.

(** [ctx] at another time. *)
Definition at_time (ctx : FrameContext) (elapsed : R) : FrameContext :=
  {| elapsed_s := elapsed;
     device_index := device_index ctx;
     pixel_count := pixel_count ctx;
     canvas_width := canvas_width ctx;
     canvas_height := canvas_height ctx |}.

(** The pixel [c] is a colour a LIFX device accepts: hue in [0, 360],
    saturation and brightness in [0, 1]. *)
Definition displayable (c : HSBK) : Prop :=
  0 <= hue c <= 360 /\ 0 <= saturation c <= 1 /\ 0 <= brightness c <= 1.

(** [fill_end] of [EffectProgress.generate_frame] (lines 202-207) *)
Definition fill_end (self : EffectProgress.t) (ctx : FrameContext) : Z :=
  let value_range := EffectProgress.end_value self
                     - EffectProgress.start_value self in
  let fill := if Rltb 0 value_range
              then (EffectProgress.position self
                    - EffectProgress.start_value self) / value_range
              else 0 in
  py_round (clamp01 fill * IZR (pixel_count ctx)).

(** ** Rounding and remainders *)

Lemma py_floor_bounds (x : R) : IZR (py_floor x) <= x < IZR (py_floor x) + 1.
Proof.
  unfold py_floor. destruct (base_Int_part x) as [Hlow Hhigh]. lra.
Qed.

Lemma py_floor_shift (x : R) (k : Z) :
  py_floor (x + IZR k) = (py_floor x + k)%Z.
Proof.
  unfold py_floor. symmetry. apply Int_part_spec.
  destruct (base_Int_part x) as [Hlow Hhigh]. rewrite plus_IZR. lra.
Qed.

Lemma py_round_between (a b : Z) (x : R) :
  IZR a <= x <= IZR b -> (a <= py_round x <= b)%Z.
Proof.
  intros [Ha Hb]. unfold py_round.
  destruct (py_floor_bounds x) as [Hlow Hhigh].
  assert (Hfa : (a <= py_floor x)%Z).
  { assert (H : IZR a < IZR (py_floor x) + 1) by lra.
    rewrite <- plus_IZR in H. apply lt_IZR in H. lia. }
  assert (Hfb : (py_floor x <= b)%Z).
  { apply le_IZR. lra. }
  assert (Hup : 1 / 2 <= x - IZR (py_floor x) -> (py_floor x + 1 <= b)%Z).
  { intros Hhalf. assert (H : IZR (py_floor x) < IZR b) by lra.
    apply lt_IZR in H. lia. }
  destruct (Rltb (x - IZR (py_floor x)) (1 / 2)) eqn:Hdown; [lia|].
  apply Rltb_false in Hdown.
  destruct (Rltb (1 / 2) (x - IZR (py_floor x)));
    [specialize (Hup Hdown); lia|].
  destruct (Z.even (py_floor x)); [lia|]. specialize (Hup Hdown). lia.
Qed.

Lemma float_mod_range (x m : R) : 0 < m -> 0 <= float_mod x m < m.
Proof.
  intros Hm. unfold float_mod.
  destruct (py_floor_bounds (x / m)) as [Hlow Hhigh].
  assert (Hx : x = m * (x / m)) by (field; lra).
  split.
  - assert (m * IZR (py_floor (x / m)) <= m * (x / m))
      by (apply Rmult_le_compat_l; lra).
    lra.
  - assert (m * (x / m) < m * (IZR (py_floor (x / m)) + 1))
      by (apply Rmult_lt_compat_l; lra).
    lra.
Qed.

Lemma float_mod_shift (x m : R) (k : Z) :
  m <> 0 -> float_mod (x + IZR k * m) m = float_mod x m.
Proof.
  intros Hm. unfold float_mod.
  replace ((x + IZR k * m) / m) with (x / m + IZR k) by (field; assumption).
  rewrite py_floor_shift, plus_IZR. ring.
Qed.

(** A hue computed as [round(h % 360)] *)
Lemma rounded_hue (x : R) : 0 <= IZR (py_round (float_mod x 360)) <= 360.
Proof.
  destruct (float_mod_range x (m := 360)) as [Hlow Hhigh]; [lra|].
  destruct (@py_round_between 0 360 (float_mod x 360)) as [H0 H360];
    [lra|].
  split; apply IZR_le; assumption.
Qed.

Lemma for_each_ext {A B : Type} (f g : A -> result B) (xs : list A) :
  (forall x, In x xs -> f x = g x) -> for_each f xs = for_each g xs.
Proof.
  induction xs as [|x xs IH]; intros Hfg; simpl.
  - reflexivity.
  - rewrite Hfg by now left. rewrite IH; [reflexivity|].
    intros y Hy. apply Hfg. now right.
Qed.

Lemma for_each_nth {A B : Type} (body : A -> result B) (xs : list A) :
  forall ys k x,
    for_each body xs = Ok ys ->
    nth_error xs k = Some x ->
    exists y, body x = Ok y /\ nth_error ys k = Some y.
Proof.
  induction xs as [|x0 xs IH]; intros ys k x Hys Hk.
  - destruct k; discriminate.
  - simpl in Hys.
    destruct (body x0) as [y0|e] eqn:Hx0; simpl in Hys; [|discriminate].
    destruct (for_each body xs) as [ys'|e]; simpl in Hys; [|discriminate].
    injection Hys as <-. destruct k as [|k]; simpl in Hk.
    + injection Hk as <-. exists y0. split; [assumption|reflexivity].
    + apply (IH ys' k x eq_refl Hk).
Qed.

Lemma nth_error_range (n i : Z) :
  (0 <= i < n)%Z -> nth_error (range n) (Z.to_nat i) = Some i.
Proof.
  intros Hi. unfold range. rewrite nth_error_map.
  rewrite nth_error_seq.
  destruct (Nat.ltb_spec (Z.to_nat i) (Z.to_nat n)) as [_|Hge]; [|lia].
  simpl. f_equal. lia.
Qed.

(** ** Flame *)

Lemma flicker_range (time seed : R) :
  5 / 24 <= EffectFlame._flicker time seed <= 19 / 24.
Proof.
  unfold EffectFlame._flicker.
  pose proof (SIN_bound (time * (37 / 10) + seed * (171 / 10))).
  pose proof (SIN_bound (time * (73 / 10) + seed * (317 / 10))).
  pose proof (SIN_bound (time * (131 / 10) + seed * (533 / 10))).
  lra.
Qed.

(** X17.  Every pixel of a frame of a flame that its constructor
    accepted has a hue between 0 and 40, a saturation between 0.85 and
    1, a brightness between 0 and 1 and a kelvin between the effect's
    kelvin_min and kelvin_max, which lie between MIN_KELVIN and
    MAX_KELVIN. *)
Theorem flame_pixels_are_warm_colors `{LifxConst}
    (power_on_ : bool) (intensity_ speed_ : R) (kelvin_min_ kelvin_max_ : Z)
    (brightness_ : R) (e : EffectFlame.t) (ctx : FrameContext)
    (frame : list HSBK) (c : HSBK) :
  EffectFlame.init power_on_ intensity_ speed_ kelvin_min_ kelvin_max_
    brightness_ = Ok e ->
  EffectFlame.generate_frame e ctx = Ok frame ->
  In c frame ->
  0 <= hue c <= 40 /\
  85 / 100 <= saturation c <= 1 /\
  0 <= brightness c <= 1 /\
  (MIN_KELVIN <= kelvin_min_ <= kelvin c)%Z /\
  (kelvin c <= kelvin_max_ <= MAX_KELVIN)%Z.
Proof.
  intros Hinit Hframe Hin.
  unfold EffectFlame.init in Hinit. invert_init Hinit.
  injection Hinit as <-.
  apply Z.ltb_ge in Hcheck1.
  rewrite Z.gtb_ltb in Hcheck2, Hcheck3.
  apply Z.ltb_ge in Hcheck2, Hcheck3.
  unfold EffectFlame.generate_frame in Hframe.
  destruct (@for_each_In _ _ _ _ _ _ Hframe Hin) as (i & _ & Hpixel).
  unfold EffectFlame.pixel in Hpixel. simpl in Hpixel.
  match type of Hpixel with
  | bind ?m _ = _ => destruct m as [pixel_brightness|ex]
  end; simpl in Hpixel; [|discriminate].
  injection Hpixel as <-. simpl.
  match goal with
  | |- context [EffectFlame._flicker ?t ?s] =>
      pose proof (flicker_range t s) as Hflicker;
      set (flicker := EffectFlame._flicker t s) in *
  end.
  assert (Hhue : (0 <= py_round (flicker * 40) <= 40)%Z)
    by (apply py_round_between; lra).
  assert (Hkelvin :
            (kelvin_min_
             <= py_round (IZR kelvin_min_
                          + flicker * IZR (kelvin_max_ - kelvin_min_))
             <= kelvin_max_)%Z).
  { apply py_round_between. rewrite minus_IZR.
    apply IZR_le in Hcheck3. nra. }
  repeat split; try lra; try lia;
    try (apply IZR_le; lia); apply clamp01_range.
Qed.

(** [EffectFlame()], the candle of the documentation *)
Definition hearth : EffectFlame.t :=
  {| EffectFlame.base := {| power_on := true; _fps := 20;
                            _duration := None |};
     EffectFlame.intensity := 7 / 10;
     EffectFlame.speed := 1;
     EffectFlame.kelvin_min := 1500;
     EffectFlame.kelvin_max := 2500;
     EffectFlame.brightness := 8 / 10 |}.

Lemma hearth_constructed :
  EffectFlame.init (H := lifx_const) true (7 / 10) 1 1500 2500 (8 / 10)
  = Ok hearth.
Proof.
  unfold EffectFlame.init, FrameEffects.init. simpl. decide_R. reflexivity.
Qed.

(** One pixel of a bulb, at the start of the effect. *)
Definition bulb_now : FrameContext :=
  {| elapsed_s := 0; device_index := 0; pixel_count := 1;
     canvas_width := 1; canvas_height := 1 |}.

Definition hearth_pixel : HSBK :=
  {| hue := IZR (py_round (EffectFlame._flicker (0 * 1) (0 / 1) * 40));
     saturation :=
       85 / 100 + 15 / 100 * (1 - EffectFlame._flicker (0 * 1) (0 / 1));
     brightness :=
       clamp01 (8 / 10 * (1 - 7 / 10
                          + 7 / 10 * EffectFlame._flicker (0 * 1) (0 / 1)));
     kelvin :=
       py_round (1500 + EffectFlame._flicker (0 * 1) (0 / 1)
                        * IZR (2500 - 1500)) |}.

Lemma hearth_frame :
  EffectFlame.generate_frame hearth bulb_now = Ok [hearth_pixel].
Proof. reflexivity. Qed.

Lemma flame_pixels_are_warm_colors_witness :
  0 <= hue hearth_pixel <= 40 /\
  85 / 100 <= saturation hearth_pixel <= 1 /\
  0 <= brightness hearth_pixel <= 1 /\
  (MIN_KELVIN (LifxConst := lifx_const) <= 1500 <= kelvin hearth_pixel)%Z /\
  (kelvin hearth_pixel <= 2500 <= MAX_KELVIN (LifxConst := lifx_const))%Z.
Proof.
  apply (@flame_pixels_are_warm_colors lifx_const true (7 / 10) 1 1500 2500
           (8 / 10) hearth bulb_now [hearth_pixel] hearth_pixel).
  - apply hearth_constructed.
  - apply hearth_frame.
  - simpl. left. reflexivity.
Defined.

(** ** Rainbow and colorloop: one period later *)

Lemma synchronized_color_turn (self : EffectColorloop.t) (degrees : R)
    (turns : Z) :
  EffectColorloop._generate_synchronized_color self
    (degrees + IZR turns * 360)
  = EffectColorloop._generate_synchronized_color self degrees.
Proof.
  unfold EffectColorloop._generate_synchronized_color.
  match goal with
  | |- bind ?m _ = _ => destruct m as [base_hue|ex]
  end; simpl; [|reflexivity].
  replace (base_hue + (degrees + IZR turns * 360))
    with (base_hue + degrees + IZR turns * 360) by ring.
  rewrite float_mod_shift by lra. reflexivity.
Qed.

Lemma spread_color_turn (self : EffectColorloop.t) (degrees : R)
    (turns index : Z) :
  EffectColorloop._generate_spread_color self (degrees + IZR turns * 360)
    index
  = EffectColorloop._generate_spread_color self degrees index.
Proof.
  unfold EffectColorloop._generate_spread_color.
  match goal with
  | |- bind ?m _ = _ => destruct m as [initial|ex]
  end; simpl; [|reflexivity].
  match goal with
  | |- context [float_mod (hue initial + (degrees + IZR turns * 360) + ?o)
                  360] =>
      replace (hue initial + (degrees + IZR turns * 360) + o)
        with (hue initial + degrees + o + IZR turns * 360) by ring
  end.
  rewrite float_mod_shift by lra. reflexivity.
Qed.

(** X18.  The scrolling effects repeat after one period: for a rainbow
    and for a colorloop (in either direction, synchronized or spread),
    the frame generated for a device at elapsed_s + period is the frame
    generated for it at elapsed_s. *)
Theorem scrolling_frames_repeat_after_a_period `{LifxConst}
    (rainbow : EffectRainbow.t) (colorloop : EffectColorloop.t)
    (ctx : FrameContext) :
  EffectRainbow.period rainbow <> 0 ->
  EffectColorloop.period colorloop <> 0 ->
  EffectRainbow.generate_frame rainbow
    (at_time ctx (elapsed_s ctx + EffectRainbow.period rainbow))
  = EffectRainbow.generate_frame rainbow ctx /\
  EffectColorloop.generate_frame colorloop
    (at_time ctx (elapsed_s ctx + EffectColorloop.period colorloop))
  = EffectColorloop.generate_frame colorloop ctx.
Proof.
  intros Hrainbow Hcolorloop. split.
  - unfold EffectRainbow.generate_frame, at_time. simpl.
    rewrite !float_div_ok by assumption. simpl.
    set (t := elapsed_s ctx). set (P := EffectRainbow.period rainbow) in *.
    assert (Hshift : forall y z,
              float_mod ((t + P) / P * 360 + y + z) 360
              = float_mod (t / P * 360 + y + z) 360).
    { intros y z.
      replace ((t + P) / P * 360 + y + z)
        with (t / P * 360 + y + z + IZR 1 * 360) by (field; assumption).
      apply float_mod_shift. lra. }
    apply for_each_ext. intros i _.
    destruct (float_div (IZR i) (IZR (pixel_count ctx))) as [fraction|ex];
      simpl; [|reflexivity].
    rewrite Hshift. reflexivity.
  - unfold EffectColorloop.generate_frame, at_time. simpl.
    destruct (EffectColorloop._initial_colors colorloop); [reflexivity|].
    rewrite !float_div_ok by assumption. simpl.
    set (t := elapsed_s ctx).
    set (P := EffectColorloop.period colorloop) in *.
    replace ((t + P) / P * 360 * IZR (EffectColorloop._direction colorloop))
      with (t / P * 360 * IZR (EffectColorloop._direction colorloop)
            + IZR (EffectColorloop._direction colorloop) * 360)
      by (field; assumption).
    rewrite synchronized_color_turn, spread_color_turn. reflexivity.
Qed.

Lemma scrolling_frames_repeat_after_a_period_witness :
  EffectRainbow.generate_frame (H := lifx_const) rainbow10
    (at_time strip16 (elapsed_s strip16 + EffectRainbow.period rainbow10))
  = EffectRainbow.generate_frame (H := lifx_const) rainbow10 strip16 /\
  EffectColorloop.generate_frame colorloop_on_two
    (at_time strip16
       (elapsed_s strip16 + EffectColorloop.period colorloop_on_two))
  = EffectColorloop.generate_frame colorloop_on_two strip16.
Proof.
  apply (@scrolling_frames_repeat_after_a_period lifx_const rainbow10
           colorloop_on_two strip16).
  - simpl. lra.
  - simpl. lra.
Defined.

(** ** Rainbow and aurora: the colours *)

(** X19.  Every pixel of a frame of a rainbow that its constructor
    accepted, and every pixel of a frame of an aurora, is a colour a
    device can display: the hue lies between 0 and 360, saturation and
    brightness between 0 and 1, and the kelvin is KELVIN_NEUTRAL.  A
    rainbow pixel has the saturation and the brightness the effect was
    built with; the saturation of an aurora pixel is at least 0.4. *)
Theorem rainbow_and_aurora_pixels_are_displayable `{LifxConst}
    (power_on_ : bool) (period_ brightness_ saturation_ spread_ : R)
    (rainbow : EffectRainbow.t) (aurora : EffectAurora.t)
    (ctx : FrameContext) :
  EffectRainbow.init power_on_ period_ brightness_ saturation_ spread_
  = Ok rainbow ->
  (forall frame c,
      EffectRainbow.generate_frame rainbow ctx = Ok frame -> In c frame ->
      displayable c /\ kelvin c = KELVIN_NEUTRAL /\
      saturation c = saturation_ /\ brightness c = brightness_) /\
  (forall frame c,
      EffectAurora.generate_frame aurora ctx = Ok frame -> In c frame ->
      displayable c /\ kelvin c = KELVIN_NEUTRAL /\
      4 / 10 <= saturation c).
Proof.
  intros Hinit. split; intros frame c Hframe Hin.
  - unfold EffectRainbow.init in Hinit. invert_init Hinit.
    injection Hinit as <-.
    apply within_check in Hcheck0, Hcheck1.
    unfold EffectRainbow.generate_frame in Hframe. simpl in Hframe.
    destruct (float_div (elapsed_s ctx) period_) as [scrolled|ex];
      simpl in Hframe; [|discriminate].
    destruct (@for_each_In _ _ _ _ _ _ Hframe Hin) as (i & _ & Hpixel).
    destruct (float_div (IZR i) (IZR (pixel_count ctx))) as [fraction|ex];
      simpl in Hpixel; [|discriminate].
    injection Hpixel as <-. unfold displayable. simpl.
    repeat split; try lra; apply rounded_hue.
  - unfold EffectAurora.generate_frame in Hframe.
    destruct (@for_each_In _ _ _ _ _ _ Hframe Hin) as (i & _ & Hpixel).
    unfold EffectAurora.pixel in Hpixel.
    match type of Hpixel with
    | bind ?m _ = _ => destruct m as [hue_|ex] eqn:Hhue
    end; simpl in Hpixel; [|discriminate].
    match type of Hpixel with
    | bind ?m _ = _ => destruct m as [pixel_brightness|ex]
    end; simpl in Hpixel; [|discriminate].
    injection Hpixel as <-. unfold displayable. simpl.
    assert (Hrange : 0 <= IZR hue_ <= 360).
    { unfold EffectAurora._palette_hue in Hhue.
      repeat match type of Hhue with
             | bind ?m _ = _ =>
                 destruct m; simpl in Hhue; [|discriminate]
             end.
      injection Hhue as <-. apply rounded_hue. }
    match goal with
    | |- context [sin ?x] => pose proof (SIN_bound x) as Hsin
    end.
    pose proof (clamp01_range pixel_brightness).
    repeat split; lra.
Qed.

Lemma rainbow_and_aurora_pixels_are_displayable_witness :
  (forall frame c,
      EffectRainbow.generate_frame (H := lifx_const) rainbow10 strip16
      = Ok frame -> In c frame ->
      displayable c /\ kelvin c = KELVIN_NEUTRAL (LifxConst := lifx_const) /\
      saturation c = 1 /\ brightness c = 8 / 10) /\
  (forall frame c,
      EffectAurora.generate_frame (H := lifx_const)
        {| EffectAurora.base := {| power_on := true; _fps := 20;
                                   _duration := None |};
           EffectAurora.speed := 1;
           EffectAurora.brightness := 8 / 10;
           EffectAurora._palette := EffectAurora._DEFAULT_PALETTE;
           EffectAurora.spread := 0 |} strip16 = Ok frame ->
      In c frame ->
      displayable c /\ kelvin c = KELVIN_NEUTRAL (LifxConst := lifx_const) /\
      4 / 10 <= saturation c).
Proof.
  apply (@rainbow_and_aurora_pixels_are_displayable lifx_const true 10
           (8 / 10) 1 0 rainbow10).
  apply rainbow10_constructed.
Defined.

(** ** Colorloop *)

Lemma frame_effect_fps (power_on_ : bool) (fps : R) (duration : option R)
    (base_ : FrameEffect) :
  FrameEffects.init power_on_ fps duration = Ok base_ ->
  _fps base_ = fps /\ _duration base_ = duration /\ 0 < fps.
Proof.
  intros Hinit. unfold FrameEffects.init in Hinit. invert_init Hinit.
  injection Hinit as <-. simpl. apply Rleb_false in Hcheck. tauto.
Qed.

Lemma colorloop_checked `{LifxConst} (e : EffectColorloop.t) :
  constructed (Colorloop e) ->
  0 <= EffectColorloop.saturation_min e /\
  EffectColorloop.saturation_min e <= EffectColorloop.saturation_max e /\
  EffectColorloop.saturation_max e <= 1 /\
  20 <= _fps (EffectColorloop.base e).
Proof.
  intros Hc. remember (Colorloop e) as effect eqn:Heq.
  revert e Heq.
  induction Hc as [| | | | e0 colors direction Hc IH | | |];
    intros e' Heq; try discriminate; injection Heq as <-.
  - match goal with
    | Hinit : EffectColorloop.init _ _ _ _ _ _ _ _ _ = Ok _ |- _ =>
        unfold EffectColorloop.init in Hinit; invert_init Hinit;
        injection Hinit as <-
    end.
    simpl. apply within_check in Hcheck3, Hcheck4.
    apply Rltb_false in Hcheck5.
    destruct (frame_effect_fps _ _ _ Hbase) as (-> & _ & _).
    repeat split; try lra.
    destruct (Rltb 0 change); [apply Rmax_l|lra].
  - simpl. apply IH. reflexivity.
Qed.

(** X20.  A colorloop, as its constructor and [async_setup] leave it,
    runs at 20 frames per second or more, and each of its frames is
    uniform: one colour, with a hue between 0 and 360 and a saturation
    between 0 and 1, repeated pixel_count times. *)
Theorem colorloop_frames_are_uniform `{LifxConst}
    (e : EffectColorloop.t) (ctx : FrameContext) (frame : list HSBK) :
  constructed (Colorloop e) ->
  EffectColorloop.generate_frame e ctx = Ok frame ->
  20 <= _fps (EffectColorloop.base e) /\
  exists color,
    frame = replicate color (pixel_count ctx) /\
    0 <= hue color <= 360 /\
    0 <= saturation color <= 1.
Proof.
  intros Hc Hframe.
  destruct (colorloop_checked Hc) as (Hmin & Horder & Hmax & Hfps).
  split; [assumption|].
  unfold EffectColorloop.generate_frame in Hframe.
  destruct (EffectColorloop._initial_colors e) as [|c0 colors] eqn:Hcolors.
  - injection Hframe as <-. eexists. split; [reflexivity|]. simpl. lra.
  - destruct (float_div (elapsed_s ctx) (EffectColorloop.period e))
      as [turns|ex]; simpl in Hframe; [|discriminate].
    match type of Hframe with
    | bind ?m _ = _ => destruct m as [color|ex] eqn:Hcolor
    end; simpl in Hframe; [|discriminate].
    injection Hframe as <-. exists color. split; [reflexivity|].
    destruct (EffectColorloop.synchronized e).
    + unfold EffectColorloop._generate_synchronized_color in Hcolor.
      repeat match type of Hcolor with
             | bind ?m _ = _ =>
                 destruct m; simpl in Hcolor; [|discriminate]
             end.
      injection Hcolor as <-. simpl. split; [apply rounded_hue|lra].
    + unfold EffectColorloop._generate_spread_color in Hcolor.
      repeat match type of Hcolor with
             | bind ?m _ = _ =>
                 destruct m; simpl in Hcolor; [|discriminate]
             end.
      injection Hcolor as <-. simpl. split; [apply rounded_hue|lra].
Qed.

Lemma colorloop_frames_are_uniform_witness :
  20 <= _fps (EffectColorloop.base colorloop_on_two) /\
  exists color,
    replicate
      {| hue := IZR (py_round
                       (float_mod
                          (0 + 5 / 60 * 360 * 1 + float_mod (0 * 30) 360)
                          360));
         saturation := (8 / 10 + 1) / 2;
         brightness := 8 / 10;
         kelvin := 2700 |} 16
    = replicate color (pixel_count strip16) /\
    0 <= hue color <= 360 /\
    0 <= saturation color <= 1.
Proof.
  apply (@colorloop_frames_are_uniform lifx_const colorloop_on_two strip16).
  - apply constructed_colorloop_setup.
    eapply constructed_colorloop. apply colorloop_fresh_constructed.
  - unfold EffectColorloop.generate_frame. simpl.
    rewrite float_div_ok by lra. reflexivity.
Defined.

(** ** Progress *)

(** X21.  A progress bar has two regions.  With pixel_count >= 0, the
    bar is filled up to [fill_end], a number of pixels between 0 and
    pixel_count; from there on every pixel is the background colour;
    before it, with a single foreground colour, every pixel has the
    hue, saturation and kelvin of the foreground and a brightness
    between 0 and 1.  The bar is empty (fill_end = 0) when the position
    is at or below start_value, and full (fill_end = pixel_count) when
    it is at or above end_value. *)
Theorem progress_bar_has_two_regions
    (e : EffectProgress.t) (ctx : FrameContext) (frame : list HSBK) :
  (0 <= pixel_count ctx)%Z ->
  EffectProgress.generate_frame e ctx = Ok frame ->
  (0 <= fill_end e ctx <= pixel_count ctx)%Z /\
  (forall i, (0 <= i)%Z -> (fill_end e ctx <= i < pixel_count ctx)%Z ->
             nth_error frame (Z.to_nat i)
             = Some (EffectProgress.background e)) /\
  (forall i fg,
      (0 <= i < fill_end e ctx)%Z ->
      EffectProgress.foreground e = inl fg ->
      exists c,
        nth_error frame (Z.to_nat i) = Some c /\
        hue c = hue fg /\ saturation c = saturation fg /\
        kelvin c = kelvin fg /\ 0 <= brightness c <= 1) /\
  (EffectProgress.position e <= EffectProgress.start_value e ->
   fill_end e ctx = 0%Z) /\
  (EffectProgress.start_value e < EffectProgress.end_value e ->
   EffectProgress.end_value e <= EffectProgress.position e ->
   fill_end e ctx = pixel_count ctx).
Proof.
  intros Hpixels Hframe.
  assert (Hn : 0 <= IZR (pixel_count ctx)) by (apply IZR_le; assumption).
  assert (Hround : forall fill,
            (0 <= py_round (clamp01 fill * IZR (pixel_count ctx))
             <= pixel_count ctx)%Z).
  { intros fill. pose proof (clamp01_range fill).
    apply py_round_between. split; nra. }
  assert (Hzero : forall x, x = 0 -> py_round x = 0%Z).
  { intros x ->.
    assert (0 <= py_round 0 <= 0)%Z by (apply py_round_between; lra).
    lia. }
  assert (Hfull : forall x, x = IZR (pixel_count ctx) ->
                            py_round x = pixel_count ctx).
  { intros x ->.
    assert (pixel_count ctx <= py_round (IZR (pixel_count ctx))
            <= pixel_count ctx)%Z by (apply py_round_between; lra).
    lia. }
  split; [apply Hround|].
  unfold EffectProgress.generate_frame in Hframe. cbv zeta in Hframe.
  fold (fill_end e ctx) in Hframe.
  split; [|split; [|split]].
  - intros i Hi0 Hi.
    destruct (for_each_nth _ _ _ Hframe (nth_error_range (n := pixel_count ctx)
                                           (i := i) ltac:(lia)))
      as (c & Hbody & Hnth).
    destruct (Z.ltb_spec i (fill_end e ctx)) as [Hlt|_]; [lia|].
    injection Hbody as <-. assumption.
  - intros i fg Hi Hfg.
    destruct (Hround (if Rltb 0 (EffectProgress.end_value e
                                 - EffectProgress.start_value e)
                      then (EffectProgress.position e
                            - EffectProgress.start_value e)
                           / (EffectProgress.end_value e
                              - EffectProgress.start_value e)
                      else 0)) as [_ Hle].
    fold (fill_end e ctx) in Hle.
    destruct (for_each_nth _ _ _ Hframe (nth_error_range (n := pixel_count ctx)
                                           (i := i) ltac:(lia)))
      as (c & Hbody & Hnth).
    destruct (Z.ltb_spec i (fill_end e ctx)) as [_|Hge]; [|lia].
    unfold EffectProgress._foreground_at in Hbody. rewrite Hfg in Hbody.
    simpl in Hbody. injection Hbody as <-.
    eexists. split; [exact Hnth|]. simpl.
    repeat split; apply clamp01_range.
  - intros Hempty. unfold fill_end. cbv zeta. apply Hzero.
    destruct (Rltb 0 (EffectProgress.end_value e
                      - EffectProgress.start_value e)) eqn:Hrange.
    + apply Rltb_true in Hrange.
      assert (Hfill : (EffectProgress.position e
                       - EffectProgress.start_value e)
                      / (EffectProgress.end_value e
                         - EffectProgress.start_value e) <= 0).
      { pose proof (Rinv_0_lt_compat _ Hrange) as Hinv.
        unfold Rdiv. nra. }
      unfold clamp01. rewrite Rmin_right by lra.
      rewrite Rmax_left by lra. ring.
    + rewrite clamp01_id by lra. ring.
  - intros Hrange Hdone. unfold fill_end. cbv zeta. apply Hfull.
    assert (Hb : Rltb 0 (EffectProgress.end_value e
                         - EffectProgress.start_value e) = true)
      by (apply Rltb_true; lra).
    rewrite Hb.
    assert (Hfill : 1 <= (EffectProgress.position e
                          - EffectProgress.start_value e)
                         / (EffectProgress.end_value e
                            - EffectProgress.start_value e)).
    { apply Rmult_le_reg_r
        with (EffectProgress.end_value e - EffectProgress.start_value e);
        [lra|].
      unfold Rdiv. rewrite Rmult_assoc, Rinv_l by lra. lra. }
    unfold clamp01. rewrite Rmin_left by lra.
    rewrite Rmax_right by lra. ring.
Qed.

Lemma py_round_IZR (z : Z) : py_round (IZR z) = z.
Proof.
  assert (z <= py_round (IZR z) <= z)%Z by (apply py_round_between; lra).
  lia.
Qed.

(** [EffectProgress(position=0)]: nothing done yet. *)
Definition not_started : EffectProgress.t :=
  {| EffectProgress.base := {| power_on := true; _fps := 20;
                               _duration := None |};
     EffectProgress.start_value := 0;
     EffectProgress.end_value := 100;
     EffectProgress.position := 0;
     EffectProgress.foreground := inl (GREEN (LifxConst := lifx_const));
     EffectProgress.background := {| hue := 0; saturation := 0;
                                     brightness := 5 / 100;
                                     kelvin := 3500 |};
     EffectProgress.spot_brightness := 1;
     EffectProgress.spot_width := 15 / 100;
     EffectProgress.spot_speed := 1 |}.

Definition strip2 : FrameContext :=
  {| elapsed_s := 0; device_index := 0; pixel_count := 2;
     canvas_width := 2; canvas_height := 1 |}.

Lemma not_started_fill_end : fill_end not_started strip2 = 0%Z.
Proof.
  unfold fill_end. simpl.
  replace (clamp01 (if Rltb 0 (100 - 0) then (0 - 0) / (100 - 0) else 0)
           * 2) with (IZR 0).
  - apply py_round_IZR.
  - assert (Hb : Rltb 0 (100 - 0) = true) by (apply Rltb_true; lra).
    rewrite Hb. rewrite clamp01_id by lra. lra.
Qed.

Lemma not_started_frame :
  EffectProgress.generate_frame not_started strip2
  = Ok [EffectProgress.background not_started;
        EffectProgress.background not_started].
Proof.
  unfold EffectProgress.generate_frame. cbv zeta.
  fold (fill_end not_started strip2). rewrite not_started_fill_end.
  reflexivity.
Qed.

Lemma progress_bar_has_two_regions_witness :
  (0 <= fill_end not_started strip2 <= pixel_count strip2)%Z /\
  (forall i, (0 <= i)%Z ->
             (fill_end not_started strip2 <= i < pixel_count strip2)%Z ->
             nth_error [EffectProgress.background not_started;
                        EffectProgress.background not_started]
               (Z.to_nat i)
             = Some (EffectProgress.background not_started)) /\
  (forall i fg,
      (0 <= i < fill_end not_started strip2)%Z ->
      EffectProgress.foreground not_started = inl fg ->
      exists c,
        nth_error [EffectProgress.background not_started;
                   EffectProgress.background not_started] (Z.to_nat i)
        = Some c /\
        hue c = hue fg /\ saturation c = saturation fg /\
        kelvin c = kelvin fg /\ 0 <= brightness c <= 1) /\
  (EffectProgress.position not_started
   <= EffectProgress.start_value not_started ->
   fill_end not_started strip2 = 0%Z) /\
  (EffectProgress.start_value not_started
   < EffectProgress.end_value not_started ->
   EffectProgress.end_value not_started
   <= EffectProgress.position not_started ->
   fill_end not_started strip2 = pixel_count strip2).
Proof.
  apply (@progress_bar_has_two_regions not_started strip2
           [EffectProgress.background not_started;
            EffectProgress.background not_started]).
  - simpl. lia.
  - apply not_started_frame.
Defined.

(** ** Sunrise and sunset *)

Lemma phase_kelvin (pp pp_bright norm_dist brightness_ : R) :
  0 <= pp <= 1 ->
  (1500 <= snd (Sun.phase_color pp pp_bright norm_dist brightness_)
   <= 4000)%Z.
Proof.
  intros Hpp. unfold Sun.phase_color.
  destruct (Rltb pp (2 / 10)) eqn:H2; [simpl; lia|].
  apply Rltb_false in H2.
  destruct (Rltb pp (4 / 10)) eqn:H4.
  { apply Rltb_true in H4. simpl.
    assert (1500 <= py_round (1500 + (pp - 2 / 10) / (2 / 10) * 500)
            <= 2000)%Z by (apply py_round_between; lra).
    lia. }
  apply Rltb_false in H4.
  destruct (Rltb pp (6 / 10)) eqn:H6.
  { apply Rltb_true in H6. simpl.
    assert (2000 <= py_round (2000 + (pp - 4 / 10) / (2 / 10) * 1000)
            <= 3000)%Z by (apply py_round_between; lra).
    lia. }
  apply Rltb_false in H6.
  destruct (Rltb pp (8 / 10)) eqn:H8.
  { apply Rltb_true in H8. simpl.
    assert (3000 <= py_round (3000 + (pp - 6 / 10) / (2 / 10) * 500)
            <= 3500)%Z by (apply py_round_between; lra).
    lia. }
  apply Rltb_false in H8. simpl.
  assert (3500 <= py_round (3500 + (pp - 8 / 10) / (2 / 10) * 500)
          <= 4000)%Z by (apply py_round_between; lra).
  lia.
Qed.

(** X22.  Every pixel of a frame of the sun, a sunrise's or a sunset's,
    at any progress, has a hue between 0 and 360, a brightness between
    0 and 1 and a kelvin between 1500 and 4000. *)
Theorem sun_pixels_are_in_range
    (ctx : FrameContext) (progress brightness_ : R) (origin : string)
    (frame : list HSBK) (c : HSBK) :
  Sun._sun_frame ctx progress brightness_ origin = Ok frame ->
  In c frame ->
  0 <= hue c <= 360 /\
  0 <= brightness c <= 1 /\
  (1500 <= kelvin c <= 4000)%Z.
Proof.
  intros Hframe Hin. unfold Sun._sun_frame in Hframe.
  destruct (@for_each_In _ _ _ _ _ _ Hframe Hin) as (i & _ & Hpixel).
  unfold Sun.pixel in Hpixel.
  repeat match type of Hpixel with
         | bind ?m _ = _ =>
             destruct m; simpl in Hpixel; [|discriminate]
         end.
  match type of Hpixel with
  | context [Sun.phase_color ?pp ?pb ?nd ?b] =>
      pose proof (@phase_kelvin pp pb nd b (clamp01_range _)) as Hkelvin;
      destruct (Sun.phase_color pp pb nd b) as [[[h s] b'] k]
  end.
  simpl in Hkelvin.
  destruct (Rltb _ (1 / 2)); injection Hpixel as <-; simpl;
    (split; [split; apply IZR_le; lia|split; [apply clamp01_range|lia]]).
Qed.

(** A one-minute sunrise on a tile of 8 x 8 pixels, after 30 seconds. *)
Definition tile_at_dawn : FrameContext :=
  {| elapsed_s := 30; device_index := 0; pixel_count := 64;
     canvas_width := 8; canvas_height := 8 |}.

Lemma sun_pixels_are_in_range_witness :
  exists c rest,
    Sun._sun_frame tile_at_dawn (30 / 60) 1 "bottom"%string = Ok (c :: rest) /\
    0 <= hue c <= 360 /\
    0 <= brightness c <= 1 /\
    (1500 <= kelvin c <= 4000)%Z.
Proof.
  assert (Hfull : full_frame tile_at_dawn
                    (Sun._sun_frame tile_at_dawn (30 / 60) 1 "bottom"%string))
    by (apply sun_frame; simpl; lia).
  destruct Hfull as (frame & Hframe & Hlen).
  destruct frame as [|c rest]; [discriminate|].
  exists c, rest. split; [exact Hframe|].
  apply (@sun_pixels_are_in_range tile_at_dawn (30 / 60) 1 "bottom"%string
           (c :: rest) c Hframe).
  left. reflexivity.
Defined.

Lemma sunrise_checked (power_on_ : bool) (duration brightness_ : R)
    (origin_ : string) (e : EffectSunrise.t) :
  EffectSunrise.init power_on_ duration brightness_ origin_ = Ok e ->
  0 < duration /\
  _duration (EffectSunrise.base e) = Some duration /\
  EffectSunrise.brightness e = brightness_ /\
  EffectSunrise.origin e = origin_.
Proof.
  intros Hinit. unfold EffectSunrise.init in Hinit. invert_init Hinit.
  injection Hinit as <-. simpl.
  destruct (frame_effect_fps _ _ _ Hbase) as (_ & Hduration & _).
  apply Rleb_false in Hcheck. tauto.
Qed.

Lemma sunset_checked (power_on_ power_off_ : bool) (duration brightness_ : R)
    (origin_ : string) (e : EffectSunset.t) :
  EffectSunset.init power_on_ duration brightness_ power_off_ origin_
  = Ok e ->
  0 < duration /\
  _duration (EffectSunset.base e) = Some duration /\
  EffectSunset.brightness e = brightness_ /\
  EffectSunset.origin e = origin_.
Proof.
  intros Hinit. unfold EffectSunset.init in Hinit. invert_init Hinit.
  injection Hinit as <-. simpl.
  destruct (frame_effect_fps _ _ _ Hbase) as (_ & Hduration & _).
  apply Rleb_false in Hcheck. tauto.
Qed.

(** X23.  A sunset is a sunrise run backwards: for a sunrise and a
    sunset built with the same duration, brightness and origin, the
    frame of the sunset at elapsed_s is the frame of the sunrise at
    duration - elapsed_s. *)
Theorem sunset_is_sunrise_reversed
    (rise_power_on set_power_on power_off_ : bool) (duration brightness_ : R)
    (origin_ : string) (sunrise : EffectSunrise.t) (sunset : EffectSunset.t)
    (ctx : FrameContext) :
  EffectSunrise.init rise_power_on duration brightness_ origin_
  = Ok sunrise ->
  EffectSunset.init set_power_on duration brightness_ power_off_ origin_
  = Ok sunset ->
  EffectSunset.generate_frame sunset ctx
  = EffectSunrise.generate_frame sunrise
      (at_time ctx (duration - elapsed_s ctx)).
Proof.
  intros Hrise Hset.
  destruct (sunrise_checked _ _ _ _ Hrise) as (Hpos & Hd1 & Hb1 & Ho1).
  destruct (sunset_checked _ _ _ _ _ Hset) as (_ & Hd2 & Hb2 & Ho2).
  unfold EffectSunset.generate_frame, EffectSunrise.generate_frame.
  simpl. rewrite Hd1, Hd2, Hb1, Hb2, Ho1, Ho2.
  assert (Hnonzero : Reqb duration 0 = false) by (apply Reqb_false; lra).
  rewrite Hnonzero.
  replace ((duration - elapsed_s ctx) / duration)
    with (1 - elapsed_s ctx / duration) by (field; lra).
  reflexivity.
Qed.

(** [EffectSunrise(duration=60)] and [EffectSunset(duration=60)] *)
Definition sunrise60 : EffectSunrise.t :=
  {| EffectSunrise.base := {| power_on := true; _fps := 20;
                              _duration := Some 60 |};
     EffectSunrise.brightness := 1;
     EffectSunrise.origin := "bottom"%string |}.

Definition sunset60 : EffectSunset.t :=
  {| EffectSunset.base := {| power_on := false; _fps := 20;
                             _duration := Some 60 |};
     EffectSunset.brightness := 1;
     EffectSunset.power_off := true;
     EffectSunset.origin := "bottom"%string |}.

Lemma sunrise60_constructed :
  EffectSunrise.init true 60 1 "bottom"%string = Ok sunrise60.
Proof.
  unfold EffectSunrise.init, FrameEffects.init. simpl. decide_R.
  reflexivity.
Qed.

Lemma sunset60_constructed :
  EffectSunset.init false 60 1 true "bottom"%string = Ok sunset60.
Proof.
  unfold EffectSunset.init, FrameEffects.init. simpl. decide_R.
  reflexivity.
Qed.

Lemma sunset_is_sunrise_reversed_witness :
  EffectSunset.generate_frame sunset60 tile_at_dawn
  = EffectSunrise.generate_frame sunrise60
      (at_time tile_at_dawn (60 - elapsed_s tile_at_dawn)).
Proof.
  apply (@sunset_is_sunrise_reversed true false true 60 1 "bottom"%string
           sunrise60 sunset60 tile_at_dawn).
  - apply sunrise60_constructed.
  - apply sunset60_constructed.
Defined.

(** ** Validation in the other constructors *)

(** Read the checks that passed as inequalities. *)
Ltac read_checks :=
  repeat match goal with
         | E : negb (Rleb _ _ && Rleb _ _) = false |- _ =>
             apply within_check in E
         | E : Rleb _ _ = false |- _ => apply Rleb_false in E
         | E : Rltb _ _ = false |- _ => apply Rltb_false in E
         | E : (_ <? _)%Z = false |- _ => apply Z.ltb_ge in E
         end.

(** X24.  The constructors of the aurora, the colorloop, the progress
    bar, the sunrise and the sunset validate their parameters and
    raise [ValueError], returning no effect: the aurora for speed <= 0,
    brightness outside [0, 1], spread outside [0, 360], a palette of
    fewer than two hues or with a hue outside 0..360; the colorloop
    for period <= 0, change or spread outside [0, 360], a brightness
    or a saturation bound outside [0, 1], saturation_min >
    saturation_max and a negative transition; the progress bar for
    start_value >= end_value, a position outside the range, a gradient
    of fewer than two stops, spot_brightness or spot_width outside
    [0, 1] and spot_speed <= 0; sunrise and sunset for duration <= 0,
    brightness outside [0, 1] and an origin that is neither bottom nor
    center. *)
Theorem remaining_constructors_reject_bad_parameters `{LifxConst} :
  (forall power_on_ speed brightness_ palette spread,
      speed <= 0 \/ ~ (0 <= brightness_ <= 1) \/ ~ (0 <= spread <= 360) \/
      (exists p, palette = Some p /\
                 ((List.length p < 2)%nat \/
                  exists h, In h p /\ ~ (0 <= h <= 360)%Z)) ->
      EffectAurora.init power_on_ speed brightness_ palette spread
      = Raise ValueError) /\
  (forall power_on_ period change spread brightness_ saturation_min
          saturation_max transition synchronized,
      period <= 0 \/ ~ (0 <= change <= 360) \/ ~ (0 <= spread <= 360) \/
      (exists b, brightness_ = Some b /\ ~ (0 <= b <= 1)) \/
      ~ (0 <= saturation_min <= 1) \/ ~ (0 <= saturation_max <= 1) \/
      saturation_max < saturation_min \/
      (exists tr, transition = Some tr /\ tr < 0) ->
      EffectColorloop.init power_on_ period change spread brightness_
        saturation_min saturation_max transition synchronized
      = Raise ValueError) /\
  (forall power_on_ start_value end_value position foreground background
          spot_brightness spot_width spot_speed,
      end_value <= start_value \/
      ~ (start_value <= position <= end_value) \/
      (exists stops, foreground = Some (inr stops) /\
                     (List.length stops < 2)%nat) \/
      ~ (0 <= spot_brightness <= 1) \/ ~ (0 <= spot_width <= 1) \/
      spot_speed <= 0 ->
      EffectProgress.init power_on_ start_value end_value position
        foreground background spot_brightness spot_width spot_speed
      = Raise ValueError) /\
  (forall rise_power_on set_power_on power_off_ duration brightness_ origin,
      duration <= 0 \/ ~ (0 <= brightness_ <= 1) \/
      (origin <> "bottom"%string /\ origin <> "center"%string) ->
      EffectSunrise.init rise_power_on duration brightness_ origin
      = Raise ValueError /\
      EffectSunset.init set_power_on duration brightness_ power_off_ origin
      = Raise ValueError).
Proof.
  split; [|split; [|split]].
  - intros power_on_ speed brightness_ palette spread Hbad.
    unfold EffectAurora.init. pass_checks.
    destruct Hbad as [Hbad|[Hbad|[Hbad|(p & -> & Hbad)]]]; try lra.
    match goal with
    | E : _ || _ = false |- _ =>
        apply orb_false_iff in E; destruct E as [Hlen Hhues]
    end.
    apply Z.ltb_ge in Hlen. apply negb_false_iff in Hhues.
    destruct Hbad as [Hshort|(h & Hin & Hout)]; [lia|].
    rewrite forallb_forall in Hhues. specialize (Hhues h Hin).
    apply andb_true_iff in Hhues. destruct Hhues as [Hlow Hhigh].
    apply Z.leb_le in Hlow, Hhigh. lia.
  - intros power_on_ period change spread brightness_ saturation_min
      saturation_max transition synchronized Hbad.
    unfold EffectColorloop.init. pass_checks.
    destruct Hbad
      as [Hbad|[Hbad|[Hbad|[(b & -> & Hbad)|[Hbad|[Hbad|
          [Hbad|(tr & -> & Hbad)]]]]]]];
      read_checks; lra.
  - intros power_on_ start_value end_value position foreground background
      spot_brightness spot_width spot_speed Hbad.
    unfold EffectProgress.init. pass_checks.
    destruct Hbad as [Hbad|[Hbad|[(stops & -> & Hbad)|[Hbad|[Hbad|Hbad]]]]];
      read_checks; try lra. lia.
  - intros rise_power_on set_power_on power_off_ duration brightness_ origin
      Hbad.
    assert (Horigin : origin <> "bottom"%string /\ origin <> "center"%string ->
                      negb (existsb (String.eqb origin) Sun._VALID_ORIGINS)
                      = true).
    { intros [Hbottom Hcenter]. simpl.
      apply String.eqb_neq in Hbottom, Hcenter.
      rewrite Hbottom, Hcenter. reflexivity. }
    split.
    + unfold EffectSunrise.init. pass_checks.
      destruct Hbad as [Hbad|[Hbad|Hbad]]; try lra.
      discriminate (Horigin Hbad).
    + unfold EffectSunset.init. pass_checks.
      destruct Hbad as [Hbad|[Hbad|Hbad]]; try lra.
      discriminate (Horigin Hbad).
Qed.

Lemma remaining_constructors_reject_bad_parameters_witness :
  EffectAurora.init true 1 (8 / 10) (Some [120%Z]) 0 = Raise ValueError /\
  EffectColorloop.init true 60 20 30 None (9 / 10) (8 / 10) None false
  = Raise ValueError /\
  EffectProgress.init (H := lifx_const) true 0 100 150 None None 1
    (15 / 100) 1 = Raise ValueError /\
  EffectSunrise.init true 60 1 "top"%string = Raise ValueError /\
  EffectSunset.init false 60 1 true "top"%string = Raise ValueError.
Proof.
  destruct (@remaining_constructors_reject_bad_parameters lifx_const)
    as (Haurora & Hcolorloop & Hprogress & Hsun).
  split; [|split; [|split]].
  - apply Haurora. right. right. right. exists [120%Z].
    split; [reflexivity|]. left. simpl. lia.
  - apply Hcolorloop. do 6 right. left. lra.
  - apply Hprogress. right. left. lra.
  - apply (Hsun true false true 60 1 "top"%string).
    right. right. split; discriminate.
Defined.

(** ** The frame loop *)

Lemma enumerate_from_nth {A : Type} (l : list A) :
  forall (k idx : Z) (x : A),
    In (idx, x) (enumerate_from k l) ->
    (k <= idx)%Z /\ nth_error l (Z.to_nat (idx - k)) = Some x.
Proof.
  induction l as [|y l IH]; intros k idx x Hin; simpl in Hin.
  - contradiction.
  - destruct Hin as [[= <- <-]|Hin].
    + split; [lia|]. rewrite Z.sub_diag. reflexivity.
    + destruct (IH _ _ _ Hin) as [Hk Hnth]. split; [lia|].
      replace (Z.to_nat (idx - k)) with (S (Z.to_nat (idx - (k + 1))))
        by lia.
      exact Hnth.
Qed.

Section Loop.

Variable protocol_color : Type.
Variable as_tuple : HSBK -> protocol_color.
Variable send_frame : Animator -> list protocol_color -> result unit.
Variable generate_frame : FrameContext -> result (list HSBK).

(** The frame [handed] was generated for [animator], at position [idx]
    of the animators of [tick], [elapsed] seconds into the effect. *)
Definition generated_at (self : FrameEffect) (start_time : R)
    (tick : frame_tick) (handed : Animator * list protocol_color) : Prop :=
  let elapsed := frame_start tick - start_time in
  stop_is_set tick = false /\
  match _duration self with
  | Some d => elapsed < d
  | None => True
  end /\
  exists idx hsbk_frame,
    (0 <= idx)%Z /\
    nth_error (_animators tick) (Z.to_nat idx) = Some (fst handed) /\
    generate_frame (context_for elapsed idx (fst handed)) = Ok hsbk_frame /\
    snd handed = map as_tuple hsbk_frame.

Lemma send_frames_handed (elapsed : R) :
  forall items handed,
    In handed
       (fst (send_frames as_tuple send_frame generate_frame elapsed items)) ->
    exists idx hsbk_frame,
      In (idx, fst handed) items /\
      generate_frame (context_for elapsed idx (fst handed)) = Ok hsbk_frame /\
      snd handed = map as_tuple hsbk_frame.
Proof.
  induction items as [|[idx animator] items IH]; intros handed Hin;
    simpl in Hin.
  - contradiction.
  - destruct (generate_frame (context_for elapsed idx animator))
      as [hsbk_frame|e] eqn:Hgen; [|contradiction].
    assert (Hfirst : handed = (animator, map as_tuple hsbk_frame) ->
              exists idx' hsbk_frame',
                In (idx', fst handed) ((idx, animator) :: items) /\
                generate_frame (context_for elapsed idx' (fst handed))
                = Ok hsbk_frame' /\
                snd handed = map as_tuple hsbk_frame').
    { intros ->. exists idx, hsbk_frame. simpl.
      repeat split; [now left|assumption]. }
    destruct (send_frame animator (map as_tuple hsbk_frame)) as [u|e].
    + destruct (send_frames as_tuple send_frame generate_frame elapsed
                  items) as [sent outcome] eqn:Hrest.
      simpl in Hin. destruct Hin as [Heq|Hin]; [auto|].
      destruct (IH handed Hin) as (idx' & frame' & Hitem & Hrest').
      exists idx', frame'. split; [now right|assumption].
    + simpl in Hin. destruct Hin as [Heq|[]]. auto.
Qed.

Lemma play_loop_handed (self : FrameEffect) (frame_interval start_time : R) :
  forall env handed,
    In handed
       (fst (play_loop as_tuple send_frame generate_frame self
               frame_interval start_time env)) ->
    exists tick, In tick env /\ generated_at self start_time tick handed.
Proof.
  induction env as [|tick env IH]; intros handed Hin; simpl in Hin.
  - contradiction.
  - destruct (stop_is_set tick) eqn:Hstop; [contradiction|].
    match type of Hin with
    | context [if ?c then _ else _] => destruct c eqn:Hover
    end; [contradiction|].
    assert (Hnow : In handed
                     (fst (send_frames as_tuple send_frame generate_frame
                             (frame_start tick - start_time)
                             (enumerate (_animators tick)))) ->
                   exists tick', In tick' (tick :: env) /\
                                 generated_at self start_time tick' handed).
    { intros Hsent. exists tick. split; [now left|].
      unfold generated_at. cbv zeta. split; [assumption|]. split.
      - destruct (_duration self) as [d|]; [|exact I].
        apply Rleb_false in Hover. exact Hover.
      - destruct (send_frames_handed _ _ _ Hsent)
          as (idx & hsbk_frame & Hitem & Hgen & Hframe).
        apply enumerate_from_nth in Hitem. destruct Hitem as [Hidx Hnth].
        rewrite Z.sub_0_r in Hnth.
        exists idx, hsbk_frame. repeat split; assumption. }
    destruct (send_frames as_tuple send_frame generate_frame
                (frame_start tick - start_time)
                (enumerate (_animators tick))) as [sent [u|e]] eqn:Hpass.
    + match type of Hin with
      | context [if ?c then _ else _] => destruct c
      end.
      * apply Hnow. exact Hin.
      * destruct (play_loop as_tuple send_frame generate_frame self
                    frame_interval start_time env) as [more outcome].
        simpl in Hin. apply in_app_or in Hin.
        destruct Hin as [Hsent|Hmore]; [apply Hnow; exact Hsent|].
        destruct (IH handed Hmore) as (tick' & Htick' & Hgen).
        exists tick'. split; [now right|assumption].
    + apply Hnow. exact Hin.
Qed.

(** X25.  Every frame that the frame loop hands to an animator, over the
    whole run of [async_play], was generated in an iteration that found
    the stop event clear and, when the effect has a duration, an
    elapsed time smaller than the duration; it was generated by
    [generate_frame] for that animator, with device_index the position
    of the animator in the list of animators. *)
Theorem frame_loop_sends_only_while_running
    (self : FrameEffect) (start_time : R) (env : list frame_tick)
    (handed : Animator * list protocol_color) :
  In handed
     (fst (async_play as_tuple send_frame generate_frame self start_time
             env)) ->
  exists tick, In tick env /\ generated_at self start_time tick handed.
Proof.
  unfold async_play. intros Hin.
  destruct (float_div 1 (_fps self)) as [frame_interval|e];
    [|contradiction].
  apply (play_loop_handed _ _ _ _ _ Hin).
Qed.

End Loop.

(** A frame effect of two seconds: the tick at 2.5 s sends nothing. *)
Definition two_seconds : FrameEffect :=
  {| power_on := true; _fps := 20; _duration := Some 2 |}.

Definition tick_at (time : R) : frame_tick :=
  {| stop_is_set := false; frame_start := time;
     _animators := [bulb_animator]; frame_done := time;
     stopped_while_asleep := false |}.

Lemma two_seconds_run :
  async_play (fun c => c) accept solid two_seconds 0
    [tick_at 1; tick_at (5 / 2)]
  = ([(bulb_animator, [warm_white])], PlayReturned).
Proof.
  unfold async_play. rewrite float_div_ok by (simpl; lra).
  simpl. unfold Rmax. decide_R. reflexivity.
Qed.

Lemma frame_loop_sends_only_while_running_witness :
  exists tick,
    In tick [tick_at 1; tick_at (5 / 2)] /\
    generated_at (fun c => c) solid two_seconds 0 tick
      (bulb_animator, [warm_white]).
Proof.
  apply (@frame_loop_sends_only_while_running HSBK (fun c => c) accept solid
           two_seconds 0 [tick_at 1; tick_at (5 / 2)]
           (bulb_animator, [warm_white])).
  rewrite two_seconds_run. left. reflexivity.
Defined.

End FrameFacts.

(* ===================================================================== *)
(** * src/lifx/effects/conductor.py: the life of an effect

    [start], [stop], [remove_lights] and the clean-up of a finished
    effect, taken together: which state is restored, which tasks are
    cancelled, which animators are closed, and how participants and
    animators stay in step. *)

Module ConductorFacts.

Import Models.
Import ConductorModel.
Import DictFacts.


(** The lights of [lights] that run an effect from which the effect
    object [o] inherits the pre-state. *)
Definition inherits (self : Conductor) (o : EffectObject) (light : Light)
  : Prop :=
  exists current other,
    get (_running self) (serial light) = Some current /\
    nth_error (effects self) (Models.effect current) = Some other /\
    inherit_prestate o (class_name other) = true.

(** ** [Conductor.remove_lights] (lines 419-512) *)

(** Lines 457-462: the position of the first participant with the
    serial. *)
Fixpoint index_of (serial_ : string) (ps : list Light) : option nat :=
  match ps with
  | [] => None
  | p :: ps' =>
      if String.eqb (serial p) serial_ then Some 0%nat
      else option_map S (index_of serial_ ps')
  end.

(** [l.pop(idx)] for an index in range *)
Fixpoint pop {A : Type} (l : list A) (idx : nat) : list A :=
  match l, idx with
  | [], _ => []
  | _ :: l', O => l'
  | x :: l', S idx' => x :: pop l' idx'
  end.

(** Lines 455-462: the animator that is closed and popped. *)
Definition popped (serial_ : string) (o : EffectObject) : option nat :=
  match frame_fps o with
  | Some _ =>
      match index_of serial_ (participants o) with
      | Some idx =>
          if (idx <? List.length (_animators o))%nat then Some idx else None
      | None => None
      end
  | None => None
  end.

(** Lines 454-467 on the effect object: the animator of the light is
    popped, the light leaves the participants. *)
Definition detach (serial_ : string) (o : EffectObject) : EffectObject :=
  let o' := match popped serial_ o with
            | Some idx => set_animators (pop (_animators o) idx) o
            | None => o
            end in
  set_participants
    (filter (fun p => negb (String.eqb (serial p) serial_)) (participants o'))
    o'.

(** Lines 474-478: the entries of the registry with the task and the
    effect of [running]. *)
Definition remaining (d : dict RunningEffect) (running : RunningEffect)
  : nat :=
  List.length
    (filter (fun entry =>
               Nat.eqb (task (snd entry)) (task running)
               && Nat.eqb (Models.effect (snd entry)) (Models.effect running))
       d).

(** [tasks_to_cancel.add(t)] *)
Definition add_task (t : nat) (ts : list nat) : list nat :=
  if existsb (Nat.eqb t) ts then ts else ts ++ [t].

Record removal : Type := {
  conductor : Conductor;
  tasks_to_cancel : list nat;
  lights_to_restore : list (Light * PreState)
}.

(** One iteration of the loop of lines 446-483. *)
Definition remove_one (restore : bool) (state : removal) (light : Light)
  : removal :=
  let self := conductor state in
  match get (_running self) (serial light) with
  | None => state
  | Some running =>
      let e := Models.effect running in
      let self' :=
        match nth_error (effects self) e with
        | Some o =>
            {| _running := _running self;
               effects := modify (effects self) e (detach (serial light));
               tasks := tasks self;
               restored := restored self;
               closed :=
                 closed self
                 ++ match popped (serial light) o with
                    | Some idx =>
                        match nth_error (_animators o) idx with
                        | Some animator => [animator]
                        | None => []
                        end
                    | None => []
                    end |}
        | None => self
        end in
      {| conductor := with_running self' (del (_running self) (serial light));
         tasks_to_cancel :=
           if (remaining (_running self) running <=? 1)%nat
           then add_task (task running) (tasks_to_cancel state)
           else tasks_to_cancel state;
         lights_to_restore :=
           if restore
           then lights_to_restore state ++ [(light, prestate running)]
           else lights_to_restore state |}
  end.

(** [remove_lights(lights, restore_state)].  The tasks are cancelled
    and awaited, and the states restored, outside the lock:
    [meanwhile] is what the other coroutines do to the conductor during
    the wait for the cancelled tasks. *)
Definition remove_lights
    (restore_state : Light -> PreState -> result unit)
    (meanwhile : Conductor -> Conductor)
    (lights : list Light) (restore : bool) (self : Conductor)
  : result unit * Conductor :=
  let state :=
    fold_left (remove_one restore) lights
      {| conductor := self; tasks_to_cancel := [];
         lights_to_restore := [] |} in
  let self := cancel_all (tasks_to_cancel state) (conductor state) in
  let self := meanwhile self in
  let self :=
    {| _running := _running self; effects := effects self;
       tasks := tasks self;
       restored := restored self ++ lights_to_restore state;
       closed := closed self |} in
  match for_each (fun entry => restore_state (fst entry) (snd entry))
          (lights_to_restore state) with
  | Raise ex => (Raise ex, self)
  | Ok _ => (Ok tt, self)
  end.

(** ** From capture to restore *)

Lemma get_store_all_new (entries : list (string * PreState)) :
  forall (d : dict PreState) (k : string) (p : PreState),
    NoDup (map fst entries) ->
    In (k, p) entries ->
    get (store_all d entries) k = Some p.
Proof.
  intros d k p Hnodup Hin.
  destruct (get (store_all d entries) k) as [p'|] eqn:Hget.
  - f_equal. revert d Hget.
    induction entries as [|[k0 p0] entries IH]; intros d Hget;
      [contradiction|].
    inversion Hnodup as [|? ? Hfresh Hrest]; subst.
    change (store_all d ((k0, p0) :: entries))
      with (store_all (set d k0 p0) entries) in Hget.
    destruct Hin as [[= -> ->]|Hin].
    + apply get_store_all in Hget. destruct Hget as [Hd|Hlater].
      * rewrite get_set_same in Hd. congruence.
      * exfalso. apply Hfresh. apply in_map_iff.
        exists (k, p'). split; [reflexivity|assumption].
    + apply (IH Hrest Hin _ Hget).
  - exfalso. revert Hget. apply store_all_defined. right.
    apply in_map_iff. exists (k, p). split; [reflexivity|assumption].
Qed.

Lemma captured_with_serials (capture_state : Light -> result PreState)
    (lights : list Light) :
  forall pairs,
    for_each (fun light => p <- capture_state light ;; Ok (serial light, p))
      lights = Ok pairs ->
    exists captured,
      for_each capture_state lights = Ok captured /\
      pairs = combine (map serial lights) captured /\
      List.length captured = List.length lights.
Proof.
  induction lights as [|light lights IH]; intros pairs Hpairs;
    simpl in Hpairs.
  - injection Hpairs as <-. exists []. repeat split.
  - destruct (capture_state light) as [p|ex] eqn:Hlight; simpl in Hpairs;
      [|discriminate].
    match type of Hpairs with
    | bind ?m _ = _ => destruct m as [rest|ex] eqn:Hrest
    end; simpl in Hpairs; [|discriminate].
    injection Hpairs as <-.
    destruct (IH rest eq_refl) as (captured & Hcap & -> & Hlen).
    exists (p :: captured). simpl. rewrite Hlight, Hcap. simpl.
    repeat split. lia.
Qed.

Lemma filter_all {A : Type} (f : A -> bool) (l : list A) :
  (forall x, In x l -> f x = true) -> filter f l = l.
Proof.
  induction l as [|x l IH]; intros Hall; simpl; [reflexivity|].
  rewrite (Hall x (or_introl eq_refl)), IH; [reflexivity|].
  intros y Hy. apply Hall. now right.
Qed.

Lemma flat_map_nothing {A B : Type} (f : A -> list B) (l : list A) :
  (forall x, In x l -> f x = []) -> flat_map f l = [].
Proof.
  induction l as [|x l IH]; intros Hall; simpl; [reflexivity|].
  rewrite (Hall x (or_introl eq_refl)), IH; [reflexivity|].
  intros y Hy. apply Hall. now right.
Qed.

(** The pre-states that [stop] collects are those registered for the
    compatible lights, in order. *)
Lemma collected_prestates (keep : Light -> bool) (d : dict RunningEffect)
    (e t : nat) :
  forall (lights : list Light) (states : list PreState),
    NoDup (map serial lights) ->
    List.length states = List.length (filter keep lights) ->
    (forall light p,
        In (serial light, p)
           (combine (map serial (filter keep lights)) states) ->
        get d (serial light)
        = Some {| Models.effect := e; prestate := p; task := t |}) ->
    (forall light, In light lights -> keep light = false ->
                   get d (serial light) = None) ->
    flat_map
      (fun light =>
         match get d (serial light) with
         | Some running => [(light, prestate running)]
         | None => []
         end)
      lights
    = combine (filter keep lights) states.
Proof.
  induction lights as [|light lights IH]; intros states Hnodup Hlen Hkept
    Hout; simpl in *.
  - reflexivity.
  - inversion Hnodup as [|? ? Hfresh Hrest]; subst.
    destruct (keep light) eqn:Hkeep.
    + destruct states as [|p states]; [discriminate|]. simpl in *.
      rewrite (Hkept light p (or_introl eq_refl)). simpl. f_equal.
      apply IH; [assumption|lia| |].
      * intros l2 p2 Hin. apply Hkept. now right.
      * intros l2 Hl2. apply Hout. now right.
    + rewrite (Hout light (or_introl eq_refl) Hkeep). simpl.
      apply IH; [assumption|assumption|assumption|].
      intros l2 Hl2. apply Hout. now right.
Qed.

Lemma NoDup_map_filter {A B : Type} (f : A -> B) (g : A -> bool)
    (l : list A) :
  NoDup (map f l) -> NoDup (map f (filter g l)).
Proof.
  induction l as [|x l IH]; simpl; intros Hnodup; [constructor|].
  inversion Hnodup as [|? ? Hfresh Hrest]; subst.
  destruct (g x); simpl; [|auto].
  constructor; [|auto].
  intros Hin. apply Hfresh. apply in_map_iff in Hin.
  destruct Hin as (y & Hy & Hin). apply filter_In in Hin.
  apply in_map_iff. exists y. tauto.
Qed.

Lemma NoDup_map_same {A B : Type} (f : A -> B) (l : list A) :
  NoDup (map f l) ->
  forall x y, In x l -> In y l -> f x = f y -> x = y.
Proof.
  induction l as [|z l IH]; simpl; intros Hnodup x y Hx Hy Heq;
    [contradiction|].
  inversion Hnodup as [|? ? Hfresh Hrest]; subst.
  destruct Hx as [->|Hx], Hy as [->|Hy]; auto.
  - exfalso. apply Hfresh. rewrite Heq. apply in_map. assumption.
  - exfalso. apply Hfresh. rewrite <- Heq. apply in_map. assumption.
Qed.

Lemma restored_close_frame_effects (lights : list Light) :
  forall closed_effects self,
    restored (close_frame_effects lights closed_effects self)
    = restored self.
Proof.
  induction lights as [|light lights IH]; intros ce self; simpl.
  - reflexivity.
  - destruct (get (_running self) (serial light)) as [running|]; [|apply IH].
    destruct (nth_error (effects self) (Models.effect running)) as [o|] eqn:Ho;
      [|apply IH].
    destruct (frame_fps o); [|apply IH].
    destruct (existsb _ ce); [apply IH|].
    rewrite IH. unfold close_animators. rewrite Ho. reflexivity.
Qed.

Lemma running_close_frame_effects (lights : list Light) :
  forall closed_effects self,
    _running (close_frame_effects lights closed_effects self)
    = _running self.
Proof.
  induction lights as [|light lights IH]; intros ce self; simpl.
  - reflexivity.
  - destruct (get (_running self) (serial light)) as [running|]; [|apply IH].
    destruct (nth_error (effects self) (Models.effect running)) as [o|] eqn:Ho;
      [|apply IH].
    destruct (frame_fps o); [|apply IH].
    destruct (existsb _ ce); [apply IH|].
    rewrite IH. unfold close_animators. rewrite Ho. reflexivity.
Qed.

(** What [stop] asks the state manager to restore, when nothing else
    runs while it waits. *)
Lemma restored_stop (restore_state : Light -> PreState -> result unit)
    (lights : list Light) (self : Conductor) :
  restored (snd (stop restore_state (fun c => c) lights self))
  = restored self
      ++ flat_map
           (fun light =>
              match get (_running self) (serial light) with
              | Some running => [(light, prestate running)]
              | None => []
              end)
           lights.
Proof.
  unfold stop.
  match goal with
  | |- context [for_each ?body ?todo] => destruct (for_each body todo)
  end; simpl; rewrite restored_close_frame_effects; reflexivity.
Qed.

(** X26.  From capture to restore: when [start(effect, lights)] has
    returned for lights with distinct serials, none of them running an
    effect before, a following [stop(lights)] asks the state manager to
    restore exactly the lights compatible with the effect, in order,
    each to the state that [start] captured for it. *)
Theorem stop_restores_what_start_captured
    (capture_state : Light -> result PreState)
    (restore_state : Light -> PreState -> result unit)
    (make_animator : Light -> Z -> result Animator)
    (async_setup : nat -> list Light -> result unit)
    (e : nat) (lights : list Light) (self self1 : Conductor)
    (o : EffectObject) :
  nth_error (effects self) e = Some o ->
  NoDup (map serial lights) ->
  (forall light, In light lights ->
                 get (_running self) (serial light) = None) ->
  start capture_state make_animator async_setup e lights self
  = (Ok tt, self1) ->
  exists captured,
    for_each capture_state (_filter_compatible_lights o lights)
    = Ok captured /\
    restored (snd (stop restore_state (fun c => c) lights self1))
    = restored self
        ++ combine (_filter_compatible_lights o lights) captured.
Proof.
  intros Ho Hnodup Hidle Hstart. rewrite restored_stop.
  unfold start in Hstart. rewrite Ho in Hstart.
  destruct (_filter_compatible_lights o lights) as [|f0 fs] eqn:HP.
  { injection Hstart as <-. exists []. split; [reflexivity|].
    rewrite flat_map_nothing; [reflexivity|].
    intros light Hin. rewrite (Hidle light Hin). reflexivity. }
  rewrite <- HP in *.
  set (P := _filter_compatible_lights o lights) in *.
  assert (HPin : forall light, In light P -> In light lights).
  { intros light Hin. apply filter_In in Hin. tauto. }
  match type of Hstart with
  | context [for_each ?body (filter ?f P)] =>
      rewrite (@filter_all _ f P) in Hstart
        by (intros light Hin; simpl; rewrite (Hidle light (HPin light Hin));
            reflexivity)
  end.
  match type of Hstart with
  | context [store_all [] (flat_map ?f P)] =>
      rewrite (@flat_map_nothing _ _ f P) in Hstart
        by (intros light Hin; simpl; rewrite (Hidle light (HPin light Hin));
            reflexivity)
  end.
  match type of Hstart with
  | context [for_each ?body P] =>
      destruct (for_each body P) as [pairs|ex] eqn:Hpairs; [|discriminate]
  end.
  destruct (captured_with_serials _ _ Hpairs) as (captured & Hcap & -> & Hlen).
  exists captured. split; [assumption|].
  assert (Hdone : exists d t,
            register (_running self)
              (store_all [] (combine (map serial P) captured)) e t P = Ok d /\
            _running self1 = d /\ restored self1 = restored self).
  { destruct (frame_fps o) as [fps|].
    - destruct (_create_animators make_animator fps P) as [animators|ex];
        [|discriminate].
      destruct (async_setup e P) as [u|ex]; [|discriminate].
      simpl in Hstart.
      match type of Hstart with
      | context [register ?d ?ps ?e ?t ?ls] =>
          destruct (register d ps e t ls) as [d'|ex] eqn:Hregister;
            [|discriminate]
      end.
      injection Hstart as <-. simpl. eauto.
    - simpl in Hstart.
      match type of Hstart with
      | context [register ?d ?ps ?e ?t ?ls] =>
          destruct (register d ps e t ls) as [d'|ex] eqn:Hregister;
            [|discriminate]
      end.
      injection Hstart as <-. simpl. eauto. }
  destruct Hdone as (d & t & Hregister & -> & ->). f_equal.
  destruct (register_spec _ _ _ _ _ Hregister) as (Hset & Hkeep & _).
  assert (Hkeys : NoDup (map serial P)) by (apply NoDup_map_filter; assumption).
  apply (@collected_prestates (is_light_compatible o) d e t lights captured);
    try assumption.
  - intros light p Hin.
    assert (Hk : In (serial light) (map serial P))
      by (apply in_combine_l in Hin; assumption).
    apply in_map_iff in Hk. destruct Hk as (light' & Hserial & Hlight').
    destruct (Hset light' Hlight') as (p' & Hp' & Hget).
    rewrite Hserial in Hp', Hget.
    rewrite (@get_store_all_new (combine (map serial P) captured) []
               (serial light) p) in Hp'.
    + congruence.
    + destruct (captured_pairs _ _ Hcap) as [Hfst _]. rewrite Hfst.
      assumption.
    + assumption.
  - intros light Hin Hkeep'.
    rewrite Hkeep; [apply Hidle; assumption|].
    intros Hk. apply in_map_iff in Hk.
    destruct Hk as (light' & Hserial & Hlight').
    assert (light' = light).
    { apply (NoDup_map_same serial lights Hnodup); auto. }
    subst light'. apply filter_In in Hlight'. destruct Hlight' as [_ Hyes].
    congruence.
Qed.

(** [start(colorloop, [lamp_a, bulb_c])]: the white bulb is left out. *)
Definition evening : Conductor :=
  snd (start capture_on animator_for setup_fine 0 [lamp_a; bulb_c] idle).

Lemma evening_ok :
  start capture_on animator_for setup_fine 0 [lamp_a; bulb_c] idle
  = (Ok tt, evening).
Proof.
  unfold evening.
  rewrite (surjective_pairing
             (start capture_on animator_for setup_fine 0 [lamp_a; bulb_c]
                idle)) at 1.
  f_equal. unfold start, _create_animators. simpl.
  rewrite fps_divides. reflexivity.
Qed.

Lemma stop_restores_what_start_captured_witness :
  exists captured,
    for_each capture_on
      (_filter_compatible_lights colorloop_object [lamp_a; bulb_c])
    = Ok captured /\
    restored (snd (stop restore_fine (fun c => c) [lamp_a; bulb_c] evening))
    = restored idle
        ++ combine
             (_filter_compatible_lights colorloop_object [lamp_a; bulb_c])
             captured.
Proof.
  apply (@stop_restores_what_start_captured capture_on restore_fine
           animator_for setup_fine 0 [lamp_a; bulb_c] idle evening
           colorloop_object).
  - reflexivity.
  - simpl. repeat constructor; simpl; intuition discriminate.
  - intros light Hin. reflexivity.
  - apply evening_ok.
Defined.

(** ** What [stop] cancels and closes *)





Lemma tasks_close_frame_effects (lights : list Light) :
  forall closed_effects self,
    tasks (close_frame_effects lights closed_effects self) = tasks self.
Proof.
  induction lights as [|light lights IH]; intros ce self; simpl.
  - reflexivity.
  - destruct (get (_running self) (serial light)) as [running|]; [|apply IH].
    destruct (nth_error (effects self) (Models.effect running)) as [o|] eqn:Ho;
      [|apply IH].
    destruct (frame_fps o); [|apply IH].
    destruct (existsb _ ce); [apply IH|].
    rewrite IH. unfold close_animators. rewrite Ho. reflexivity.
Qed.








(** ** Inherited pre-states *)

Lemma filter_none {A : Type} (f : A -> bool) (l : list A) :
  (forall x, In x l -> f x = false) -> filter f l = [].
Proof.
  induction l as [|x l IH]; intros Hall; simpl; [reflexivity|].
  rewrite (Hall x (or_introl eq_refl)). apply IH.
  intros y Hy. apply Hall. now right.
Qed.

Lemma class_after_set_conductor (h : list EffectObject) (e idx : nat) :
  option_map class_name (nth_error (modify h e set_conductor) idx)
  = option_map class_name (nth_error h idx).
Proof.
  destruct (Nat.eq_dec idx e) as [->|Hne].
  - rewrite nth_error_modify_same.
    destruct (nth_error h e); reflexivity.
  - rewrite nth_error_modify_other by assumption. reflexivity.
Qed.

(** X28.  Starting an effect on lights that all run an effect it
    inherits the pre-state from (a colorloop on lights running a
    colorloop, say) captures nothing: [start] does not consult the
    state manager, so its outcome is the same whatever the devices
    would have answered, and each light is registered under the new
    effect and a new task with the pre-state it already had, the one a
    later [stop] restores. *)
Theorem start_inherits_the_prestate
    (capture_state : Light -> result PreState)
    (make_animator : Light -> Z -> result Animator)
    (async_setup : nat -> list Light -> result unit)
    (e : nat) (lights : list Light) (self self1 : Conductor)
    (o : EffectObject) :
  nth_error (effects self) e = Some o ->
  (forall light, In light (_filter_compatible_lights o lights) ->
                 inherits self o light) ->
  start capture_state make_animator async_setup e lights self
  = (Ok tt, self1) ->
  (forall light current,
      In light (_filter_compatible_lights o lights) ->
      get (_running self) (serial light) = Some current ->
      get (_running self1) (serial light)
      = Some {| Models.effect := e; prestate := prestate current;
                task := List.length (tasks self) |}) /\
  (forall other_capture : Light -> result PreState,
      start other_capture make_animator async_setup e lights self
      = (Ok tt, self1)).
Proof.
  intros Ho Hinherits Hstart.
  assert (Hcheck : forall light,
            In light (_filter_compatible_lights o lights) ->
            exists current other,
              get (_running self) (serial light) = Some current /\
              nth_error (modify (effects self) e set_conductor)
                (Models.effect current) = Some other /\
              inherit_prestate o (class_name other) = true).
  { intros light Hin.
    destruct (Hinherits light Hin) as (current & other & Hget & Hother & Hyes).
    pose proof (class_after_set_conductor (effects self) e
                  (Models.effect current)) as Hclass.
    rewrite Hother in Hclass.
    destruct (nth_error (modify (effects self) e set_conductor)
                (Models.effect current)) as [other'|] eqn:Hother';
      [|discriminate].
    simpl in Hclass. injection Hclass as Hclass.
    exists current, other'. rewrite Hclass. repeat split; assumption. }
  assert (Hnone : forall capture,
            start capture make_animator async_setup e lights self
            = start (fun _ => Raise LifxTimeoutError) make_animator
                async_setup e lights self).
  { intros capture. unfold start. rewrite Ho.
    destruct (_filter_compatible_lights o lights) as [|f0 fs] eqn:HP;
      [reflexivity|].
    rewrite <- HP in *.
    repeat match goal with
           | |- context [for_each ?body (filter ?f ?l)] =>
               rewrite (@filter_none _ f l)
                 by (intros light Hin;
                     destruct (Hcheck light Hin)
                       as (current & other & Hget & Hother & Hyes);
                     simpl; rewrite Hget, Hother, Hyes; reflexivity)
           end.
    reflexivity. }
  split; [|intros other_capture; rewrite Hnone, <- (Hnone capture_state);
           assumption].
  intros light current Hin Hget.
  unfold start in Hstart. rewrite Ho in Hstart.
  destruct (_filter_compatible_lights o lights) as [|f0 fs] eqn:HP;
    [contradiction|].
  rewrite <- HP in *.
  set (P := _filter_compatible_lights o lights) in *.
  match type of Hstart with
  | context [for_each ?body (filter ?f P)] =>
      rewrite (@filter_none _ f P) in Hstart
        by (intros light' Hin';
            destruct (Hcheck light' Hin')
              as (current' & other' & Hget' & Hother' & Hyes');
            simpl; rewrite Hget', Hother', Hyes'; reflexivity)
  end.
  simpl for_each in Hstart. cbv iota in Hstart.
  match type of Hstart with
  | context [store_all (store_all [] ?inherited) []] =>
      set (prestates := store_all (store_all [] inherited) []) in *;
      assert (Hprestates : forall k p,
                get prestates k = Some p -> In (k, p) inherited)
  end.
  { intros k p Hk. unfold prestates in Hk.
    change (store_all ?d []) with d in Hk.
    apply get_store_all in Hk. destruct Hk as [Hk|Hk]; [discriminate|].
    assumption. }
  assert (Hdone : exists d,
            register (_running self) prestates e (List.length (tasks self))
              P = Ok d /\ _running self1 = d).
  { destruct (frame_fps o) as [fps|].
    - destruct (_create_animators make_animator fps P) as [animators|ex];
        [|discriminate].
      destruct (async_setup e P) as [u|ex]; [|discriminate].
      simpl in Hstart.
      match type of Hstart with
      | context [register ?d ?ps ?e ?t ?ls] =>
          destruct (register d ps e t ls) as [d'|ex] eqn:Hregister;
            [|discriminate]
      end.
      injection Hstart as <-. simpl. eauto.
    - simpl in Hstart.
      match type of Hstart with
      | context [register ?d ?ps ?e ?t ?ls] =>
          destruct (register d ps e t ls) as [d'|ex] eqn:Hregister;
            [|discriminate]
      end.
      injection Hstart as <-. simpl. eauto. }
  destruct Hdone as (d & Hregister & ->).
  destruct (register_spec _ _ _ _ _ Hregister) as (Hset & _ & _).
  destruct (Hset light Hin) as (p & Hp & Hd). rewrite Hd.
  apply Hprestates in Hp. apply in_flat_map in Hp.
  destruct Hp as (light' & Hin' & Hentry).
  destruct (Hcheck light' Hin')
    as (current' & other' & Hget' & Hother' & Hyes').
  simpl in Hentry. rewrite Hget', Hother', Hyes' in Hentry.
  destruct Hentry as [[= Hserial <-]|[]].
  rewrite Hserial, Hget in Hget'. injection Hget' as <-. reflexivity.
Qed.

(** Two colorloops; the first runs on lamp_a, then the second takes
    over. *)
Definition morning : Conductor :=
  snd (start capture_on animator_for setup_fine 0 [lamp_a]
         {| _running := []; effects := [colorloop_object; colorloop_object];
            tasks := []; restored := []; closed := [] |}).

Definition noon : Conductor :=
  snd (start capture_on animator_for setup_fine 1 [lamp_a] morning).

Lemma noon_ok :
  start capture_on animator_for setup_fine 1 [lamp_a] morning
  = (Ok tt, noon).
Proof.
  unfold noon.
  rewrite (surjective_pairing
             (start capture_on animator_for setup_fine 1 [lamp_a] morning))
    at 1.
  f_equal. unfold morning, start, _create_animators. simpl.
  rewrite fps_divides. simpl. rewrite fps_divides. reflexivity.
Qed.

Lemma start_inherits_the_prestate_witness :
  (forall light current,
      In light (_filter_compatible_lights colorloop_object [lamp_a]) ->
      get (_running morning) (serial light) = Some current ->
      get (_running noon) (serial light)
      = Some {| Models.effect := 1; prestate := prestate current;
                task := List.length (tasks morning) |}) /\
  (forall other_capture : Light -> result PreState,
      start other_capture animator_for setup_fine 1 [lamp_a] morning
      = (Ok tt, noon)).
Proof.
  apply (@start_inherits_the_prestate capture_on animator_for setup_fine 1
           [lamp_a] morning noon colorloop_object).
  - unfold morning, start, _create_animators. simpl.
    rewrite fps_divides. reflexivity.
  - intros light [<-|[]]. unfold inherits.
    exists {| Models.effect := 0; prestate := on_warm_white; task := 0 |}.
    eexists. split; [|split].
    + unfold morning, start, _create_animators. simpl.
      rewrite fps_divides. reflexivity.
    + unfold morning, start, _create_animators. simpl.
      rewrite fps_divides. reflexivity.
    + reflexivity.
  - apply noon_ok.
Defined.


(** ** What [remove_lights] leaves behind *)

Lemma unregister_other (lights : list Light) :
  forall (d : dict RunningEffect) (k : string),
    ~ In k (map serial lights) -> get (unregister lights d) k = get d k.
Proof.
  unfold unregister.
  induction lights as [|light lights IH]; intros d k Hout; simpl.
  - reflexivity.
  - simpl in Hout. rewrite IH by tauto.
    destruct (contains d (serial light)); [|reflexivity].
    apply get_del_other. intuition congruence.
Qed.

Lemma unregister_some (lights : list Light) :
  forall (d : dict RunningEffect) (k : string) (r : RunningEffect),
    get (unregister lights d) k = Some r -> get d k = Some r.
Proof.
  unfold unregister.
  induction lights as [|light lights IH]; intros d k r Hget; simpl in Hget.
  - assumption.
  - apply IH in Hget.
    destruct (contains d (serial light)); [|assumption].
    destruct (string_dec k (serial light)) as [->|Hne].
    + rewrite get_del_same in Hget. discriminate.
    + rewrite get_del_other in Hget by assumption. assumption.
Qed.

Lemma running_remove_one (restore : bool) (state : removal) (light : Light) :
  _running (conductor (remove_one restore state light))
  = unregister [light] (_running (conductor state)).
Proof.
  unfold remove_one, unregister, contains. simpl.
  destruct (get (_running (conductor state)) (serial light)); reflexivity.
Qed.

Lemma running_removal (restore : bool) (lights : list Light) :
  forall state,
    _running (conductor (fold_left (remove_one restore) lights state))
    = unregister lights (_running (conductor state)).
Proof.
  induction lights as [|light lights IH]; intros state; simpl.
  - reflexivity.
  - rewrite IH, running_remove_one. reflexivity.
Qed.

Lemma kept_remove_one (restore : bool) (state : removal) (light : Light) :
  tasks (conductor (remove_one restore state light))
  = tasks (conductor state) /\
  restored (conductor (remove_one restore state light))
  = restored (conductor state).
Proof.
  unfold remove_one.
  destruct (get (_running (conductor state)) (serial light)) as [running|];
    [|split; reflexivity].
  simpl.
  destruct (nth_error (effects (conductor state)) (Models.effect running));
    split; reflexivity.
Qed.

Lemma kept_removal (restore : bool) (lights : list Light) :
  forall state,
    tasks (conductor (fold_left (remove_one restore) lights state))
    = tasks (conductor state) /\
    restored (conductor (fold_left (remove_one restore) lights state))
    = restored (conductor state).
Proof.
  induction lights as [|light lights IH]; intros state; simpl.
  - split; reflexivity.
  - destruct (IH (remove_one restore state light)) as [Htasks Hrestored].
    destruct (kept_remove_one restore state light) as [Ht Hr].
    split; congruence.
Qed.

Lemma nothing_to_restore (lights : list Light) :
  forall state,
    lights_to_restore (fold_left (remove_one false) lights state)
    = lights_to_restore state.
Proof.
  induction lights as [|light lights IH]; intros state; simpl.
  - reflexivity.
  - rewrite IH. unfold remove_one.
    destruct (get (_running (conductor state)) (serial light));
      reflexivity.
Qed.

Lemma flat_map_same {A B : Type} (f g : A -> list B) (l : list A) :
  (forall a, In a l -> f a = g a) -> flat_map f l = flat_map g l.
Proof.
  induction l as [|a l IH]; intros Hsame; simpl.
  - reflexivity.
  - rewrite (Hsame a) by now left.
    rewrite IH; [reflexivity|].
    intros b Hb. apply Hsame. now right.
Qed.

Lemma states_to_restore (lights : list Light) :
  forall state,
    NoDup (map serial lights) ->
    lights_to_restore (fold_left (remove_one true) lights state)
    = lights_to_restore state
        ++ flat_map
             (fun light =>
                match get (_running (conductor state)) (serial light) with
                | Some running => [(light, prestate running)]
                | None => []
                end)
             lights.
Proof.
  induction lights as [|light lights IH]; intros state Hnodup; simpl.
  - rewrite app_nil_r. reflexivity.
  - inversion Hnodup as [|? ? Hfresh Hrest]; subst.
    rewrite (IH _ Hrest).
    assert (Hlater :
              flat_map
                (fun l2 =>
                   match get (_running
                                (conductor (remove_one true state light)))
                           (serial l2) with
                   | Some running => [(l2, prestate running)]
                   | None => []
                   end) lights
              = flat_map
                  (fun l2 =>
                     match get (_running (conductor state)) (serial l2) with
                     | Some running => [(l2, prestate running)]
                     | None => []
                     end) lights).
    { apply flat_map_same. intros l2 Hl2.
      rewrite running_remove_one.
      rewrite (@unregister_other [light]); [reflexivity|].
      simpl. intros [Heq|[]]. apply Hfresh. rewrite Heq.
      apply in_map. assumption. }
    rewrite Hlater. unfold remove_one at 1.
    destruct (get (_running (conductor state)) (serial light)) as [running|];
      simpl; [|reflexivity].
    rewrite <- app_assoc. reflexivity.
Qed.

Lemma two_entries (d : dict RunningEffect) (k1 k2 : string)
    (r1 r2 : RunningEffect) (f : string * RunningEffect -> bool) :
  get d k1 = Some r1 -> get d k2 = Some r2 -> k1 <> k2 ->
  f (k1, r1) = true -> f (k2, r2) = true ->
  (2 <= List.length (filter f d))%nat.
Proof.
  induction d as [|[k r] d IH]; simpl; intros H1 H2 Hne Hf1 Hf2;
    [discriminate|].
  destruct (String.eqb_spec k1 k) as [->|Hk1].
  - injection H1 as ->. rewrite Hf1. simpl.
    destruct (String.eqb_spec k2 k) as [->|Hk2]; [congruence|].
    apply PoolFacts.get_Some_In in H2.
    assert (Hin : In (k2, r2) (filter f d)) by (apply filter_In; tauto).
    destruct (filter f d); [contradiction|simpl; lia].
  - destruct (String.eqb_spec k2 k) as [->|Hk2].
    + injection H2 as ->. rewrite Hf2. simpl.
      apply PoolFacts.get_Some_In in H1.
      assert (Hin : In (k1, r1) (filter f d)) by (apply filter_In; tauto).
      destruct (filter f d); [contradiction|simpl; lia].
    + specialize (IH H1 H2 Hne Hf1 Hf2).
      destruct (f (k, r)); simpl; lia.
Qed.

(** The task [t] is shared: every light of [lights] that runs an effect
    under [t] shares effect and task with a light that stays. *)
Definition shared_with_the_rest (self : Conductor) (lights : list Light)
    (t : nat) : Prop :=
  forall light running,
    In light lights ->
    get (_running self) (serial light) = Some running ->
    task running = t ->
    exists k r,
      ~ In k (map serial lights) /\
      get (_running self) k = Some r /\
      task r = t /\ Models.effect r = Models.effect running.

Lemma In_add_task (t t' : nat) (ts : list nat) :
  In t (add_task t' ts) -> t = t' \/ In t ts.
Proof.
  unfold add_task. destruct (existsb (Nat.eqb t') ts); [now right|].
  intros Hin. apply in_app_or in Hin. destruct Hin as [Hin|[<-|[]]]; auto.
Qed.

Lemma shared_task_is_kept (restore : bool) (self0 : Conductor)
    (all : list Light) (t : nat) :
  shared_with_the_rest self0 all t ->
  forall lights done state,
    all = done ++ lights ->
    _running (conductor state) = unregister done (_running self0) ->
    ~ In t (tasks_to_cancel state) ->
    ~ In t (tasks_to_cancel (fold_left (remove_one restore) lights state)).
Proof.
  intros Hshared.
  induction lights as [|light lights IH]; intros done state Hall Hd Hout;
    simpl.
  - assumption.
  - apply (IH (done ++ [light])).
    + rewrite <- app_assoc. assumption.
    + rewrite running_remove_one, Hd. unfold unregister.
      rewrite fold_left_app. reflexivity.
    + unfold remove_one.
      destruct (get (_running (conductor state)) (serial light))
        as [running|] eqn:Hget; [|assumption].
      simpl.
      destruct (Nat.leb_spec (remaining (_running (conductor state)) running)
                  1) as [Hlast|_]; [|assumption].
      intros Hin. apply In_add_task in Hin.
      destruct Hin as [Ht|Hin]; [|contradiction].
      assert (Hlight : In light all)
        by (rewrite Hall; apply in_or_app; right; now left).
      pose proof Hget as Hget0. rewrite Hd in Hget0.
      apply unregister_some in Hget0.
      destruct (Hshared light running Hlight Hget0 (eq_sym Ht))
        as (k & r & Hk & Hr & Htask & Heffect).
      assert (Hk' : get (_running (conductor state)) k = Some r).
      { rewrite Hd, unregister_other; [assumption|].
        intros Hdone. apply Hk. rewrite Hall, map_app.
        apply in_or_app. now left. }
      assert (Hne : serial light <> k).
      { intros <-. apply Hk. apply in_map. assumption. }
      pose proof (@two_entries (_running (conductor state)) (serial light) k
                    running r
                    (fun entry =>
                       Nat.eqb (task (snd entry)) (task running)
                       && Nat.eqb (Models.effect (snd entry))
                            (Models.effect running))
                    Hget Hk' Hne) as Htwo.
      simpl in Htwo. rewrite !Nat.eqb_refl in Htwo.
      rewrite Htask, Ht, Heffect, !Nat.eqb_refl in Htwo.
      specialize (Htwo eq_refl eq_refl). unfold remaining in Hlast. lia.
Qed.

Lemma cancel_all_others (ts : list nat) :
  forall (h : list task_state) (t : nat),
    ~ In t ts ->
    nth_error (fold_left (fun h t => modify h t cancel) ts h) t
    = nth_error h t.
Proof.
  induction ts as [|t0 ts IH]; intros h t Hout; simpl.
  - reflexivity.
  - simpl in Hout. rewrite IH by tauto.
    apply nth_error_modify_other. intuition congruence.
Qed.

(** X29.  [remove_lights(lights)], when nothing else runs while it
    waits, leaves no effect on the lights removed and leaves every
    other entry of the registry as it was; with restore_state=False it
    restores nothing, and with restore_state=True (the lights having
    distinct serials) it asks the state manager to restore each light
    that was running an effect to the pre-state registered for it; and
    it does not stop the others: a task under which a light that stays
    still runs the same effect is left as it was. *)
Theorem remove_lights_detaches_the_lights
    (restore_state : Light -> PreState -> result unit)
    (lights : list Light) (restore : bool) (self : Conductor) :
  (forall light,
      In light lights ->
      effect (snd (remove_lights restore_state (fun c => c) lights restore
                     self)) light = None) /\
  (forall k,
      ~ In k (map serial lights) ->
      get (_running (snd (remove_lights restore_state (fun c => c) lights
                            restore self))) k
      = get (_running self) k) /\
  (restore = false ->
   restored (snd (remove_lights restore_state (fun c => c) lights restore
                    self)) = restored self) /\
  (restore = true -> NoDup (map serial lights) ->
   restored (snd (remove_lights restore_state (fun c => c) lights restore
                    self))
   = restored self
       ++ flat_map
            (fun light =>
               match get (_running self) (serial light) with
               | Some running => [(light, prestate running)]
               | None => []
               end)
            lights) /\
  (forall t,
      shared_with_the_rest self lights t ->
      nth_error
        (tasks (snd (remove_lights restore_state (fun c => c) lights restore
                       self))) t
      = nth_error (tasks self) t).
Proof.
  unfold remove_lights.
  set (state := fold_left (remove_one restore) lights
                  {| conductor := self; tasks_to_cancel := [];
                     lights_to_restore := [] |}).
  assert (Hrunning : _running (conductor state)
                     = unregister lights (_running self))
    by (apply running_removal).
  destruct (kept_removal restore lights
              {| conductor := self; tasks_to_cancel := [];
                 lights_to_restore := [] |}) as [Htasks Hrestored].
  fold state in Htasks, Hrestored. simpl in Htasks, Hrestored.
  assert (Hafter :
            forall outcome : result unit * Conductor,
              snd outcome
              = {| _running := unregister lights (_running self);
                   effects := effects (conductor state);
                   tasks :=
                     fold_left (fun h t => modify h t cancel)
                       (tasks_to_cancel state) (tasks self);
                   restored := restored self ++ lights_to_restore state;
                   closed := closed (conductor state) |} ->
              (forall light,
                  In light lights -> effect (snd outcome) light = None) /\
              (forall k,
                  ~ In k (map serial lights) ->
                  get (_running (snd outcome)) k = get (_running self) k) /\
              (restore = false -> restored (snd outcome) = restored self) /\
              (restore = true -> NoDup (map serial lights) ->
               restored (snd outcome)
               = restored self
                   ++ flat_map
                        (fun light =>
                           match get (_running self) (serial light) with
                           | Some running => [(light, prestate running)]
                           | None => []
                           end)
                        lights) /\
              (forall t,
                  shared_with_the_rest self lights t ->
                  nth_error (tasks (snd outcome)) t
                  = nth_error (tasks self) t)).
  { intros outcome ->. simpl. repeat split.
    - intros light Hin. unfold effect. simpl.
      rewrite (unregister_clears _ _ _ Hin). reflexivity.
    - intros k Hk. apply unregister_other. assumption.
    - intros ->. unfold state. rewrite nothing_to_restore. simpl.
      apply app_nil_r.
    - intros -> Hnodup. unfold state.
      rewrite states_to_restore by assumption. reflexivity.
    - intros t Hshared. apply cancel_all_others.
      apply (@shared_task_is_kept restore self lights t Hshared lights []
               {| conductor := self; tasks_to_cancel := [];
                  lights_to_restore := [] |});
        [reflexivity|reflexivity|intros []]. }
  match goal with
  | |- context [for_each ?body ?todo] => destruct (for_each body todo)
  end; apply Hafter; simpl; rewrite Hrunning, Hrestored, Htasks;
    reflexivity.
Qed.

(** ** The animators stay with their lights *)





















End ConductorFacts.
